(** * polaris: orbital elements and single-shooting differential correction

    A shallow embedding of two modules of the [polaris] package:

    - [polaris/Keplerian/_conicElements.py]: closed-form orbital elements
      ([get_eccentricity], [get_semiMajorAxis], [get_period]);
    - [polaris/R3BP/_ssdc_periodic_xzplane.py]: the correction engine
      [ssdc_periodic_xzplane].

    Python floats are kept behind an interface ([Float64Ops]) so that every
    general statement holds whatever the rounding of the operations is; the
    instance [binary64] interprets the interface with IEEE 754 double
    precision numbers and is used to run the code on concrete inputs.

    numpy arrays are lists stored in a heap indexed by references, because
    the engine writes into the array object it is handed. *)

From Stdlib Require Import ZArith String PrimFloat.
From stdpp Require Import gmap list strings.

Local Open Scope Z_scope.

(** ** Floating-point interface *)

Class Float64Ops (F : Type) := {
  fofZ : Z -> F;              (* an int literal used where a float is expected *)
  fadd : F -> F -> F;
  fsub : F -> F -> F;
  fmul : F -> F -> F;
  fdiv : F -> F -> F;
  fpow : F -> Z -> F;         (* [x ** n] with an int exponent *)
  fsqrt : F -> F;             (* [np.sqrt] *)
  fabs : F -> F;              (* [np.abs] *)
  flt : F -> F -> bool;       (* [x < y] *)
  feqb : F -> F -> bool;      (* [x == y] *)
  f_pi : F;                   (* [np.pi] *)
  f_1e_9 : F;                 (* the literal [1e-9] *)
  f_1e_12 : F;                (* the literal [1e-12] *)
  norm : list F -> F          (* [la.norm] of a one-dimensional array *)
}.

(** [x > y] is [y < x], also on NaN. *)
Definition fgt {F} `{Float64Ops F} (x y : F) : bool := flt y x.

(** *** IEEE 754 binary64 *)

Definition float_of_Z (z : Z) : float :=
  match z with
  | Z0 => PrimFloat.zero
  | Zpos p => Pos.iter_op PrimFloat.add p PrimFloat.one
  | Zneg p => PrimFloat.opp (Pos.iter_op PrimFloat.add p PrimFloat.one)
  end.

Fixpoint float_pow_nat (x : float) (n : nat) : float :=
  match n with
  | O => PrimFloat.one
  | S O => x
  | S m => PrimFloat.mul (float_pow_nat x m) x
  end.

Definition float_pow (x : float) (n : Z) : float :=
  match n with
  | Zneg p => PrimFloat.div PrimFloat.one (float_pow_nat x (Pos.to_nat p))
  | _ => float_pow_nat x (Z.to_nat n)
  end.

(** Euclidean norm: square root of the sum of squares, accumulated left to
    right.  [la.norm] hands the sum to BLAS, which fixes neither the order of
    the additions nor the scaling against overflow, so this instance may
    differ from numpy in the last bit and near the ends of the range.  The
    general theorems hold for every [norm]; this one only evaluates the
    concrete runs. *)
Definition float_norm (v : list float) : float :=
  PrimFloat.sqrt
    (fold_left (fun acc x => PrimFloat.add acc (PrimFloat.mul x x)) v PrimFloat.zero).

#[global] Instance binary64 : Float64Ops float := {
  fofZ := float_of_Z;
  fadd := PrimFloat.add;
  fsub := PrimFloat.sub;
  fmul := PrimFloat.mul;
  fdiv := PrimFloat.div;
  fpow := float_pow;
  fsqrt := PrimFloat.sqrt;
  fabs := PrimFloat.abs;
  flt := PrimFloat.ltb;
  feqb := PrimFloat.eqb;
  f_pi := 0x1.921fb54442d18p+1%float;
  f_1e_9 := 0x1.12e0be826d695p-30%float;
  f_1e_12 := 0x1.19799812dea11p-40%float;
  norm := float_norm
}.

(** ** Exceptions and results *)

Inductive exn : Type :=
  | IndexError
  | ValueError
  | ZeroDivisionError
  | UnboundLocalError (name : string)
  | ExternalError (what : string).

Inductive result (A : Type) : Type :=
  | Ok (a : A)
  | Raise (e : exn).
Arguments Ok {A} a.
Arguments Raise {A} e.

Definition result_bind {A B} (r : result A) (k : A -> result B) : result B :=
  match r with
  | Ok a => k a
  | Raise e => Raise e
  end.

(** [a[i]] on a one-dimensional array. *)
Definition getitem {A} (a : list A) (i : nat) : result A :=
  match a !! i with
  | Some x => Ok x
  | None => Raise IndexError
  end.

#[global] Instance result_ret : MRet result := @Ok.
#[global] Instance result_mbind : MBind result := fun A B k r => result_bind r k.

(** ** Keplerian elements ([polaris/Keplerian/_conicElements.py])

    These functions are compiled with [@jit(nopython=True)].  A scalar true
    division whose divisor is zero raises [ZeroDivisionError] there, whereas
    an array divided by a scalar follows numpy and yields inf or nan.  Array
    reads are not bounds-checked by the compiled code; the model reports an
    out-of-range read as [IndexError], so that a successful result always
    comes from a state with the six components the functions read. *)

Module Keplerian.
Section conicElements.
Context {F : Type} `{Float64Ops F}.

(** [x / y] on scalars. *)
Definition scalar_div (x y : F) : result F :=
  if feqb y (fofZ 0) then Raise ZeroDivisionError else Ok (fdiv x y).

(** [np.cross] on two three-dimensional vectors. *)
Definition cross (a b : list F) : result (list F) :=
  match a, b with
  | [a0; a1; a2], [b0; b1; b2] =>
      Ok [ fsub (fmul a1 b2) (fmul a2 b1);
           fsub (fmul a2 b0) (fmul a0 b2);
           fsub (fmul a0 b1) (fmul a1 b0) ]
  | _, _ => Raise ValueError
  end.

(** [np.array([state[i], state[j], state[k]])] *)
Definition array3 (state : list F) (i j k : nat) : result (list F) :=
  x ← getitem state i;
  y ← getitem state j;
  z ← getitem state k;
  Ok [x; y; z].

Definition get_eccentricity (state : list F) (mu : F) : result (list F) :=
  r ← array3 state 0 1 2;
  v ← array3 state 3 4 5;
  h ← cross r v;
  inv_mu ← scalar_div (fofZ 1) mu;
  vh ← cross v h;
  Ok (zip_with fsub (map (fmul inv_mu) vh) (map (fun x => fdiv x (norm r)) r)).

Definition get_semiMajorAxis (state : list F) (mu : F) : result F :=
  r ← array3 state 0 1 2;
  v ← array3 state 3 4 5;
  rv ← cross r v;
  let h := norm rv in
  ecc ← get_eccentricity state mu;
  let e := norm ecc in
  scalar_div (fpow h 2) (fmul mu (fsub (fofZ 1) (fpow e 2))).

Definition get_period (state : list F) (mu : F) : result F :=
  a ← get_semiMajorAxis state mu;
  if flt a (fofZ 0) then
    Ok (fofZ (-1))
  else
    q ← scalar_div (fpow a 3) mu;
    Ok (fmul (fmul (fofZ 2) f_pi) (fsqrt q)).

End conicElements.
End Keplerian.

(** ** Correction engine ([polaris/R3BP/_ssdc_periodic_xzplane.py]) *)

Module R3BP.

(** A reference to a numpy array object. *)
Definition loc := nat.

Section engine.
Context {F : Type} `{Float64Ops F}.

(** The dictionary returned by [propagate_cr3bp], restricted to the keys the
    engine reads.  [stms] is the two-dimensional history of the flattened
    state-transition matrix: one row per matrix entry, one column per time. *)
Record propout := Propout {
  statef : list F;
  stms : list (list F);
  dstatef : list F
}.

(** What the engine prints. *)
Inductive message_text :=
  | WarnNotOnPlane                          (* 'WARNING: initial state may not lie on xy-plane' *)
  | ClearedTolerance (iter : Z) (err : F)   (* 'Cleared tolerance at iter .. with error ..' *)
  | CurrentError (iter : Z) (err : F).      (* '*** Current error at iter ..: .. ***' *)

(** Observable effects of a run, in the order they happen: printed lines and
    calls of the two imported collaborators. *)
Inductive event :=
  | Printed (m : message_text)
  | CallPropagate (mu : F) (state : list F) (thalf : F)
  | CallSsdc (xi ferr : list F) (df : list (list F)).

Record world := World {
  heap : gmap loc (list F);
  trace : list event
}.

(** Computations read and write the world and may raise; what was written
    before an exception stays written. *)
Definition M (A : Type) : Type := world -> world * result A.

#[local] Instance M_ret : MRet M := fun A a w => (w, Ok a).
#[local] Instance M_bind : MBind M := fun A B k m w =>
  match m w with
  | (w', Ok a) => k a w'
  | (w', Raise e) => (w', Raise e)
  end.

Definition lift {A} (r : result A) : M A := fun w => (w, r).

Definition emit (e : event) : M unit :=
  fun w => (World (heap w) (trace w ++ [e]), Ok tt).

(** The array a reference points to. *)
Definition load (l : loc) : M (list F) := fun w =>
  match heap w !! l with
  | Some a => (w, Ok a)
  | None => (w, Raise (ExternalError "dangling reference"))
  end.

(** [a[i]] through a reference. *)
Definition getitem_ref (l : loc) (i : nat) : M F :=
  a ← load l;
  lift (getitem a i).

(** Replace the contents of the array a reference points to. *)
Definition store (l : loc) (a : list F) : M unit :=
  fun w => (World (<[l := a]> (heap w)) (trace w), Ok tt).

(** [a[i] = x] through a reference: the array object itself is updated. *)
Definition setitem_ref (l : loc) (i : nat) (x : F) : M unit :=
  a ← load l;
  if (i <? length a)%nat then store l (<[i := x]> a)
  else lift (Raise IndexError).

(** A local variable read before any assignment raises. *)
Definition local {A} (name : string) (v : option A) : M A :=
  match v with
  | Some x => mret x
  | None => lift (Raise (UnboundLocalError name))
  end.

(** [np.array([a[i], a[j], a[k]])] *)
Definition array3 (a : list F) (i j k : nat) : result (list F) :=
  x ← getitem a i;
  y ← getitem a j;
  z ← getitem a k;
  Ok [x; y; z].

(** [a[:, -1]]: the last entry of every row. *)
Fixpoint last_column (a : list (list F)) : result (list F) :=
  match a with
  | [] => Ok []
  | row :: rest =>
      match last row with
      | Some x => tl ← last_column rest; Ok (x :: tl)
      | None => Raise IndexError
      end
  end.

Fixpoint chunks (r c : nat) (v : list F) : list (list F) :=
  match r with
  | O => []
  | S r' => take c v :: chunks r' c (drop c v)
  end.

(** [np.reshape(v, (r, c))], row-major. *)
Definition reshape (v : list F) (r c : nat) : result (list (list F)) :=
  if (length v =? r * c)%nat then Ok (chunks r c v) else Raise ValueError.

(** [m[i, j]] *)
Definition getitem2 (m : list (list F)) (i j : nat) : result F :=
  row ← getitem m i;
  getitem row j.

(** [range(n)] *)
Definition range (n : Z) : list Z := map Z.of_nat (seq 0 (Z.to_nat n)).

(** The imported collaborators ([from .. Propagator import ...]).  The
    propagator takes the mass ratio, the state array, the duration and the
    keyword arguments [stm_option], [ivp_method], [ivp_rtol], [ivp_atol].
    Both are taken as functions of the contents of the arrays they receive:
    they may raise, but they do not write into the state array. *)
Variable propagate_cr3bp :
  F -> list F -> F -> bool -> string -> F -> F -> result propout.
Variable ssdc : list F -> list F -> list (list F) -> result (list F).

Definition call_propagate (mu : F) (state : loc) (thalf : F) : M propout :=
  a ← load state;
  emit (CallPropagate mu a thalf);;
  lift (propagate_cr3bp mu a thalf true "LSODA" f_1e_12 f_1e_12).

Definition call_ssdc (xi ferr : list F) (df : list (list F)) : M (list F) :=
  emit (CallSsdc xi ferr df);;
  lift (ssdc xi ferr df).

(** The local variables that live across iterations.  [xi] and [df] are
    unassigned until a branch of the mode test assigns them. *)
Record locals := Locals {
  v_thalf : F;
  v_xi : option (list F);
  v_df : option (list (list F));
  v_conv_flag : Z
}.

(** Lines 40-43: the free-variable vector. *)
Definition free_variables (fix_ : string) (state : loc) (lv : locals)
  : M (option (list F)) :=
  if String.eqb fix_ "z" then
    s0 ← getitem_ref state 0;
    s4 ← getitem_ref state 4;
    mret (Some [s0; s4; v_thalf lv])
  else if String.eqb fix_ "period" then
    s0 ← getitem_ref state 0;
    s2 ← getitem_ref state 2;
    s4 ← getitem_ref state 4;
    mret (Some [s0; s2; s4])
  else mret (v_xi lv).

(** Lines 49-56: the Jacobian. *)
Definition jacobian (fix_ : string) (stm : list (list F)) (po : propout)
    (lv : locals) : result (option (list (list F))) :=
  if String.eqb fix_ "z" then
    a00 ← getitem2 stm 1 0; a01 ← getitem2 stm 1 4; a02 ← getitem (dstatef po) 1;
    a10 ← getitem2 stm 3 0; a11 ← getitem2 stm 3 4; a12 ← getitem (dstatef po) 3;
    a20 ← getitem2 stm 5 0; a21 ← getitem2 stm 5 4; a22 ← getitem (dstatef po) 5;
    Ok (Some [ [a00; a01; a02]; [a10; a11; a12]; [a20; a21; a22] ])
  else if String.eqb fix_ "period" then
    a00 ← getitem2 stm 1 0; a01 ← getitem2 stm 1 2; a02 ← getitem2 stm 1 4;
    a10 ← getitem2 stm 3 0; a11 ← getitem2 stm 3 2; a12 ← getitem2 stm 3 4;
    a20 ← getitem2 stm 5 0; a21 ← getitem2 stm 5 2; a22 ← getitem2 stm 5 4;
    Ok (Some [ [a00; a01; a02]; [a10; a11; a12]; [a20; a21; a22] ])
  else Ok (v_df lv).

(** Lines 61-64: the tuple on the right is evaluated first, then the
    targets are assigned from left to right.  The result is the value of
    [thalf] afterwards. *)
Definition write_back (fix_ : string) (state : loc) (xii : list F) (lv : locals)
  : M F :=
  if String.eqb fix_ "z" then
    x0 ← lift (getitem xii 0);
    x1 ← lift (getitem xii 1);
    x2 ← lift (getitem xii 2);
    setitem_ref state 0 x0;;
    setitem_ref state 4 x1;;
    mret x2
  else if String.eqb fix_ "period" then
    x0 ← lift (getitem xii 0);
    x1 ← lift (getitem xii 1);
    x2 ← lift (getitem xii 2);
    setitem_ref state 0 x0;;
    setitem_ref state 2 x1;;
    setitem_ref state 4 x2;;
    mret (v_thalf lv)
  else mret (v_thalf lv).

(** Lines 39-76: one pass through the loop body.  The boolean tells
    whether the pass ended in [break]. *)
Definition iteration_body (mu : F) (state : loc) (fix_ : string) (tolDC : F)
    (message : bool) (iteration : Z) (lv : locals) : M (locals * bool) :=
  propout ← call_propagate mu state (v_thalf lv);
  xi ← free_variables fix_ state lv;
  ferr ← lift (array3 (statef propout) 1 3 5);
  stm ← lift (col ← last_column (stms propout); reshape col 6 6);
  df ← lift (jacobian fix_ stm propout lv);
  xi_v ← local "xi" xi;
  df_v ← local "df" df;
  xii ← call_ssdc xi_v ferr df_v;
  thalf ← write_back fix_ state xii lv;
  if flt (norm ferr) tolDC then
    (if message
     then emit (Printed (ClearedTolerance (iteration + 1) (norm ferr)))
     else mret tt);;
    mret (Locals thalf xi df 1, true)
  else
    (if message
     then emit (Printed (CurrentError (iteration + 1) (norm ferr)))
     else mret tt);;
    mret (Locals thalf (Some xii) df (v_conv_flag lv), false).

(** [for iteration in its: ...] with [break]. *)
Fixpoint for_loop (its : list Z) (body : Z -> locals -> M (locals * bool))
    (lv : locals) : M locals :=
  match its with
  | [] => mret lv
  | iteration :: rest =>
      '(lv', brk) ← body iteration lv;
      if (brk : bool) then mret lv' else for_loop rest body lv'
  end.

(** Lines 33-79: everything after the warning. *)
Definition correct (mu : F) (state0 : loc) (period0 : F) (fix_ : string)
    (tolDC : F) (iter_max : Z) (message : bool) : M (F * loc * Z) :=
  let state := state0 in
  let thalf := fdiv period0 (fofZ 2) in
  let conv_flag := 0 in
  lv ← for_loop (range iter_max)
         (iteration_body mu state fix_ tolDC message)
         (Locals thalf None None conv_flag);
  mret (fmul (v_thalf lv) (fofZ 2), state, v_conv_flag lv).

Definition ssdc_periodic_xzplane (mu : F) (state0 : loc) (period0 : F)
    (fix_ : string) (tolDC : F) (iter_max : Z) (message : bool)
  : M (F * loc * Z) :=
  y0 ← getitem_ref state0 1;
  (if fgt (fabs y0) f_1e_9 then emit (Printed WarnNotOnPlane) else mret tt);;
  correct mu state0 period0 fix_ tolDC iter_max message.

End engine.
End R3BP.

(** ** Stand-ins for the collaborators

    The propagator and the solver live in [polaris.Propagator]; the engine
    only imports them.  To run the engine on concrete inputs we plug in an
    affine flow (so that one Newton step lands on the solution) and a Newton
    solver for three equations in three unknowns by Cramer's rule.  Nothing
    general is proved from these two definitions: they only instantiate the
    general theorems and exhibit concrete runs. *)

Module Demo.
Import R3BP.
Local Open Scope float_scope.

Definition identity6 : list (list float) :=
  [ [1; 0; 0; 0; 0; 0]; [0; 1; 0; 0; 0; 0]; [0; 0; 1; 0; 0; 0];
    [0; 0; 0; 1; 0; 0]; [0; 0; 0; 0; 1; 0]; [0; 0; 0; 0; 0; 1] ].

(** Partial derivatives of [affine_flow] with respect to the initial state. *)
Definition phi : list (list float) :=
  [ [1; 0; 0; 0; 0; 0]; [1; 1; 0; 0; 0; 0]; [0; 0; 1; 0; 0; 0];
    [0; 0; 1; 1; 1; 0]; [0; 0; 0; 0; 1; 0]; [0; 0; 0; 0; 1; 1] ].

Definition affine_flow (mu : float) (state : list float) (thalf : float)
    (stm_option : bool) (ivp_method : string) (ivp_rtol ivp_atol : float)
  : result (@propout float) :=
  match state with
  | [x; y; z; vx; vy; vz] =>
      Ok (Propout
            [x; y + x - 1; z; vx + z + vy - 5; vy; vz + vy + thalf - 4]
            (zip_with (fun a b => [a; b]) (concat identity6) (concat phi))
            [0; 0; 0; 0; 0; 1])
  | _ => Raise (ExternalError "state must have six components")
  end.

Definition det3 (m : list (list float)) : float :=
  match m with
  | [ [a; b; c]; [d; e; f]; [g; h; i] ] =>
      a * (e * i - f * h) - b * (d * i - f * g) + c * (d * h - e * g)
  | _ => 0
  end.

Definition newton3 (xi ferr : list float) (df : list (list float))
  : result (list float) :=
  match xi, ferr, df with
  | [x0; x1; x2], [r0; r1; r2], [ [a; b; c]; [d; e; f]; [g; h; i] ] =>
      let dt := det3 df in
      if PrimFloat.eqb dt 0 then Raise (ExternalError "Singular matrix")
      else
        Ok [ x0 - det3 [ [r0; b; c]; [r1; e; f]; [r2; h; i] ] / dt;
             x1 - det3 [ [a; r0; c]; [d; r1; f]; [g; r2; i] ] / dt;
             x2 - det3 [ [a; b; r0]; [d; e; r1]; [g; h; r2] ] / dt ]
  | _, _, _ => Raise ValueError
  end.

Definition run (h : gmap loc (list float)) (state0 : loc) (period0 : float)
    (fix_ : string) (tolDC : float) (iter_max : Z) (message : bool) :=
  ssdc_periodic_xzplane affine_flow newton3 0x1p-6 state0 period0 fix_ tolDC
    iter_max message (World h []).

(** A heap with two arrays: the initial guess at reference 0 and an
    unrelated array at reference 1. *)
Definition heap0 : gmap loc (list float) :=
  <[0%nat := [3; 0; 7; 0; 2; 0]]> (<[1%nat := [9; 9]]> ∅).

Definition tol : float := 0x1.5fd7fe1796495p-37.   (* 1e-11 *)

End Demo.

(** * Facts *)

(** ** Results and array reads *)

Lemma result_bind_Ok {A B} (r : result A) (k : A -> result B) (b : B) :
  result_bind r k = Ok b <-> exists a, r = Ok a /\ k a = Ok b.
Proof.
  destruct r as [a|e]; simpl; split.
  - intros E. exists a. done.
  - intros (a' & E & Hk). by inversion E; subst.
  - discriminate.
  - intros (a' & E & _). discriminate.
Qed.

Lemma getitem_Ok {A} (a : list A) (i : nat) (x : A) :
  getitem a i = Ok x <-> a !! i = Some x.
Proof.
  unfold getitem. destruct (a !! i); split; intros E; inversion E; reflexivity.
Qed.

Lemma getitem_lt {A} (a : list A) (i : nat) :
  (i < length a)%nat -> exists x, getitem a i = Ok x /\ a !! i = Some x.
Proof.
  intros Hi. destruct (lookup_lt_is_Some_2 a i Hi) as [x Hx].
  exists x. split; [by apply getitem_Ok | done].
Qed.

(** ** Keplerian period *)

Section conicElements_facts.
Context {F : Type} `{Float64Ops F}.
Import Keplerian.

Lemma scalar_div_Ok (x y q : F) :
  scalar_div x y = Ok q <-> feqb y (fofZ 0) = false /\ q = fdiv x y.
Proof.
  unfold scalar_div. destruct (feqb y (fofZ 0)); split.
  - discriminate.
  - intros [? _]. discriminate.
  - intros E. by inversion E.
  - intros [_ ->]. done.
Qed.

(** The eccentricity vector is only obtained after [1/mu] went through. *)
Lemma get_eccentricity_Ok_mu (state : list F) (mu : F) (ecc : list F) :
  get_eccentricity state mu = Ok ecc -> feqb mu (fofZ 0) = false.
Proof.
  unfold get_eccentricity, mbind, result_mbind. intros E.
  apply result_bind_Ok in E as (r & _ & E).
  apply result_bind_Ok in E as (v & _ & E).
  apply result_bind_Ok in E as (h & _ & E).
  apply result_bind_Ok in E as (inv_mu & Hdiv & _).
  by apply scalar_div_Ok in Hdiv as [? _].
Qed.

Lemma get_semiMajorAxis_Ok_mu (state : list F) (mu : F) (a : F) :
  get_semiMajorAxis state mu = Ok a -> feqb mu (fofZ 0) = false.
Proof.
  unfold get_semiMajorAxis, mbind, result_mbind. intros E.
  apply result_bind_Ok in E as (r & _ & E).
  apply result_bind_Ok in E as (v & _ & E).
  apply result_bind_Ok in E as (rv & _ & E).
  apply result_bind_Ok in E as (ecc & Hecc & _).
  by apply get_eccentricity_Ok_mu in Hecc.
Qed.

(** C10. [get_period] returns the sentinel -1 whenever the semi-major axis
    computed by [get_semiMajorAxis] is negative and 2*pi*sqrt(a^3/mu)
    otherwise; it raises only when [get_semiMajorAxis] itself raises, hence
    never for a negative semi-major axis. *)
Theorem get_period_sentinel (state : list F) (mu : F) :
  get_period state mu =
    match get_semiMajorAxis state mu with
    | Ok a =>
        Ok (if flt a (fofZ 0) then fofZ (-1)
            else fmul (fmul (fofZ 2) f_pi) (fsqrt (fdiv (fpow a 3) mu)))
    | Raise e => Raise e
    end.
Proof.
  unfold get_period, mbind, result_mbind.
  destruct (get_semiMajorAxis state mu) as [a|e] eqn:Ha; simpl; [|done].
  destruct (flt a (fofZ 0)); [done|].
  apply get_semiMajorAxis_Ok_mu in Ha.
  unfold scalar_div. by rewrite Ha.
Qed.

End conicElements_facts.

(** Two concrete orbits around a unit mass: a circular one, whose period is
    2*pi, and a hyperbolic fly-by, whose semi-major axis is negative. *)
Example get_period_circular :
  Keplerian.get_semiMajorAxis [1; 0; 0; 0; 1; 0]%float 1%float = Ok 1%float /\
  Keplerian.get_period [1; 0; 0; 0; 1; 0]%float 1%float
    = Ok 0x1.921fb54442d18p+2%float.
Proof. split; vm_compute; reflexivity. Qed.

Example get_period_hyperbolic :
  Keplerian.get_semiMajorAxis [1; 0; 0; 0; 2; 0]%float 1%float = Ok (-0.5)%float /\
  Keplerian.get_period [1; 0; 0; 0; 2; 0]%float 1%float = Ok (-1)%float.
Proof. split; vm_compute; reflexivity. Qed.

Example get_period_zero_mu :
  Keplerian.get_period [1; 0; 0; 0; 1; 0]%float 0%float = Raise ZeroDivisionError.
Proof. vm_compute. reflexivity. Qed.

(** ** The correction engine *)

Section engine_facts.
Import R3BP.
Context {F : Type} `{Float64Ops F}.
Variable propagate_cr3bp :
  F -> list F -> F -> bool -> string -> F -> F -> result (@propout F).
Variable ssdc : list F -> list F -> list (list F) -> result (list F).

#[local] Existing Instance M_ret.
#[local] Existing Instance M_bind.

Abbreviation M := (@M F).
Abbreviation world := (@world F).
Abbreviation locals := (@locals F).
Abbreviation event := (@event F).

(** The call the engine makes, with its keyword arguments. *)
Definition propagate (mu : F) (st : list F) (thalf : F) : result propout :=
  propagate_cr3bp mu st thalf true "LSODA" f_1e_12 f_1e_12.

(** *** Stepping through a computation *)

Lemma bind_inv {A B} (m : M A) (k : A -> M B) (w w' : world) (r : result B) :
  (x ← m; k x) w = (w', r) ->
  (exists w1 a, m w = (w1, Ok a) /\ k a w1 = (w', r)) \/
  (exists e, m w = (w', Raise e) /\ r = Raise e).
Proof.
  unfold mbind, M_bind. destruct (m w) as [w1 [a|e]]; intros E.
  - left. by exists w1, a.
  - right. inversion E; subst. by exists e.
Qed.

Lemma lift_inv {A} (x : result A) (w w' : world) (r : result A) :
  lift x w = (w', r) -> w' = w /\ r = x.
Proof. unfold lift. intros E. by inversion E. Qed.

Lemma ret_inv {A} (x : A) (w w' : world) (r : result A) :
  (mret x : M A) w = (w', r) -> w' = w /\ r = Ok x.
Proof. unfold mret, M_ret. intros E. by inversion E. Qed.

Lemma load_inv (l : loc) (w w' : world) (r : result (list F)) :
  load l w = (w', r) ->
  w' = w /\
  ((exists a, heap w !! l = Some a /\ r = Ok a) \/
   (heap w !! l = None /\ exists e, r = Raise e)).
Proof.
  unfold load. destruct (heap w !! l) as [a|]; intros E; inversion E; subst;
    (split; [done|]); [left|right]; eauto.
Qed.

Lemma getitem_ref_inv (l : loc) (i : nat) (w w' : world) (r : result F) :
  getitem_ref l i w = (w', r) ->
  w' = w /\
  ((exists a x, heap w !! l = Some a /\ a !! i = Some x /\ r = Ok x) \/
   (exists e, r = Raise e)).
Proof.
  unfold getitem_ref. intros E.
  apply bind_inv in E as [(w1 & a & Hl & E)|(e & Hl & ->)].
  - apply load_inv in Hl as [-> [(a' & Ha & Ea)|(_ & e & Ee)]]; [|done].
    inversion Ea; subst a'. apply lift_inv in E as [-> ->].
    split; [done|]. destruct (getitem a i) as [x|e] eqn:Hx.
    + left. exists a, x. by apply getitem_Ok in Hx.
    + right. by exists e.
  - apply load_inv in Hl as [-> _]. split; [done|]. right. by exists e.
Qed.

Lemma setitem_ref_inv (l : loc) (i : nat) (x : F) (w w' : world) (r : result unit) :
  setitem_ref l i x w = (w', r) ->
  (exists a, heap w !! l = Some a /\ (i < length a)%nat /\ r = Ok tt /\
             w' = World (<[l := <[i := x]> a]> (heap w)) (trace w)) \/
  (w' = w /\ exists e, r = Raise e).
Proof.
  unfold setitem_ref. intros E.
  apply bind_inv in E as [(w1 & a & Hl & E)|(e & Hl & ->)].
  - apply load_inv in Hl as [-> [(a' & Ha & Ea)|(_ & e & Ee)]]; [|done].
    inversion Ea; subst a'.
    destruct (Nat.ltb_spec i (length a)) as [Hi|Hi].
    + left. exists a. unfold store in E. by inversion E.
    + right. apply lift_inv in E as [-> ->]. split; [done|]. by eexists.
  - right. apply load_inv in Hl as [-> _]. split; [done|]. by exists e.
Qed.

Lemma local_inv {A} (name : string) (v : option A) (w w' : world) (r : result A) :
  local name v w = (w', r) ->
  w' = w /\ r = match v with
                | Some x => Ok x
                | None => Raise (UnboundLocalError name)
                end.
Proof. unfold local. destruct v; intros E; by inversion E. Qed.

Lemma emit_inv (e : event) (w w' : world) (r : result unit) :
  emit e w = (w', r) -> w' = World (heap w) (trace w ++ [e]) /\ r = Ok tt.
Proof. unfold emit. intros E. by inversion E. Qed.

(** *** One pass through the loop body *)

Section iteration.
Variables (mu : F) (state : loc) (fix_ : string) (tolDC : F) (message : bool).

(** The free-variable vector read from the array [st] and [thalf]. *)
Definition free_variables_of (st : list F) (thalf : F) (xi : list F) : Prop :=
  (fix_ = "z" /\ exists s0 s4,
      st !! 0%nat = Some s0 /\ st !! 4%nat = Some s4 /\ xi = [s0; s4; thalf]) \/
  (fix_ = "period" /\ exists s0 s2 s4,
      st !! 0%nat = Some s0 /\ st !! 2%nat = Some s2 /\ st !! 4%nat = Some s4 /\
      xi = [s0; s2; s4]).

(** The array and half-period after the solver output [xii] was written. *)
Definition written_back (st : list F) (thalf : F) (xii : list F)
    (st' : list F) (thalf' : F) : Prop :=
  exists x0 x1 x2,
    xii !! 0%nat = Some x0 /\ xii !! 1%nat = Some x1 /\ xii !! 2%nat = Some x2 /\
    (5 <= length st)%nat /\
    ((fix_ = "z" /\
      st' = <[4%nat := x1]> (<[0%nat := x0]> st) /\ thalf' = x2) \/
     (fix_ = "period" /\
      st' = <[4%nat := x2]> (<[2%nat := x1]> (<[0%nat := x0]> st)) /\ thalf' = thalf)).

(** Entry (i, j) of the state-transition matrix at the final time: the
    last sample of row [6 i + j] of the flattened history. *)
Definition stm_entry (po : propout) (i j : nat) : option F :=
  row ← stms po !! (6 * i + j)%nat; last row.

(** The sensitivity matrix built from a propagation. *)
Definition sensitivity_of (po : propout) (df : list (list F)) : Prop :=
  (fix_ = "z" /\
   map (map Some) df =
     map (fun r => [stm_entry po r 0; stm_entry po r 4; dstatef po !! r])
         [1; 3; 5]%nat) \/
  (fix_ = "period" /\
   map (map Some) df =
     map (fun r => map (stm_entry po r) [0; 2; 4]%nat) [1; 3; 5]%nat).

(** Everything lines 39-56 compute from the array [st] and [thalf] before
    the solver is called. *)
Record prepared (st : list F) (thalf : F) (po : propout)
    (xi ferr : list F) (df : list (list F)) : Prop := {
  prep_propagate : propagate mu st thalf = Ok po;
  prep_xi : free_variables_of st thalf xi;
  prep_ferr : array3 (statef po) 1 3 5 = Ok ferr;
  prep_df : sensitivity_of po df
}.

(** The progress line, when [message] is set. *)
Definition report (iteration : Z) (ferr : list F) : list event :=
  if message then
    [Printed (if flt (norm ferr) tolDC
            then ClearedTolerance (iteration + 1) (norm ferr)
            else CurrentError (iteration + 1) (norm ferr))]
  else [].

(** The array slots a mode writes. *)
Definition slots : list nat :=
  if String.eqb fix_ "z" then [0; 4]%nat
  else if String.eqb fix_ "period" then [0; 2; 4]%nat
  else [].

(** From [w] to [w'] nothing changed in the heap except, possibly, the
    slots of the array at [state] that the mode writes. *)
Definition touches (w w' : world) : Prop :=
  (forall l, l <> state -> heap w' !! l = heap w !! l) /\
  (forall a, heap w !! state = Some a ->
     exists a', heap w' !! state = Some a' /\ length a' = length a /\
                forall i, i ∉ slots -> a' !! i = a !! i).

(** The four ways a pass can end. *)
Inductive iteration_outcome (iteration : Z) (lv : locals) (w : world)
  : world -> result (locals * bool) -> Prop :=
  | it_no_array e :
      heap w !! state = None ->
      iteration_outcome iteration lv w w (Raise e)
  | it_before_solver st e :
      heap w !! state = Some st ->
      iteration_outcome iteration lv w
        (World (heap w) (trace w ++ [CallPropagate mu st (v_thalf lv)]))
        (Raise e)
  | it_after_solver st po xi ferr df w' e :
      heap w !! state = Some st ->
      prepared st (v_thalf lv) po xi ferr df ->
      trace w' = trace w ++
        [CallPropagate mu st (v_thalf lv); CallSsdc xi ferr df] ->
      touches w w' ->
      iteration_outcome iteration lv w w' (Raise e)
  | it_completed st po xi ferr df xii st' thalf' :
      heap w !! state = Some st ->
      prepared st (v_thalf lv) po xi ferr df ->
      ssdc xi ferr df = Ok xii ->
      written_back st (v_thalf lv) xii st' thalf' ->
      iteration_outcome iteration lv w
        (World (<[state := st']> (heap w))
           (trace w ++
              [CallPropagate mu st (v_thalf lv); CallSsdc xi ferr df] ++
              report iteration ferr))
        (Ok (if flt (norm ferr) tolDC
             then (Locals thalf' (Some xi) (Some df) 1, true)
             else (Locals thalf' (Some xii) (Some df) (v_conv_flag lv), false))).

Lemma call_propagate_inv (thalf : F) (w w' : world) (r : result propout) :
  call_propagate propagate_cr3bp mu state thalf w = (w', r) ->
  (heap w !! state = None /\ w' = w /\ exists e, r = Raise e) \/
  (exists st, heap w !! state = Some st /\
     w' = World (heap w) (trace w ++ [CallPropagate mu st thalf]) /\
     r = propagate mu st thalf).
Proof.
  unfold call_propagate. intros E.
  apply bind_inv in E as [(w1 & a & Hl & E)|(e & Hl & ->)].
  - apply load_inv in Hl as [-> [(a' & Ha & Ea)|(_ & e & Ee)]]; [|done].
    inversion Ea; subst a'. right. exists a. split; [done|].
    apply bind_inv in E as [(w2 & [] & He & E)|(e & He & ->)].
    + apply emit_inv in He as [-> _]. by apply lift_inv in E as [-> ->].
    + by apply emit_inv in He as [_ ?].
  - apply load_inv in Hl as [-> [(a' & Ha & Ea)|(Hn & _)]]; [done|].
    left. repeat split; [done|by exists e].
Qed.

Lemma call_ssdc_inv (xi ferr : list F) (df : list (list F)) (w w' : world)
    (r : result (list F)) :
  call_ssdc ssdc xi ferr df w = (w', r) ->
  w' = World (heap w) (trace w ++ [CallSsdc xi ferr df]) /\ r = ssdc xi ferr df.
Proof.
  unfold call_ssdc. intros E.
  apply bind_inv in E as [(w2 & [] & He & E)|(e & He & ->)].
  - apply emit_inv in He as [-> _]. by apply lift_inv in E as [-> ->].
  - by apply emit_inv in He as [_ ?].
Qed.

Definition valid_mode : Prop := fix_ = "z" \/ fix_ = "period".

Lemma free_variables_inv (lv : locals) (w w' : world)
    (r : result (option (list F))) :
  free_variables fix_ state lv w = (w', r) ->
  w' = w /\
  ((exists e, r = Raise e) \/
   (exists st xi, heap w !! state = Some st /\
      free_variables_of st (v_thalf lv) xi /\ r = Ok (Some xi)) \/
   (~ valid_mode /\ r = Ok (v_xi lv))).
Proof.
  unfold free_variables, valid_mode, free_variables_of.
  destruct (String.eqb_spec fix_ "z") as [Hz|Hz];
    [|destruct (String.eqb_spec fix_ "period") as [Hp|Hp]]; intros E.
  - apply bind_inv in E as [(w1 & s0 & H0 & E)|(e & H0 & ->)];
      apply getitem_ref_inv in H0 as [-> H0]; [|split; eauto].
    destruct H0 as [(a & x & Ha & Hx & Ex)|(e & Ee)]; [|done].
    inversion Ex; subst x.
    apply bind_inv in E as [(w1 & s4 & H4 & E)|(e & H4 & ->)];
      apply getitem_ref_inv in H4 as [-> H4]; [|split; eauto].
    destruct H4 as [(a' & x & Ha' & Hx' & Ex')|(e & Ee)]; [|done].
    inversion Ex'; subst x. rewrite Ha in Ha'. inversion Ha'; subst a'.
    apply ret_inv in E as [-> ->]. split; [done|]. right; left.
    exists a, [s0; s4; v_thalf lv]. split; [done|]. split; [|done].
    left. split; [done|]. by exists s0, s4.
  - apply bind_inv in E as [(w1 & s0 & H0 & E)|(e & H0 & ->)];
      apply getitem_ref_inv in H0 as [-> H0]; [|split; eauto].
    destruct H0 as [(a & x & Ha & Hx & Ex)|(e & Ee)]; [|done].
    inversion Ex; subst x.
    apply bind_inv in E as [(w1 & s2 & H2 & E)|(e & H2 & ->)];
      apply getitem_ref_inv in H2 as [-> H2]; [|split; eauto].
    destruct H2 as [(a2 & x & Ha2 & Hx2 & Ex2)|(e & Ee)]; [|done].
    inversion Ex2; subst x. rewrite Ha in Ha2. inversion Ha2; subst a2.
    apply bind_inv in E as [(w1 & s4 & H4 & E)|(e & H4 & ->)];
      apply getitem_ref_inv in H4 as [-> H4]; [|split; eauto].
    destruct H4 as [(a' & x & Ha' & Hx' & Ex')|(e & Ee)]; [|done].
    inversion Ex'; subst x. rewrite Ha in Ha'. inversion Ha'; subst a'.
    apply ret_inv in E as [-> ->]. split; [done|]. right; left.
    exists a, [s0; s2; s4]. split; [done|]. split; [|done].
    right. split; [done|]. by exists s0, s2, s4.
  - apply ret_inv in E as [-> ->]. split; [done|]. right; right.
    split; [|done]. intros [?|?]; done.
Qed.

Lemma setitem_ref_run (l : loc) (i : nat) (x : F) (w : world) (a : list F) :
  heap w !! l = Some a ->
  setitem_ref l i x w =
    if (i <? length a)%nat
    then (World (<[l := <[i := x]> a]> (heap w)) (trace w), Ok tt)
    else (w, Raise IndexError).
Proof.
  intros Ha. unfold setitem_ref, mbind, M_bind, load. rewrite Ha.
  by destruct (i <? length a)%nat.
Qed.

Lemma touches_refl (w : world) : touches w w.
Proof. split; [done|]. intros a Ha. by exists a. Qed.

Lemma touches_trans (w1 w2 w3 : world) :
  touches w1 w2 -> touches w2 w3 -> touches w1 w3.
Proof.
  intros [Ho1 Hs1] [Ho2 Hs2]. split.
  - intros l Hl. by rewrite Ho2, Ho1.
  - intros a Ha. destruct (Hs1 a Ha) as (a' & Ha' & Hlen' & Hsame').
    destruct (Hs2 a' Ha') as (a'' & Ha'' & Hlen'' & Hsame'').
    exists a''. split; [done|]. split; [congruence|].
    intros i Hi. by rewrite Hsame'', Hsame'.
Qed.

Lemma touches_heap (w w' : world) : heap w' = heap w -> touches w w'.
Proof. intros E. unfold touches. rewrite E. apply (touches_refl w). Qed.

Lemma touches_setitem (i : nat) (x : F) (w w' : world) (r : result unit) :
  i ∈ slots -> setitem_ref state i x w = (w', r) -> touches w w'.
Proof.
  intros Hi E.
  apply setitem_ref_inv in E as [(a & Ha & Hlt & _ & ->)|[-> _]];
    [|apply touches_refl].
  split; simpl.
  - intros l Hl. by rewrite lookup_insert_ne.
  - intros a' Ha'. rewrite Ha in Ha'. inversion Ha'; subst a'.
    exists (<[i := x]> a). rewrite lookup_insert_eq, length_insert.
    repeat split. intros j Hj. apply list_lookup_insert_ne.
    intros ->. done.
Qed.

Lemma touches_insert (w : world) (st st' : list F) (t : list event) :
  heap w !! state = Some st ->
  length st' = length st ->
  (forall i, i ∉ slots -> st' !! i = st !! i) ->
  touches w (World (<[state := st']> (heap w)) t).
Proof.
  intros Hst Hlen Hsame. split; simpl.
  - intros l Hl. by rewrite lookup_insert_ne.
  - intros a Ha. rewrite Hst in Ha. inversion Ha; subst a.
    exists st'. by rewrite lookup_insert_eq.
Qed.

Lemma written_back_frame (st : list F) (thalf : F) (xii st' : list F) (thalf' : F) :
  written_back st thalf xii st' thalf' ->
  length st' = length st /\ forall i, i ∉ slots -> st' !! i = st !! i.
Proof.
  intros (x0 & x1 & x2 & _ & _ & _ & _ & [(Hz & -> & _)|(Hp & -> & _)]);
    unfold slots; rewrite ?Hz, ?Hp; simpl; rewrite !length_insert;
    (split; [done|]); intros i Hi;
    rewrite !list_lookup_insert_ne; try done;
    intros <-; apply Hi; set_solver.
Qed.

Lemma slots_z : fix_ = "z" -> slots = [0; 4]%nat.
Proof. unfold slots. by intros ->. Qed.

Lemma slots_period : fix_ = "period" -> slots = [0; 2; 4]%nat.
Proof. unfold slots. by intros ->. Qed.

(** Writing slots of the mode, one after the other. *)
Lemma touches_writes (w : world) (st st' : list F) (h' : gmap loc (list F))
    (t : list event) :
  heap w !! state = Some st ->
  h' = <[state := st']> (heap w) ->
  length st' = length st ->
  (forall i, i ∉ slots -> st' !! i = st !! i) ->
  touches w (World h' t).
Proof. intros Hst -> Hlen Hsame. by apply touches_insert with st. Qed.

Ltac frame_of Hmode :=
  first
    [ apply touches_refl
    | eapply touches_writes;
      [ eassumption
      | rewrite ?insert_insert_eq; reflexivity
      | by rewrite ?length_insert
      | let i := fresh "i" in
        let Hi := fresh "Hi" in
        intros i Hi; rewrite Hmode in Hi;
        rewrite ?list_lookup_insert_ne; try done;
        intros <-; apply Hi; set_solver ] ].

Lemma write_back_inv (xii : list F) (lv : locals) (w w' : world)
    (r : result F) (st : list F) :
  write_back fix_ state xii lv w = (w', r) ->
  heap w !! state = Some st ->
  valid_mode ->
  (exists st' thalf',
      written_back st (v_thalf lv) xii st' thalf' /\
      w' = World (<[state := st']> (heap w)) (trace w) /\ r = Ok thalf') \/
  (trace w' = trace w /\ touches w w' /\ exists e, r = Raise e).
Proof.
  intros E Hst Hvalid. unfold write_back in E.
  unfold mbind, M_bind, lift in E.
  destruct (getitem xii 0) as [x0|e0] eqn:H0;
    [|destruct Hvalid as [Hv|Hv]; rewrite Hv in E; simpl in E; inversion E;
      (right; split; [done|split; [apply touches_refl|eauto] ]) ].
  destruct (getitem xii 1) as [x1|e1] eqn:H1;
    [|destruct Hvalid as [Hv|Hv]; rewrite Hv in E; simpl in E; inversion E;
      (right; split; [done|split; [apply touches_refl|eauto] ]) ].
  destruct (getitem xii 2) as [x2|e2] eqn:H2;
    [|destruct Hvalid as [Hv|Hv]; rewrite Hv in E; simpl in E; inversion E;
      (right; split; [done|split; [apply touches_refl|eauto] ]) ].
  apply getitem_Ok in H0, H1, H2.
  destruct Hvalid as [Hz|Hp].
  - pose proof (slots_z Hz) as Hslots.
    rewrite Hz in E. simpl in E.
    rewrite (setitem_ref_run _ _ _ _ st Hst) in E.
    destruct (Nat.ltb_spec 0 (length st)) as [L0|L0];
      [|inversion E; right; split; [done|split; [frame_of Hslots|eauto] ] ].
    rewrite (setitem_ref_run _ _ _ _ (<[0%nat := x0]> st)) in E
      by (simpl; apply lookup_insert_eq).
    rewrite length_insert in E. simpl in E.
    destruct (Nat.ltb_spec 4 (length st)) as [L4|L4];
      [|inversion E; right; split; [done|split; [frame_of Hslots|eauto] ] ].
    unfold mret, M_ret in E. inversion E; subst. left.
    exists (<[4%nat := x1]> (<[0%nat := x0]> st)), x2.
    split; [|by rewrite insert_insert_eq].
    exists x0, x1, x2. repeat split; try done. left. done.
  - pose proof (slots_period Hp) as Hslots.
    rewrite Hp in E. simpl in E.
    rewrite (setitem_ref_run _ _ _ _ st Hst) in E.
    destruct (Nat.ltb_spec 0 (length st)) as [L0|L0];
      [|inversion E; right; split; [done|split; [frame_of Hslots|eauto] ] ].
    rewrite (setitem_ref_run _ _ _ _ (<[0%nat := x0]> st)) in E
      by (simpl; apply lookup_insert_eq).
    rewrite length_insert in E. simpl in E.
    destruct (Nat.ltb_spec 2 (length st)) as [L2|L2];
      [|inversion E; right; split; [done|split; [frame_of Hslots|eauto] ] ].
    rewrite (setitem_ref_run _ _ _ _ (<[2%nat := x1]> (<[0%nat := x0]> st))) in E
      by (simpl; apply lookup_insert_eq).
    rewrite !length_insert in E. simpl in E.
    destruct (Nat.ltb_spec 4 (length st)) as [L4|L4];
      [|inversion E; right; split; [done|split; [frame_of Hslots|eauto] ] ].
    unfold mret, M_ret in E. inversion E; subst. left.
    exists (<[4%nat := x2]> (<[2%nat := x1]> (<[0%nat := x0]> st))), (v_thalf lv).
    split; [|by rewrite !insert_insert_eq].
    exists x0, x1, x2. repeat split; try done. right. done.
Qed.

(** *** Reshaping and the sensitivity matrix *)

Lemma chunks_lookup (r c : nat) (v row : list F) (i : nat) :
  chunks r c v !! i = Some row -> row = take c (drop (i * c) v).
Proof.
  revert v i. induction r as [|r IH]; intros v i; simpl; [done|].
  destruct i as [|i]; simpl.
  - intros E. by inversion E.
  - intros E. apply IH in E. by rewrite E, drop_drop, Nat.add_comm.
Qed.

Lemma reshape_Ok (v : list F) (r c : nat) (m : list (list F)) :
  reshape v r c = Ok m -> length v = (r * c)%nat /\ m = chunks r c v.
Proof.
  unfold reshape. destruct (Nat.eqb_spec (length v) (r * c)); [|done].
  intros E. by inversion E.
Qed.

Lemma getitem2_reshape (col : list F) (stm : list (list F)) (i j : nat) (x : F) :
  reshape col 6 6 = Ok stm ->
  getitem2 stm i j = Ok x ->
  col !! (6 * i + j)%nat = Some x.
Proof.
  intros E. apply reshape_Ok in E as [_ ->].
  unfold getitem2, mbind, result_mbind. intros E.
  apply result_bind_Ok in E as (row & Hrow & Hx).
  apply getitem_Ok in Hrow, Hx.
  apply chunks_lookup in Hrow. subst row.
  apply lookup_take_Some in Hx as [Hx Hj].
  rewrite lookup_drop in Hx. by rewrite (Nat.mul_comm 6 i).
Qed.

Lemma last_column_lookup (a : list (list F)) (col : list F) (k : nat) (x : F) :
  last_column a = Ok col ->
  col !! k = Some x ->
  exists row, a !! k = Some row /\ last row = Some x.
Proof.
  revert col k. induction a as [|row a IH]; intros col k; simpl.
  - intros E. inversion E. done.
  - destruct (last row) as [y|] eqn:Hy; [|done].
    unfold mbind, result_mbind. intros E.
    apply result_bind_Ok in E as (tl & Htl & E). inversion E; subst col.
    destruct k as [|k]; simpl.
    + intros Ex. inversion Ex; subst. by exists row.
    + intros Ex. by apply (IH tl k).
Qed.

Lemma stm_entry_of (po : propout) (col : list F) (stm : list (list F))
    (i j : nat) (x : F) :
  last_column (stms po) = Ok col ->
  reshape col 6 6 = Ok stm ->
  getitem2 stm i j = Ok x ->
  stm_entry po i j = Some x.
Proof.
  intros Hcol Hstm Hx.
  pose proof (getitem2_reshape col stm i j x Hstm Hx) as Hc.
  destruct (last_column_lookup _ _ _ _ Hcol Hc) as (row & Hrow & Hlast).
  unfold stm_entry. rewrite Hrow. done.
Qed.

Lemma jacobian_sensitivity (po : propout) (col : list F) (stm : list (list F))
    (lv : locals) (df : list (list F)) :
  last_column (stms po) = Ok col ->
  reshape col 6 6 = Ok stm ->
  valid_mode ->
  jacobian fix_ stm po lv = Ok (Some df) ->
  sensitivity_of po df.
Proof.
  intros Hcol Hstm Hvalid E. unfold jacobian in E.
  unfold mbind, result_mbind in E.
  destruct Hvalid as [Hz|Hp]; [left|right]; (split; [done|]).
  - rewrite Hz in E. simpl in E.
    repeat (apply result_bind_Ok in E as (? & ? & E)).
    inversion E; subst df. simpl.
    repeat match goal with
           | Hx : getitem2 stm _ _ = Ok _ |- _ =>
               apply (stm_entry_of po col stm _ _ _ Hcol Hstm) in Hx
           | Hx : getitem _ _ = Ok _ |- _ => apply getitem_Ok in Hx
           end.
    by repeat match goal with Hx : _ = Some _ |- _ => rewrite Hx; clear Hx end.
  - rewrite Hp in E. simpl in E.
    repeat (apply result_bind_Ok in E as (? & ? & E)).
    inversion E; subst df. simpl.
    repeat match goal with
           | Hx : getitem2 stm _ _ = Ok _ |- _ =>
               apply (stm_entry_of po col stm _ _ _ Hcol Hstm) in Hx
           end.
    by repeat match goal with Hx : _ = Some _ |- _ => rewrite Hx; clear Hx end.
Qed.

(** Every pass through the body ends in one of the four ways. *)
Lemma iteration_body_outcome (iteration : Z) (lv : locals) (w w' : world)
    (r : result (locals * bool)) :
  valid_mode \/ v_xi lv = None ->
  iteration_body propagate_cr3bp ssdc mu state fix_ tolDC message iteration lv w
    = (w', r) ->
  iteration_outcome iteration lv w w' r.
Proof.
  intros Hmode E. unfold iteration_body in E.
  (* line 39 *)
  apply bind_inv in E as [(w1 & po & Hpo & E)|(e & Hpo & ->)];
    apply call_propagate_inv in Hpo
      as [(Hnone & -> & e' & Ee)|(st & Hst & -> & Epo)];
    try discriminate; try (by apply it_no_array);
    try (by apply it_before_solver).
  symmetry in Epo.
  (* lines 40-43 *)
  apply bind_inv in E as [(w1 & xi_o & Hxi & E)|(e & Hxi & ->)];
    apply free_variables_inv in Hxi as [-> Hxi];
    [|by apply it_before_solver].
  (* line 45 *)
  apply bind_inv in E as [(w1 & ferr & Hferr & E)|(e & Hferr & ->)];
    apply lift_inv in Hferr as [-> Hferr];
    [|by apply it_before_solver].
  (* line 47 *)
  apply bind_inv in E as [(w1 & stm & Hstm & E)|(e & Hstm & ->)];
    apply lift_inv in Hstm as [-> Hstm];
    [|by apply it_before_solver].
  symmetry in Hstm. apply result_bind_Ok in Hstm as (col & Hcol & Hstm).
  (* lines 49-56 *)
  apply bind_inv in E as [(w1 & df_o & Hdf & E)|(e & Hdf & ->)];
    apply lift_inv in Hdf as [-> Hdf];
    [|by apply it_before_solver].
  (* line 58 *)
  apply bind_inv in E as [(w1 & xi & Hl & E)|(e & Hl & ->)];
    apply local_inv in Hl as [-> Hl];
    [|by apply it_before_solver].
  apply bind_inv in E as [(w1 & df & Hl' & E)|(e & Hl' & ->)];
    apply local_inv in Hl' as [-> Hl'];
    [|by apply it_before_solver].
  destruct xi_o as [xi'|]; [|discriminate]. inversion Hl; subst xi'.
  destruct df_o as [df'|]; [|discriminate]. inversion Hl'; subst df'.
  assert (Hfree : free_variables_of st (v_thalf lv) xi /\ valid_mode).
  { destruct Hxi as [(e & Ee)|[(st' & xi' & Hst' & Hfree & Exi)|(Hinv & Exi)]].
    - discriminate.
    - simpl in Hst'. rewrite Hst in Hst'. inversion Hst'; subst st'.
      inversion Exi; subst xi'. split; [done|].
      destruct Hfree as [[? _]|[? _]]; [by left|by right].
    - destruct Hmode as [?|Hnone]; [done|].
      inversion Exi as [Exi']. rewrite Hnone in Exi'. discriminate. }
  destruct Hfree as [Hfree Hvalid].
  assert (Hprep : prepared st (v_thalf lv) po xi ferr df).
  { split; try done. by apply (jacobian_sensitivity po col stm lv). }
  apply bind_inv in E as [(w1 & xii & Hs & E)|(e & Hs & ->)];
    apply call_ssdc_inv in Hs as [-> Hs]; simpl in *;
    [|eapply it_after_solver;
      [done|done|simpl; by rewrite <- app_assoc|by apply touches_heap] ].
  (* lines 61-64 *)
  apply bind_inv in E as [(w1 & thalf' & Hwb & E)|(e & Hwb & ->)];
    eapply write_back_inv in Hwb; eauto;
    destruct Hwb as [(st' & th' & Hwr & Ew & Er)|(Htr & Hto & e' & Er)];
    try discriminate;
    try (eapply it_after_solver;
         [done|done|rewrite Htr; simpl; by rewrite <- app_assoc|exact Hto]).
  inversion Er; subst th'. subst w1. simpl in E.
  (* lines 66-76 *)
  pose proof (it_completed iteration lv w st po xi ferr df xii st' thalf'
                Hst Hprep (eq_sym Hs) Hwr) as Hdone.
  unfold report in Hdone.
  destruct (flt (norm ferr) tolDC); destruct message;
    unfold mbind, M_bind, emit, mret, M_ret in E; simpl in E;
    inversion E; subst; clear E;
    rewrite <- ?app_assoc; simpl; rewrite ?app_nil_r in Hdone;
    simpl in Hdone; rewrite <- ?app_assoc in Hdone; exact Hdone.
Qed.

Lemma iteration_outcome_Ok (iteration : Z) (lv : locals) (w w' : world)
    (lv' : locals) (brk : bool) :
  iteration_outcome iteration lv w w' (Ok (lv', brk)) ->
  exists st po xi ferr df xii st' thalf',
    heap w !! state = Some st /\
    prepared st (v_thalf lv) po xi ferr df /\
    ssdc xi ferr df = Ok xii /\
    written_back st (v_thalf lv) xii st' thalf' /\
    brk = flt (norm ferr) tolDC /\
    w' = World (<[state := st']> (heap w))
           (trace w ++
              [CallPropagate mu st (v_thalf lv); CallSsdc xi ferr df] ++
              report iteration ferr) /\
    lv' = if brk then Locals thalf' (Some xi) (Some df) 1
          else Locals thalf' (Some xii) (Some df) (v_conv_flag lv).
Proof.
  intros Ho. inversion Ho as [| | |st po xi ferr df xii st' thalf' Hst Hprep Hs Hwr Ew Er].
  exists st, po, xi, ferr, df, xii, st', thalf'.
  destruct (flt (norm ferr) tolDC); inversion Er; subst; done.
Qed.

Lemma prepared_valid (st : list F) (thalf : F) (po : propout) (xi ferr : list F)
    (df : list (list F)) :
  prepared st thalf po xi ferr df -> valid_mode.
Proof. intros [_ [[? _]|[? _]] _ _]; [by left|by right]. Qed.

(** *** The loop *)

Abbreviation body := (iteration_body propagate_cr3bp ssdc mu state fix_ tolDC message).

Inductive loop_outcome
  : list Z -> locals -> world -> world -> result locals -> Prop :=
  | lo_exhausted lv w :
      loop_outcome [] lv w w (Ok lv)
  | lo_raise iteration its lv w w' e :
      iteration_outcome iteration lv w w' (Raise e) ->
      loop_outcome (iteration :: its) lv w w' (Raise e)
  | lo_break iteration its lv w w' lv' :
      iteration_outcome iteration lv w w' (Ok (lv', true)) ->
      loop_outcome (iteration :: its) lv w w' (Ok lv')
  | lo_continue iteration its lv w w1 lv1 w' r :
      iteration_outcome iteration lv w w1 (Ok (lv1, false)) ->
      loop_outcome its lv1 w1 w' r ->
      loop_outcome (iteration :: its) lv w w' r.

Lemma for_loop_outcome (its : list Z) (lv : locals) (w w' : world)
    (r : result locals) :
  valid_mode \/ v_xi lv = None ->
  for_loop its body lv w = (w', r) ->
  loop_outcome its lv w w' r.
Proof.
  revert lv w. induction its as [|iteration its IH]; intros lv w Hmode E.
  - apply ret_inv in E as [-> ->]. constructor.
  - simpl in E.
    apply bind_inv in E as [(w1 & [lv1 brk] & Hb & E)|(e & Hb & ->)];
      apply (iteration_body_outcome _ _ _ _ _ Hmode) in Hb.
    + destruct brk.
      * apply ret_inv in E as [-> ->]. by apply lo_break.
      * eapply lo_continue; [exact Hb|]. apply IH; [|done]. left.
        apply iteration_outcome_Ok in Hb
          as (? & ? & ? & ? & ? & ? & ? & ? & _ & Hprep & _).
        by eapply prepared_valid.
    + by apply lo_raise.
Qed.

(** A run that returns, seen as a chain of Newton steps: the array and
    half-period before, the events, the array and half-period after, and
    whether the chain ended on a residual below the tolerance. *)
Inductive newton_chain
  : list Z -> list F -> F -> list event -> list F -> F -> bool -> Prop :=
  | nc_exhausted st thalf :
      newton_chain [] st thalf [] st thalf false
  | nc_converged iteration its st thalf po xi ferr df xii st' thalf' :
      prepared st thalf po xi ferr df ->
      ssdc xi ferr df = Ok xii ->
      written_back st thalf xii st' thalf' ->
      flt (norm ferr) tolDC = true ->
      newton_chain (iteration :: its) st thalf
        ([CallPropagate mu st thalf; CallSsdc xi ferr df] ++
           report iteration ferr)
        st' thalf' true
  | nc_continue iteration its st thalf po xi ferr df xii st' thalf'
      evs st_end thalf_end c :
      prepared st thalf po xi ferr df ->
      ssdc xi ferr df = Ok xii ->
      written_back st thalf xii st' thalf' ->
      flt (norm ferr) tolDC = false ->
      newton_chain its st' thalf' evs st_end thalf_end c ->
      newton_chain (iteration :: its) st thalf
        ([CallPropagate mu st thalf; CallSsdc xi ferr df] ++
           report iteration ferr ++ evs)
        st_end thalf_end c.

Lemma loop_chain (its : list Z) (lv : locals) (w w' : world) (lv' : locals)
    (st : list F) :
  loop_outcome its lv w w' (Ok lv') ->
  heap w !! state = Some st ->
  exists evs st_end c,
    newton_chain its st (v_thalf lv) evs st_end (v_thalf lv') c /\
    trace w' = trace w ++ evs /\
    heap w' = <[state := st_end]> (heap w) /\
    v_conv_flag lv' = if c then 1 else v_conv_flag lv.
Proof.
  intros Ho. remember (Ok lv') as r eqn:Er. revert st lv' Er.
  induction Ho as [lv w|iteration its lv w w' e Hit
                  |iteration its lv w w' lv1 Hit
                  |iteration its lv w w1 lv1 w' r Hit Ho IH];
    intros st lv' Er Hst.
  - inversion Er; subst lv'. exists [], st, false.
    split; [constructor|]. rewrite app_nil_r.
    split; [done|]. split; [|done]. by rewrite insert_id.
  - discriminate.
  - inversion Er; subst lv1.
    apply iteration_outcome_Ok in Hit
      as (st0 & po & xi & ferr & df & xii & st' & th' & Hst0 & Hprep & Hs &
          Hwr & Hbrk & -> & ->).
    rewrite Hst in Hst0. inversion Hst0; subst st0.
    eexists _, st', true. split; [by eapply nc_converged|]. done.
  - subst r.
    apply iteration_outcome_Ok in Hit
      as (st0 & po & xi & ferr & df & xii & st' & th' & Hst0 & Hprep & Hs &
          Hwr & Hbrk & -> & ->).
    rewrite Hst in Hst0. inversion Hst0; subst st0.
    destruct (IH st' lv' eq_refl) as (evs & st_end & c & Hch & Htr & Hh & Hc).
    { simpl. apply lookup_insert_eq. }
    simpl in *. eexists _, st_end, c.
    split; [by eapply nc_continue|].
    split; [by rewrite Htr, <- !app_assoc|].
    split; [by rewrite Hh, insert_insert_eq|done].
Qed.

Lemma iteration_touches (iteration : Z) (lv : locals) (w w' : world)
    (r : result (locals * bool)) :
  iteration_outcome iteration lv w w' r -> touches w w'.
Proof.
  intros [e Hn|st e Hst|st po xi ferr df w1 e Hst Hprep Htr Hto
         |st po xi ferr df xii st' th' Hst Hprep Hs Hwr].
  - apply touches_refl.
  - by apply touches_heap.
  - done.
  - destruct (written_back_frame _ _ _ _ _ Hwr) as [Hlen Hsame].
    by apply touches_insert with st.
Qed.

Lemma loop_touches (its : list Z) (lv : locals) (w w' : world)
    (r : result locals) :
  loop_outcome its lv w w' r -> touches w w'.
Proof.
  induction 1 as [lv w|iteration its lv w w' e Hit
                 |iteration its lv w w' lv1 Hit
                 |iteration its lv w w1 lv1 w' r Hit Ho IH].
  - apply touches_refl.
  - by eapply iteration_touches.
  - by eapply iteration_touches.
  - eapply touches_trans; [by eapply iteration_touches|done].
Qed.

(** *** Solver calls and the propagation before them *)

(** In a sequence of events, every solver call comes right after a
    propagator call, and its arguments were prepared from the array and
    half-period handed to that propagation. *)
Definition paired (evs : list event) : Prop :=
  forall pre xi ferr df post,
    evs = pre ++ CallSsdc xi ferr df :: post ->
    exists pre' st thalf po,
      pre = pre' ++ [CallPropagate mu st thalf] /\
      prepared st thalf po xi ferr df.

Definition is_print (e : event) : Prop :=
  match e with Printed _ => True | _ => False end.

Lemma paired_prints (evs : list event) : Forall is_print evs -> paired evs.
Proof.
  intros Hall pre xi ferr df post ->.
  apply Forall_app in Hall as [_ Hall]. by inversion Hall.
Qed.

Lemma paired_app (a b : list event) : paired a -> paired b -> paired (a ++ b).
Proof.
  intros Ha Hb pre xi ferr df post E.
  apply app_eq_inv in E as [(k & Ea & Eb)|(k & Ea & Eb)].
  - destruct k as [|e k]; simpl in Eb.
    + destruct (Hb [] xi ferr df post) as (pre' & ? & ? & ? & Hnil & _);
        [done|]. by destruct pre'.
    + inversion Eb; subst. by apply (Ha pre xi ferr df k).
  - destruct (Hb k xi ferr df post Eb) as (pre' & st & th & po & -> & Hprep).
    exists (a ++ pre'), st, th, po. by rewrite Ea, app_assoc.
Qed.

Lemma paired_propagate (st : list F) (thalf : F) :
  paired [CallPropagate mu st thalf].
Proof.
  intros pre xi ferr df post E.
  destruct pre as [|e [|e' pre] ]; by inversion E.
Qed.

Lemma paired_call (st : list F) (thalf : F) (po : propout) (xi ferr : list F)
    (df : list (list F)) :
  prepared st thalf po xi ferr df ->
  paired [CallPropagate mu st thalf; CallSsdc xi ferr df].
Proof.
  intros Hprep pre xi' ferr' df' post E.
  destruct pre as [|e [|e' [|e'' pre] ] ]; inversion E; subst.
  by exists [], st, thalf, po.
Qed.

Lemma report_prints (iteration : Z) (ferr : list F) :
  Forall is_print (report iteration ferr).
Proof.
  unfold report. destruct message; [|constructor].
  by repeat constructor.
Qed.

Lemma iteration_paired (iteration : Z) (lv : locals) (w w' : world)
    (r : result (locals * bool)) :
  iteration_outcome iteration lv w w' r ->
  exists evs, trace w' = trace w ++ evs /\ paired evs.
Proof.
  intros [e Hn|st e Hst|st po xi ferr df w1 e Hst Hprep Htr Hto
         |st po xi ferr df xii st' th' Hst Hprep Hs Hwr].
  - exists []. rewrite app_nil_r. split; [done|]. by apply paired_prints.
  - eexists. split; [done|]. apply paired_propagate.
  - eexists. split; [done|]. by eapply paired_call.
  - eexists. split; [done|].
    apply (paired_app [_; _]); [by eapply paired_call|].
    apply paired_prints, report_prints.
Qed.

Lemma loop_paired (its : list Z) (lv : locals) (w w' : world)
    (r : result locals) :
  loop_outcome its lv w w' r ->
  exists evs, trace w' = trace w ++ evs /\ paired evs.
Proof.
  induction 1 as [lv w|iteration its lv w w' e Hit
                 |iteration its lv w w' lv1 Hit
                 |iteration its lv w w1 lv1 w' r Hit Ho IH].
  - exists []. rewrite app_nil_r. split; [done|]. by apply paired_prints.
  - by eapply iteration_paired.
  - by eapply iteration_paired.
  - destruct (iteration_paired _ _ _ _ _ Hit) as (evs1 & Htr1 & Hp1).
    destruct IH as (evs2 & Htr2 & Hp2).
    exists (evs1 ++ evs2). split; [by rewrite Htr2, Htr1, app_assoc|].
    by apply paired_app.
Qed.

(** *** The whole run *)

Variables (period0 : F) (iter_max : Z).

Abbreviation run :=
  (ssdc_periodic_xzplane propagate_cr3bp ssdc mu state period0 fix_ tolDC
     iter_max message).

(** What line 31 prints for an initial y-component [y]. *)
Definition warning (y : F) : list event :=
  if fgt (fabs y) f_1e_9 then [Printed WarnNotOnPlane] else [].

Definition initial_locals : locals :=
  Locals (fdiv period0 (fofZ 2)) None None 0.

Definition after_warning (w : world) (y : F) : world :=
  World (heap w) (trace w ++ warning y).

Lemma run_inv (w w' : world) (r : result (F * loc * Z)) :
  run w = (w', r) ->
  (w' = w /\ exists e, r = Raise e) \/
  (exists st y rl,
      heap w !! state = Some st /\ st !! 1%nat = Some y /\
      loop_outcome (range iter_max) initial_locals (after_warning w y) w' rl /\
      r = match rl with
          | Ok lv => Ok (fmul (v_thalf lv) (fofZ 2), state, v_conv_flag lv)
          | Raise e => Raise e
          end).
Proof.
  unfold ssdc_periodic_xzplane. intros E.
  apply bind_inv in E as [(w1 & y & Hy & E)|(e & Hy & ->)];
    apply getitem_ref_inv in Hy as [-> Hy]; [|left; eauto].
  destruct Hy as [(st & y' & Hst & Hy & Ey)|(e & Ee)]; [|done].
  inversion Ey; subst y'. right. exists st, y.
  apply bind_inv in E as [(w1 & [] & Hw & E)|(e & Hw & ->)].
  - assert (w1 = after_warning w y) as ->.
    { unfold after_warning, warning.
      destruct (fgt (fabs y) f_1e_9).
      - by apply emit_inv in Hw as [-> _].
      - apply ret_inv in Hw as [-> _]. rewrite app_nil_r. by destruct w. }
    unfold correct in E.
    apply bind_inv in E as [(w2 & lv & Hl & E)|(e & Hl & ->)];
      apply for_loop_outcome in Hl; try (by right).
    + apply ret_inv in E as [-> ->]. by exists (Ok lv).
    + by exists (Raise e).
  - destruct (fgt (fabs y) f_1e_9).
    + by apply emit_inv in Hw as [_ ?].
    + by apply ret_inv in Hw as [_ ?].
Qed.

Lemma run_touches (w w' : world) (r : result (F * loc * Z)) :
  run w = (w', r) -> touches w w'.
Proof.
  intros E. apply run_inv in E as [[-> _]|(st & y & rl & _ & _ & Ho & _)].
  - apply touches_refl.
  - apply loop_touches in Ho. exact Ho.
Qed.

Lemma run_paired (w w' : world) (r : result (F * loc * Z)) :
  run w = (w', r) -> exists evs, trace w' = trace w ++ evs /\ paired evs.
Proof.
  intros E. apply run_inv in E as [[-> _]|(st & y & rl & _ & _ & Ho & _)].
  - exists []. rewrite app_nil_r. split; [done|]. by apply paired_prints.
  - apply loop_paired in Ho as (evs & Htr & Hp). simpl in Htr.
    exists (warning y ++ evs). split; [by rewrite Htr, app_assoc|].
    apply paired_app; [|done]. apply paired_prints.
    unfold warning. destruct (fgt (fabs y) f_1e_9); by repeat constructor.
Qed.

Lemma run_chain (w w' : world) (p : F) (s : loc) (flag : Z) :
  run w = (w', Ok (p, s, flag)) ->
  exists st y evs st_end thalf_end c,
    heap w !! state = Some st /\ st !! 1%nat = Some y /\
    newton_chain (range iter_max) st (fdiv period0 (fofZ 2)) evs
      st_end thalf_end c /\
    trace w' = trace w ++ warning y ++ evs /\
    heap w' = <[state := st_end]> (heap w) /\
    p = fmul thalf_end (fofZ 2) /\ s = state /\
    flag = if c then 1 else 0.
Proof.
  intros E. apply run_inv in E as [[_ [e ?] ]|(st & y & rl & Hst & Hy & Ho & Er)];
    [done|].
  destruct rl as [lv|e]; [|done]. inversion Er; subst.
  apply (loop_chain _ _ _ _ _ st) in Ho
    as (evs & st_end & c & Hch & Htr & Hh & Hc); [|done].
  simpl in *. exists st, y, evs, st_end, (v_thalf lv), c.
  rewrite Htr, app_assoc. done.
Qed.

(** The events [evs] end with a completed Newton step that left the
    array [st_end] and the half-period [thalf_end]; [below] tells whether
    the residual of that step was under the tolerance. *)
Definition ends_with_update (evs : list event) (st_end : list F) (thalf_end : F)
    (below : bool) : Prop :=
  exists pre st thalf po xi ferr df xii msgs,
    evs = pre ++ [CallPropagate mu st thalf; CallSsdc xi ferr df] ++ msgs /\
    Forall is_print msgs /\
    prepared st thalf po xi ferr df /\
    ssdc xi ferr df = Ok xii /\
    written_back st thalf xii st_end thalf_end /\
    flt (norm ferr) tolDC = below.

Lemma chain_last (its : list Z) (st : list F) (thalf : F) (evs : list event)
    (st_end : list F) (thalf_end : F) (c : bool) :
  newton_chain its st thalf evs st_end thalf_end c ->
  its <> [] ->
  ends_with_update evs st_end thalf_end c.
Proof.
  induction 1 as [st thalf
                 |iteration its st thalf po xi ferr df xii st' thalf'
                    Hprep Hs Hwr Hlt
                 |iteration its st thalf po xi ferr df xii st' thalf'
                    evs st_end thalf_end c Hprep Hs Hwr Hlt Hch IH];
    intros Hne; [done| |].
  - exists [], st, thalf, po, xi, ferr, df, xii, (report iteration ferr).
    split; [done|]. split; [apply report_prints|done].
  - destruct its as [|iteration' its].
    + inversion Hch; subst.
      exists [], st, thalf, po, xi, ferr, df, xii, (report iteration ferr).
      rewrite app_nil_r. split; [done|]. split; [apply report_prints|done].
    + destruct IH as (pre & st1 & th1 & po1 & xi1 & ferr1 & df1 & xii1 & msgs &
                      -> & Hmsgs & Hprep1 & Hs1 & Hwr1 & Hlt1); [done|].
      exists ([CallPropagate mu st thalf; CallSsdc xi ferr df] ++
                report iteration ferr ++ pre),
        st1, th1, po1, xi1, ferr1, df1, xii1, msgs.
      split; [by rewrite <- !app_assoc|done].
Qed.

Lemma chain_flag (its : list Z) (st : list F) (thalf : F) (evs : list event)
    (st_end : list F) (thalf_end : F) :
  newton_chain its st thalf evs st_end thalf_end true -> its <> [].
Proof. by inversion 1. Qed.

(** C1. The convergence test reads the residual of the current
    propagation, taken before the correction is written.  Whenever the run
    reports flag 1, its last two calls are a propagation of some array
    [st] over [thalf], whose residual [ferr] is below the tolerance, and
    the solver call on that residual; the array and the half-period that
    are returned are [st] and [thalf] with the output of that solver call
    written into them, and nothing is propagated after that. *)
Theorem converged_state_is_one_update_ahead
    (w w' : world) (period : F) (s : loc) :
  run w = (w', Ok (period, s, 1)) ->
  exists pre st thalf po xi ferr df xii msgs st' thalf',
    trace w' =
      trace w ++ pre ++
        [CallPropagate mu st thalf; CallSsdc xi ferr df] ++ msgs /\
    Forall is_print msgs /\
    propagate mu st thalf = Ok po /\
    array3 (statef po) 1 3 5 = Ok ferr /\
    flt (norm ferr) tolDC = true /\
    ssdc xi ferr df = Ok xii /\
    written_back st thalf xii st' thalf' /\
    heap w' !! s = Some st' /\
    period = fmul thalf' (fofZ 2).
Proof.
  intros E.
  apply run_chain in E
    as (st0 & y & evs & st' & thalf' & c & Hst0 & Hy & Hch & Htr & Hh & -> & -> & Hc).
  destruct c; [|done].
  pose proof (chain_flag _ _ _ _ _ _ Hch) as Hne.
  destruct (chain_last _ _ _ _ _ _ _ Hch Hne)
    as (pre & st & thalf & po & xi & ferr & df & xii & msgs &
        -> & Hmsgs & [Hpo _ Hferr _] & Hs & Hwr & Hlt).
  exists (warning y ++ pre), st, thalf, po, xi, ferr, df, xii, msgs, st', thalf'.
  repeat split; try done.
  - by rewrite Htr, <- !app_assoc.
  - rewrite Hh. apply lookup_insert_eq.
Qed.

(** *** Running forward *)

Abbreviation correction :=
  (correct propagate_cr3bp ssdc mu state period0 fix_ tolDC iter_max message).

Lemma run_unfold (w : world) (st : list F) (y : F) :
  heap w !! state = Some st ->
  st !! 1%nat = Some y ->
  run w = correction (after_warning w y).
Proof.
  intros Hst Hy.
  unfold ssdc_periodic_xzplane, getitem_ref, mbind, M_bind, load, lift, getitem.
  rewrite Hst, Hy. unfold after_warning, warning.
  destruct (fgt (fabs y) f_1e_9); unfold emit, mret, M_ret; simpl; [done|].
  rewrite app_nil_r. by destruct w.
Qed.

Lemma range_nil : iter_max = 0 -> range iter_max = [].
Proof. by intros ->. Qed.

Lemma range_cons : 1 <= iter_max -> exists rest, range iter_max = 0 :: rest.
Proof.
  intros Hn. unfold range.
  destruct (Z.to_nat iter_max) as [|n] eqn:En; [lia|].
  simpl. by eexists.
Qed.

(** C5 (amended). With [iter_max = 0] neither collaborator is called and
    nothing is written: the only possible event is the warning, the heap
    is the one at entry, the flag is 0 and the period returned is
    [(period0 / 2) * 2], which is [period0] whenever that round trip is
    exact. *)
Theorem zero_iterations_return_input (w : world) (st : list F) (y : F) :
  iter_max = 0 ->
  heap w !! state = Some st ->
  st !! 1%nat = Some y ->
  run w =
    (World (heap w) (trace w ++ warning y),
     Ok (fmul (fdiv period0 (fofZ 2)) (fofZ 2), state, 0)) /\
  Forall is_print (warning y) /\
  (fmul (fdiv period0 (fofZ 2)) (fofZ 2) = period0 ->
   (run w).2 = Ok (period0, state, 0)).
Proof.
  intros Hn Hst Hy.
  assert (Hrun : run w =
    (World (heap w) (trace w ++ warning y),
     Ok (fmul (fdiv period0 (fofZ 2)) (fofZ 2), state, 0))).
  { rewrite (run_unfold w st y Hst Hy). unfold correct.
    rewrite (range_nil Hn). reflexivity. }
  split; [done|]. split.
  - unfold warning. destruct (fgt (fabs y) f_1e_9); by repeat constructor.
  - intros Hexact. rewrite Hrun. simpl. by rewrite Hexact.
Qed.

Lemma invalid_mode_eqb :
  ~ valid_mode -> String.eqb fix_ "z" = false /\ String.eqb fix_ "period" = false.
Proof.
  intros Hinv. split; apply String.eqb_neq; intros E; apply Hinv;
    [by left|by right].
Qed.

(** C9 (amended). A mode other than "z" and "period" is not rejected up
    front.  With [iter_max = 0] the call returns [((period0 / 2) * 2,
    state0, 0)].  With [iter_max >= 1] the call never returns: it raises
    during the first pass, after one propagator call and before any solver
    call or write; when that propagation returned a result from which the
    residual and the 6x6 matrix could be read, the exception is the
    unbound local variable [xi]. *)
Theorem invalid_mode_not_rejected (w : world) (st : list F) (y : F) :
  ~ valid_mode ->
  heap w !! state = Some st ->
  st !! 1%nat = Some y ->
  (iter_max = 0 ->
   run w = (after_warning w y,
            Ok (fmul (fdiv period0 (fofZ 2)) (fofZ 2), state, 0))) /\
  (1 <= iter_max ->
   exists e,
     run w =
       (World (heap w)
          (trace w ++ warning y ++ [CallPropagate mu st (fdiv period0 (fofZ 2))]),
        Raise e)) /\
  (1 <= iter_max ->
   forall po ferr col stm,
     propagate mu st (fdiv period0 (fofZ 2)) = Ok po ->
     array3 (statef po) 1 3 5 = Ok ferr ->
     last_column (stms po) = Ok col ->
     reshape col 6 6 = Ok stm ->
     (run w).2 = Raise (UnboundLocalError "xi")).
Proof.
  intros Hinv Hst Hy. rewrite (run_unfold w st y Hst Hy).
  split; [|split].
  - intros Hn. unfold correct. rewrite (range_nil Hn). reflexivity.
  - intros Hn. destruct (range_cons Hn) as [rest Hrange].
    unfold correct, mbind, M_bind. rewrite Hrange.
    cbv zeta. fold initial_locals.
    destruct (for_loop (0 :: rest) body initial_locals (after_warning w y))
      as [w' rl] eqn:E.
    apply for_loop_outcome in E; [|by right].
    assert (Hno : forall i lv wa wb x,
               ~ iteration_outcome i lv wa wb (Ok x)).
    { intros i lv wa wb [lv' brk] Ho.
      apply iteration_outcome_Ok in Ho
        as (? & ? & ? & ? & ? & ? & ? & ? & _ & Hprep & _).
      apply Hinv. by eapply prepared_valid. }
    inversion E as [|i its lv w0 w1 e Hit| i its lv w0 w1 lv' Hit
                   | i its lv w0 w1 lv1 w2 r Hit Ho]; subst;
      try (by apply Hno in Hit).
    exists e.
    inversion Hit as [e' Hnone|st0 e' Hst0
                     |st0 po xi ferr df w1' e' Hst0 Hprep| ]; subst.
    + simpl in Hnone. congruence.
    + simpl in Hst0. rewrite Hst in Hst0. inversion Hst0; subst st0.
      simpl. by rewrite <- app_assoc.
    + exfalso. apply Hinv. by eapply prepared_valid.
  - intros Hn po ferr col stm Hpo Hferr Hcol Hstm.
    destruct (range_cons Hn) as [rest Hrange].
    destruct (invalid_mode_eqb Hinv) as [Hz Hp].
    unfold correct. rewrite Hrange. simpl for_loop.
    unfold iteration_body, call_propagate, call_ssdc, free_variables, jacobian.
    rewrite Hz, Hp.
    unfold mbind, M_bind, load, emit, lift, mret, M_ret, local. simpl.
    rewrite Hst. unfold propagate in Hpo. rewrite Hpo, Hferr.
    unfold mbind, result_mbind. rewrite Hcol. simpl. rewrite Hstm. done.
Qed.

(** *** What was printed before does not matter *)

(** A computation does not look at the trace: started with a trace [t]
    it behaves as started with the empty trace, and appends to [t]. *)
Definition trace_blind {A} (m : M A) : Prop :=
  forall h t,
    m (World h t) =
      (World (heap (m (World h [])).1) (t ++ trace (m (World h [])).1),
       (m (World h [])).2).

Lemma blind_ret {A} (x : A) : trace_blind (mret x : M A).
Proof. intros h t. unfold mret, M_ret. simpl. by rewrite app_nil_r. Qed.

Lemma blind_lift {A} (x : result A) : trace_blind (lift x).
Proof. intros h t. unfold lift. simpl. by rewrite app_nil_r. Qed.

Lemma blind_emit (e : event) : trace_blind (emit e).
Proof. intros h t. reflexivity. Qed.

Lemma blind_load (l : loc) : trace_blind (load l).
Proof.
  intros h t. unfold load. simpl.
  destruct (h !! l); simpl; by rewrite app_nil_r.
Qed.

Lemma blind_store (l : loc) (a : list F) : trace_blind (store l a).
Proof. intros h t. unfold store. simpl. by rewrite app_nil_r. Qed.

Lemma blind_bind {A B} (m : M A) (k : A -> M B) :
  trace_blind m -> (forall a, trace_blind (k a)) -> trace_blind (x ← m; k x).
Proof.
  intros Hm Hk h t. unfold mbind, M_bind. rewrite (Hm h t).
  destruct (m (World h [])) as [ [h1 t1] [a|e] ]; simpl; [|done].
  rewrite (Hk a h1 (t ++ t1)), (Hk a h1 t1).
  destruct (k a (World h1 [])) as [ [h2 t2] r]; simpl.
  by rewrite app_assoc.
Qed.

Ltac blind :=
  repeat first
    [ apply blind_ret | apply blind_lift | apply blind_emit
    | apply blind_load | apply blind_store
    | apply blind_bind; [|intros ?]
    | match goal with
      | |- trace_blind (if ?b then _ else _) => destruct b
      | |- trace_blind (match ?v with Some _ => _ | None => _ end) => destruct v
      | |- trace_blind (let (_, _) := ?p in _) => destruct p
      end ].

Lemma blind_iteration_body (iteration : Z) (lv : locals) :
  trace_blind (body iteration lv).
Proof.
  unfold iteration_body, call_propagate, call_ssdc, free_variables,
    write_back, getitem_ref, setitem_ref, local.
  blind.
Qed.

Lemma blind_for_loop (its : list Z) (lv : locals) :
  trace_blind (for_loop its body lv).
Proof.
  revert lv. induction its as [|iteration its IH]; intros lv; simpl.
  - apply blind_ret.
  - apply blind_bind; [apply blind_iteration_body|].
    intros [lv' brk]. destruct brk; [apply blind_ret|apply IH].
Qed.

Lemma blind_correct : trace_blind correction.
Proof.
  unfold correct. apply blind_bind; [apply blind_for_loop|].
  intros lv. apply blind_ret.
Qed.

Lemma iteration_first_event (iteration : Z) (lv : locals) (w w' : world)
    (r : result (locals * bool)) (st : list F) :
  iteration_outcome iteration lv w w' r ->
  heap w !! state = Some st ->
  exists rest, trace w' = trace w ++ CallPropagate mu st (v_thalf lv) :: rest.
Proof.
  intros [e Hn|st0 e Hst0|st0 po xi ferr df w1 e Hst0 Hprep Htr Hto
         |st0 po xi ferr df xii st' th' Hst0 Hprep Hs Hwr] Hst;
    try (rewrite Hst in Hst0; inversion Hst0; subst st0);
    try congruence; by eexists.
Qed.

Lemma loop_first_event (iteration : Z) (its : list Z) (lv : locals)
    (w w' : world) (r : result locals) (st : list F) :
  loop_outcome (iteration :: its) lv w w' r ->
  heap w !! state = Some st ->
  exists rest, trace w' = trace w ++ CallPropagate mu st (v_thalf lv) :: rest.
Proof.
  intros Ho Hst.
  inversion Ho as [|i its' lv0 w0 w1 e Hit| i its' lv0 w0 w1 lv' Hit
                  | i its' lv0 w0 w1 lv1 w2 r' Hit Ho']; subst;
    destruct (iteration_first_event _ _ _ _ _ st Hit Hst) as [rest Htr];
    try (by exists rest).
  apply loop_paired in Ho' as (evs & Htr' & _).
  exists (rest ++ evs). by rewrite Htr', Htr, <- app_assoc.
Qed.

(** C8. The y-component test only decides whether the warning is
    printed.  Whatever [y] is, the run is the warning (printed exactly
    when |y| > 1e-9) followed by [correct], the part of the function that
    comes after the test and never reads its outcome: the heap and the
    returned triple are those [correct] computes from the entry heap
    alone.  In particular a state above the threshold does not abort the
    call, and with [iter_max >= 1] its first propagation is made. *)
Theorem warning_is_not_fatal (w : world) (st : list F) (y : F) :
  heap w !! state = Some st ->
  st !! 1%nat = Some y ->
  let core := correction (World (heap w) []) in
  run w =
    (World (heap core.1)
       (trace w ++
          (if fgt (fabs y) f_1e_9 then [Printed WarnNotOnPlane] else []) ++
          trace core.1),
     core.2) /\
  (1 <= iter_max ->
   exists rest, trace core.1 = CallPropagate mu st (fdiv period0 (fofZ 2)) :: rest).
Proof.
  intros Hst Hy core. split.
  - rewrite (run_unfold w st y Hst Hy). unfold after_warning.
    rewrite (blind_correct (heap w) (trace w ++ warning y)).
    by rewrite <- app_assoc.
  - intros Hn. destruct (range_cons Hn) as [its Hrange].
    subst core. unfold correct, mbind, M_bind. rewrite Hrange.
    cbv zeta. fold initial_locals.
    destruct (for_loop (0 :: its) body initial_locals (World (heap w) []))
      as [w' rl] eqn:E.
    apply for_loop_outcome in E; [|by right].
    apply (loop_first_event _ _ _ _ _ _ st) in E as [rest Htr]; [|done].
    exists rest. by destruct rl.
Qed.

(** *** Frame and aliasing *)

Lemma chain_period (its : list Z) (st : list F) (thalf : F) (evs : list event)
    (st_end : list F) (thalf_end : F) (c : bool) :
  fix_ = "period" ->
  newton_chain its st thalf evs st_end thalf_end c ->
  thalf_end = thalf.
Proof.
  intros Hp.
  assert (Hwb : forall a t x a' t', written_back a t x a' t' -> t' = t).
  { intros a t x a' t' (? & ? & ? & _ & _ & _ & _ & [(Hz & _)|(_ & _ & ->)]);
      [|done]. rewrite Hp in Hz. discriminate. }
  induction 1 as [st thalf
                 |iteration its st thalf po xi ferr df xii st' thalf'
                    Hprep Hs Hwr Hlt
                 |iteration its st thalf po xi ferr df xii st' thalf'
                    evs st_end thalf_end c Hprep Hs Hwr Hlt Hch IH].
  - done.
  - by eapply Hwb.
  - rewrite IH. by eapply Hwb.
Qed.

(** C2 (amended).  Whatever the outcome of a run, the array it was handed
    keeps its length and every component outside the slots of the mode:
    all but 0 and 4 with fix = "z", all but 0, 2 and 4 with fix =
    "period"; and every solver call receives as [xi] the free variables
    read from the array and half-period that were just propagated.  A run
    that returns is a chain of Newton steps, each of which writes the
    solver output into those slots (and, with fix = "z", into the
    half-period); with fix = "period" the half-period never changes, so
    the period returned is [(period0 / 2) * 2]. *)
Theorem free_variables_frame (w w' : world) (r : result (F * loc * Z))
    (st : list F) :
  heap w !! state = Some st ->
  run w = (w', r) ->
  (exists st',
      heap w' !! state = Some st' /\ length st' = length st /\
      (fix_ = "z" ->
       forall i, i <> 0%nat -> i <> 4%nat -> st' !! i = st !! i) /\
      (fix_ = "period" ->
       forall i, i <> 0%nat -> i <> 2%nat -> i <> 4%nat -> st' !! i = st !! i)) /\
  (exists evs,
      trace w' = trace w ++ evs /\
      forall pre xi ferr df post,
        evs = pre ++ CallSsdc xi ferr df :: post ->
        exists pre' st_k thalf_k,
          pre = pre' ++ [CallPropagate mu st_k thalf_k] /\
          free_variables_of st_k thalf_k xi) /\
  (forall period s flag,
      r = Ok (period, s, flag) ->
      exists evs st_end thalf_end c,
        newton_chain (range iter_max) st (fdiv period0 (fofZ 2)) evs
          st_end thalf_end c /\
        heap w' !! state = Some st_end /\
        period = fmul thalf_end (fofZ 2) /\
        (fix_ = "period" ->
         thalf_end = fdiv period0 (fofZ 2) /\
         period = fmul (fdiv period0 (fofZ 2)) (fofZ 2))).
Proof.
  intros Hst E. split; [|split].
  - destruct (run_touches _ _ _ E) as [_ Hslots].
    destruct (Hslots st Hst) as (st' & Hst' & Hlen & Hsame).
    exists st'. do 2 (split; [done|]). split.
    + intros Hz i Hi0 Hi4. apply Hsame. rewrite (slots_z Hz).
      rewrite !elem_of_cons, elem_of_nil. tauto.
    + intros Hp i Hi0 Hi2 Hi4. apply Hsame. rewrite (slots_period Hp).
      rewrite !elem_of_cons, elem_of_nil. tauto.
  - destruct (run_paired _ _ _ E) as (evs & Htr & Hp).
    exists evs. split; [done|]. intros pre xi ferr df post Hev.
    destruct (Hp pre xi ferr df post Hev)
      as (pre' & st_k & thalf_k & po & -> & [_ Hxi _ _]).
    by exists pre', st_k, thalf_k.
  - intros period s flag ->.
    apply run_chain in E
      as (st0 & y & evs & st_end & thalf_end & c & Hst0 & Hy & Hch & Htr & Hh &
          -> & -> & Hc).
    rewrite Hst in Hst0. inversion Hst0; subst st0.
    exists evs, st_end, thalf_end, c. split; [done|].
    split; [rewrite Hh; apply lookup_insert_eq|]. split; [done|].
    intros Hp. by rewrite (chain_period _ _ _ _ _ _ _ Hp Hch).
Qed.

(** C6 (amended).  The engine works on the caller's array itself:
    [state] is another name for [state0], not a copy.  When a run returns,
    the reference it returns is [state0]; every other array of the heap is
    as it was at entry; with [iter_max <= 0] the array is untouched, and
    otherwise it holds the output of the last solver call in the slots of
    the mode.  Only the half-period is private to the call. *)
Theorem state_is_corrected_in_place (w w' : world) (period : F) (s : loc)
    (flag : Z) (st : list F) :
  heap w !! state = Some st ->
  run w = (w', Ok (period, s, flag)) ->
  s = state /\
  (forall l, l <> state -> heap w' !! l = heap w !! l) /\
  (iter_max <= 0 -> heap w' = heap w) /\
  (1 <= iter_max ->
   exists evs pre xi ferr df msgs xii x0 x1 x2 st',
     trace w' = trace w ++ evs /\
     evs = pre ++ CallSsdc xi ferr df :: msgs /\ Forall is_print msgs /\
     ssdc xi ferr df = Ok xii /\
     xii !! 0%nat = Some x0 /\ xii !! 1%nat = Some x1 /\ xii !! 2%nat = Some x2 /\
     heap w' !! state = Some st' /\
     (fix_ = "z" -> st' !! 0%nat = Some x0 /\ st' !! 4%nat = Some x1) /\
     (fix_ = "period" ->
      st' !! 0%nat = Some x0 /\ st' !! 2%nat = Some x1 /\ st' !! 4%nat = Some x2)).
Proof.
  intros Hst E.
  pose proof (run_touches _ _ _ E) as [Hother _].
  apply run_chain in E
    as (st0 & y & evs & st_end & thalf_end & c & Hst0 & Hy & Hch & Htr & Hh &
        -> & -> & Hc).
  rewrite Hst in Hst0. inversion Hst0; subst st0.
  split; [done|]. split; [done|]. split.
  - intros Hn. unfold range in Hch.
    replace (Z.to_nat iter_max) with 0%nat in Hch by lia.
    inversion Hch; subst. rewrite Hh. by apply insert_id.
  - intros Hn. destruct (range_cons Hn) as [rest Hrange].
    rewrite Hrange in Hch.
    destruct (chain_last _ _ _ _ _ _ _ Hch)
      as (pre & st_k & thalf_k & po & xi & ferr & df & xii & msgs &
          -> & Hmsgs & Hprep & Hs & Hwr & Hlt); [done|].
    destruct Hwr as (x0 & x1 & x2 & H0 & H1 & H2 & Hlen & Hmode).
    exists (warning y ++ pre ++
              [CallPropagate mu st_k thalf_k; CallSsdc xi ferr df] ++ msgs),
      (warning y ++ pre ++ [CallPropagate mu st_k thalf_k]),
      xi, ferr, df, msgs, xii, x0, x1, x2, st_end.
    split; [done|]. split; [by rewrite <- !app_assoc|].
    do 5 (split; [done|]).
    split; [rewrite Hh; apply lookup_insert_eq|].
    split.
    + intros Hz. destruct Hmode as [(_ & -> & _)|(Hp & _)];
        [|rewrite Hz in Hp; discriminate].
      split.
      * rewrite list_lookup_insert_ne by done.
        apply list_lookup_insert_eq. lia.
      * apply list_lookup_insert_eq. rewrite length_insert. lia.
    + intros Hp. destruct Hmode as [(Hz & _)|(_ & -> & _)];
        [rewrite Hp in Hz; discriminate|].
      split; [|split].
      * rewrite !list_lookup_insert_ne by done.
        apply list_lookup_insert_eq. lia.
      * rewrite list_lookup_insert_ne by done.
        apply list_lookup_insert_eq. rewrite length_insert. lia.
      * apply list_lookup_insert_eq. rewrite !length_insert. lia.
Qed.

(** *** Termination without an exception *)

(** What the engine needs from a propagation result to read the residual
    and the 6x6 matrix. *)
Definition well_formed (po : propout) : Prop :=
  length (statef po) = 6%nat /\ length (dstatef po) = 6%nat /\
  length (stms po) = 36%nat /\
  Forall (fun row : list F => row <> []) (stms po).

Lemma bind_run {A B} (m : M A) (k : A -> M B) (w w1 : world) (a : A) :
  m w = (w1, Ok a) -> (x ← m; k x) w = k a w1.
Proof. intros E. unfold mbind, M_bind. by rewrite E. Qed.

Lemma getitem_ref_run (l : loc) (i : nat) (w : world) (a : list F) (x : F) :
  heap w !! l = Some a -> a !! i = Some x -> getitem_ref l i w = (w, Ok x).
Proof.
  intros Ha Hx. unfold getitem_ref, mbind, M_bind, load, lift, getitem.
  by rewrite Ha, Hx.
Qed.

Lemma call_propagate_run (thalf : F) (w : world) (st : list F) :
  heap w !! state = Some st ->
  call_propagate propagate_cr3bp mu state thalf w =
    (World (heap w) (trace w ++ [CallPropagate mu st thalf]),
     propagate mu st thalf).
Proof.
  intros Hst. unfold call_propagate, mbind, M_bind, load, emit, lift.
  by rewrite Hst.
Qed.

Lemma call_ssdc_run (xi ferr : list F) (df : list (list F)) (w : world) :
  call_ssdc ssdc xi ferr df w =
    (World (heap w) (trace w ++ [CallSsdc xi ferr df]), ssdc xi ferr df).
Proof. reflexivity. Qed.

Lemma free_variables_run (lv : locals) (w : world) (st : list F) :
  valid_mode ->
  heap w !! state = Some st ->
  (5 <= length st)%nat ->
  exists xi,
    free_variables fix_ state lv w = (w, Ok (Some xi)) /\
    free_variables_of st (v_thalf lv) xi.
Proof.
  intros Hvalid Hst Hlen.
  destruct (lookup_lt_is_Some_2 st 0) as [s0 H0]; [lia|].
  destruct (lookup_lt_is_Some_2 st 2) as [s2 H2]; [lia|].
  destruct (lookup_lt_is_Some_2 st 4) as [s4 H4]; [lia|].
  unfold free_variables, free_variables_of.
  destruct Hvalid as [Hz|Hp].
  - exists [s0; s4; v_thalf lv]. rewrite Hz. simpl. split.
    + rewrite (bind_run _ _ _ _ _ (getitem_ref_run _ _ _ _ _ Hst H0)).
      by rewrite (bind_run _ _ _ _ _ (getitem_ref_run _ _ _ _ _ Hst H4)).
    + left. split; [done|]. by exists s0, s4.
  - exists [s0; s2; s4]. rewrite Hp. simpl. split.
    + rewrite (bind_run _ _ _ _ _ (getitem_ref_run _ _ _ _ _ Hst H0)).
      rewrite (bind_run _ _ _ _ _ (getitem_ref_run _ _ _ _ _ Hst H2)).
      by rewrite (bind_run _ _ _ _ _ (getitem_ref_run _ _ _ _ _ Hst H4)).
    + right. split; [done|]. by exists s0, s2, s4.
Qed.

Lemma array3_total (a : list F) (i j k : nat) :
  (i < length a)%nat -> (j < length a)%nat -> (k < length a)%nat ->
  exists v, array3 a i j k = Ok v /\ length v = 3%nat.
Proof.
  intros Hi Hj Hk.
  destruct (getitem_lt a i Hi) as (x & Hx & _).
  destruct (getitem_lt a j Hj) as (y & Hy & _).
  destruct (getitem_lt a k Hk) as (z & Hz & _).
  exists [x; y; z]. unfold array3, mbind, result_mbind.
  by rewrite Hx, Hy, Hz.
Qed.

Lemma last_column_total (a : list (list F)) :
  Forall (fun row : list F => row <> []) a ->
  exists col, last_column a = Ok col /\ length col = length a.
Proof.
  induction 1 as [|row a Hrow Hall (col & Hcol & Hlen)]; simpl.
  - by exists [].
  - apply last_is_Some in Hrow as [x Hx]. rewrite Hx.
    exists (x :: col). unfold mbind, result_mbind. rewrite Hcol. simpl.
    by rewrite Hlen.
Qed.

Lemma chunks_lookup_lt (r c : nat) (v : list F) (i : nat) :
  (i < r)%nat -> chunks r c v !! i = Some (take c (drop (i * c) v)).
Proof.
  revert v i. induction r as [|r IH]; intros v i Hi; [lia|].
  destruct i as [|i]; simpl; [done|].
  rewrite IH by lia. by rewrite drop_drop, Nat.add_comm.
Qed.

Lemma getitem2_total (col : list F) (i j : nat) :
  length col = 36%nat -> (i < 6)%nat -> (j < 6)%nat ->
  exists x, getitem2 (chunks 6 6 col) i j = Ok x.
Proof.
  intros Hlen Hi Hj. unfold getitem2, mbind, result_mbind, getitem.
  rewrite (chunks_lookup_lt 6 6 col i Hi). simpl.
  rewrite lookup_take_lt by done. rewrite lookup_drop.
  destruct (lookup_lt_is_Some_2 col (i * 6 + j)) as [x Hx]; [lia|].
  rewrite Hx. by exists x.
Qed.

Lemma jacobian_total (po : propout) (col : list F) (lv : locals) :
  valid_mode ->
  length (dstatef po) = 6%nat ->
  length col = 36%nat ->
  exists df, jacobian fix_ (chunks 6 6 col) po lv = Ok (Some df).
Proof.
  intros Hvalid Hd Hcol. unfold jacobian, mbind, result_mbind.
  destruct (getitem_lt (dstatef po) 1) as (d1 & Hd1 & _); [lia|].
  destruct (getitem_lt (dstatef po) 3) as (d3 & Hd3 & _); [lia|].
  destruct (getitem_lt (dstatef po) 5) as (d5 & Hd5 & _); [lia|].
  destruct (getitem2_total col 1 0) as [a10 H10]; [done|lia|lia|].
  destruct (getitem2_total col 1 2) as [a12 H12]; [done|lia|lia|].
  destruct (getitem2_total col 1 4) as [a14 H14]; [done|lia|lia|].
  destruct (getitem2_total col 3 0) as [a30 H30]; [done|lia|lia|].
  destruct (getitem2_total col 3 2) as [a32 H32]; [done|lia|lia|].
  destruct (getitem2_total col 3 4) as [a34 H34]; [done|lia|lia|].
  destruct (getitem2_total col 5 0) as [a50 H50]; [done|lia|lia|].
  destruct (getitem2_total col 5 2) as [a52 H52]; [done|lia|lia|].
  destruct (getitem2_total col 5 4) as [a54 H54]; [done|lia|lia|].
  destruct Hvalid as [Hz|Hp]; [rewrite Hz|rewrite Hp]; simpl String.eqb; cbv iota;
    rewrite ?H10, ?H12, ?H14, ?H30, ?H32, ?H34, ?H50, ?H52, ?H54,
      ?Hd1, ?Hd3, ?Hd5; simpl; by eexists.
Qed.

Lemma write_back_run (xii : list F) (lv : locals) (w : world) (st : list F) :
  valid_mode ->
  heap w !! state = Some st ->
  (5 <= length st)%nat ->
  length xii = 3%nat ->
  exists w' thalf', write_back fix_ state xii lv w = (w', Ok thalf').
Proof.
  intros Hvalid Hst Hlen Hxii.
  destruct xii as [|x0 [|x1 [|x2 [|] ] ] ]; try discriminate.
  unfold write_back, mbind, M_bind, lift, getitem. simpl.
  destruct Hvalid as [Hz|Hp]; [rewrite Hz|rewrite Hp]; simpl.
  - rewrite (setitem_ref_run _ _ _ _ st Hst).
    destruct (Nat.ltb_spec 0 (length st)); [|lia].
    rewrite (setitem_ref_run _ _ _ _ (<[0%nat := x0]> st))
      by (simpl; apply lookup_insert_eq).
    rewrite length_insert.
    destruct (Nat.ltb_spec 4 (length st)); [|lia].
    by eexists _, _.
  - rewrite (setitem_ref_run _ _ _ _ st Hst).
    destruct (Nat.ltb_spec 0 (length st)); [|lia].
    rewrite (setitem_ref_run _ _ _ _ (<[0%nat := x0]> st))
      by (simpl; apply lookup_insert_eq).
    rewrite length_insert.
    destruct (Nat.ltb_spec 2 (length st)); [|lia].
    rewrite (setitem_ref_run _ _ _ _ (<[2%nat := x1]> (<[0%nat := x0]> st)))
      by (simpl; apply lookup_insert_eq).
    rewrite !length_insert.
    destruct (Nat.ltb_spec 4 (length st)); [|lia].
    by eexists _, _.
Qed.

(** The outcomes of the convergence test, one per solver call. *)
Definition residual_checks (evs : list event) : list bool :=
  omap (fun e => match e with
                 | CallSsdc _ ferr _ => Some (flt (norm ferr) tolDC)
                 | _ => None
                 end) evs.

Lemma residual_checks_app (a b : list event) :
  residual_checks (a ++ b) = residual_checks a ++ residual_checks b.
Proof. apply omap_app. Qed.

Lemma residual_checks_prints (evs : list event) :
  Forall is_print evs -> residual_checks evs = [].
Proof.
  induction 1 as [|e evs He Hall IH]; [done|].
  by destruct e.
Qed.

Lemma chain_checks (its : list Z) (st : list F) (thalf : F) (evs : list event)
    (st_end : list F) (thalf_end : F) (c : bool) :
  newton_chain its st thalf evs st_end thalf_end c ->
  exists k,
    residual_checks evs = replicate k false ++ (if c then [true] else []) /\
    if c then (k < length its)%nat else k = length its.
Proof.
  induction 1 as [st thalf
                 |iteration its st thalf po xi ferr df xii st' thalf'
                    Hprep Hs Hwr Hlt
                 |iteration its st thalf po xi ferr df xii st' thalf'
                    evs st_end thalf_end c Hprep Hs Hwr Hlt Hch (k & Hk & Hlen)].
  - by exists 0%nat.
  - exists 0%nat. split; [|simpl; lia].
    rewrite (residual_checks_app [_; _]). simpl. rewrite Hlt.
    by rewrite (residual_checks_prints _ (report_prints iteration ferr)).
  - exists (S k). split; [|destruct c; simpl; lia].
    rewrite (residual_checks_app [_; _]), residual_checks_app. simpl.
    rewrite Hlt, Hk.
    by rewrite (residual_checks_prints _ (report_prints iteration ferr)).
Qed.

Lemma length_range : length (range iter_max) = Z.to_nat iter_max.
Proof. unfold range. by rewrite length_map, length_seq. Qed.

Section totality.
Hypothesis Hvalid : valid_mode.
Hypothesis Hpropagate :
  forall st thalf, length st = 6%nat ->
    exists po, propagate mu st thalf = Ok po /\ well_formed po.
Hypothesis Hsolve :
  forall st thalf po xi ferr df, prepared st thalf po xi ferr df ->
    exists xii, ssdc xi ferr df = Ok xii /\ length xii = 3%nat.

Lemma iteration_total (iteration : Z) (lv : locals) (w : world) (st : list F) :
  heap w !! state = Some st ->
  length st = 6%nat ->
  exists w' lv' brk st',
    body iteration lv w = (w', Ok (lv', brk)) /\
    heap w' !! state = Some st' /\ length st' = 6%nat.
Proof.
  intros Hst Hlen.
  assert (Hex : exists w' lv' brk, body iteration lv w = (w', Ok (lv', brk))).
  { destruct (Hpropagate st (v_thalf lv) Hlen) as (po & Hpo & Hsf & Hdf & Hms & Hrows).
    unfold iteration_body.
    pose proof (call_propagate_run (v_thalf lv) w st Hst) as Hcall.
    rewrite Hpo in Hcall. rewrite (bind_run _ _ _ _ _ Hcall). clear Hcall.
    set (w1 := World (heap w) (trace w ++ [CallPropagate mu st (v_thalf lv)])).
    destruct (free_variables_run lv w1 st Hvalid Hst) as (xi & Hxi & Hfree);
      [lia|].
    rewrite (bind_run _ _ _ _ _ Hxi).
    destruct (array3_total (statef po) 1 3 5) as (ferr & Hferr & _);
      [lia|lia|lia|].
    rewrite Hferr. rewrite (bind_run _ _ w1 w1 ferr) by done.
    destruct (last_column_total _ Hrows) as (col & Hcol & Hclen).
    rewrite Hms in Hclen.
    assert (Hstm : reshape col 6 6 = Ok (chunks 6 6 col)).
    { unfold reshape. by rewrite Hclen. }
    rewrite (bind_run _ _ w1 w1 (chunks 6 6 col))
      by (unfold lift, mbind, result_mbind; by rewrite Hcol; simpl; rewrite Hstm).
    destruct (jacobian_total po col lv Hvalid Hdf Hclen) as [df Hjac].
    rewrite Hjac. rewrite (bind_run _ _ w1 w1 (Some df)) by done.
    simpl local. rewrite (bind_run _ _ w1 w1 xi) by done.
    rewrite (bind_run _ _ w1 w1 df) by done.
    assert (Hprep : prepared st (v_thalf lv) po xi ferr df).
    { split; try done.
      by apply (jacobian_sensitivity po col (chunks 6 6 col) lv). }
    destruct (Hsolve _ _ _ _ _ _ Hprep) as (xii & Hs & Hxii).
    pose proof (call_ssdc_run xi ferr df w1) as Hcall.
    rewrite Hs in Hcall. rewrite (bind_run _ _ _ _ _ Hcall). clear Hcall.
    set (w2 := World (heap w1) (trace w1 ++ [CallSsdc xi ferr df])).
    destruct (write_back_run xii lv w2 st Hvalid) as (w3 & thalf' & Hwb);
      [done|lia|done|].
    rewrite (bind_run _ _ _ _ _ Hwb).
    destruct (flt (norm ferr) tolDC); destruct message;
      unfold mbind, M_bind, emit, mret, M_ret; simpl; by eexists _, _, _. }
  destruct Hex as (w' & lv' & brk & E).
  exists w', lv', brk.
  pose proof (iteration_body_outcome _ _ _ _ _ (or_introl Hvalid) E) as Ho.
  apply iteration_outcome_Ok in Ho
    as (st0 & po & xi & ferr & df & xii & st' & th' & Hst0 & Hprep & Hs &
        Hwr & Hbrk & -> & _).
  rewrite Hst in Hst0. inversion Hst0; subst st0.
  exists st'. split; [done|]. simpl. rewrite lookup_insert_eq.
  split; [done|].
  destruct (written_back_frame _ _ _ _ _ Hwr) as [Hl _]. congruence.
Qed.

Lemma loop_total (its : list Z) (lv : locals) (w : world) (st : list F) :
  heap w !! state = Some st ->
  length st = 6%nat ->
  exists w' lv', for_loop its body lv w = (w', Ok lv').
Proof.
  revert lv w st. induction its as [|iteration its IH]; intros lv w st Hst Hlen.
  - by exists w, lv.
  - destruct (iteration_total iteration lv w st Hst Hlen)
      as (w1 & lv1 & brk & st1 & Hb & Hst1 & Hlen1).
    simpl. rewrite (bind_run _ _ _ _ _ Hb). destruct brk.
    + by exists w1, lv1.
    + by apply (IH lv1 w1 st1).
Qed.

Lemma run_total (w : world) (st : list F) :
  heap w !! state = Some st ->
  length st = 6%nat ->
  exists w' period flag, run w = (w', Ok (period, state, flag)).
Proof.
  intros Hst Hlen.
  destruct (lookup_lt_is_Some_2 st 1) as [y Hy]; [lia|].
  rewrite (run_unfold w st y Hst Hy). unfold correct.
  destruct (loop_total (range iter_max) initial_locals (after_warning w y) st)
    as (w' & lv' & Hl); [done|done|].
  fold initial_locals. cbv zeta.
  rewrite (bind_run _ _ _ _ _ Hl). by eexists _, _, _.
Qed.

End totality.

End iteration.

End engine_facts.

(** ** Concrete runs

    The general theorems are instantiated on binary64 with the stand-in
    collaborators of [Demo].  The initial guess is not on the solution of the
    affine flow; one Newton step lands on it and the second pass converges. *)

Section concrete_runs.
Import R3BP.
Local Open Scope float_scope.

Definition mu0 : float := 0x1p-6.
Definition guess : list float := [3; 0; 7; 0; 2; 0].
Definition w0 : @world float := World Demo.heap0 [].

Local Abbreviation engine :=
  (ssdc_periodic_xzplane Demo.affine_flow Demo.newton3 mu0 0%nat).

(** Ten passes allowed, period fixed, progress lines on. *)
Definition out_period : world * result (float * loc * Z) :=
  engine 2 "period" Demo.tol 10%Z true w0.

(** Two floats told apart by a test are different. *)
Lemma float_neq_by (test : float -> bool) (x y : float) :
  test x <> test y -> x <> y.
Proof. intros Hne ->. done. Qed.

Lemma run_out_period : engine 2 "period" Demo.tol 10%Z true w0 = (out_period.1, out_period.2).
Proof. vm_compute. reflexivity. Qed.

Example out_period_value :
  out_period.2 = Ok (2, 0%nat, 1%Z) /\
  heap out_period.1 !! 0%nat = Some [1; 0; 2; 0; 3; 0] /\
  trace out_period.1 =
    [ CallPropagate mu0 [3; 0; 7; 0; 2; 0] 1;
      CallSsdc [3; 7; 2] [2; 4; -1] [ [1; 0; 0]; [0; 1; 1]; [0; 0; 1] ];
      Printed (CurrentError 1 (PrimFloat.sqrt 21));
      CallPropagate mu0 [1; 0; 2; 0; 3; 0] 1;
      CallSsdc [1; 2; 3] [0; 0; 0] [ [1; 0; 0]; [0; 1; 1]; [0; 0; 1] ];
      Printed (ClearedTolerance 2 0) ].
Proof. repeat split; vm_compute; reflexivity. Qed.

Lemma converged_state_is_one_update_ahead_witness :
  engine 2 "period" Demo.tol 10%Z true w0 = (out_period.1, Ok (2, 0%nat, 1%Z)) /\
  exists pre st thalf po xi ferr df xii msgs st' thalf',
    trace out_period.1 =
      trace w0 ++ pre ++
        [CallPropagate mu0 st thalf; CallSsdc xi ferr df] ++ msgs /\
    Forall is_print msgs /\
    propagate Demo.affine_flow mu0 st thalf = Ok po /\
    array3 (statef po) 1 3 5 = Ok ferr /\
    flt (norm ferr) Demo.tol = true /\
    Demo.newton3 xi ferr df = Ok xii /\
    written_back "period" st thalf xii st' thalf' /\
    heap out_period.1 !! 0%nat = Some st' /\
    2 = fmul thalf' (fofZ 2).
Proof.
  assert (Hrun : engine 2 "period" Demo.tol 10%Z true w0
                 = (out_period.1, Ok (2, 0%nat, 1%Z)))
    by (vm_compute; reflexivity).
  split; [exact Hrun|].
  exact (converged_state_is_one_update_ahead Demo.affine_flow Demo.newton3 mu0
           0%nat "period" Demo.tol true 2 10%Z w0 out_period.1 2 0%nat Hrun).
Defined.

Lemma zero_iterations_return_input_witness :
  (0 = 0)%Z /\
  heap w0 !! 0%nat = Some guess /\
  guess !! 1%nat = Some 0 /\
  engine 2 "period" Demo.tol 0%Z true w0 =
    (World (heap w0) (trace w0 ++ warning 0),
     Ok (fmul (fdiv 2 (fofZ 2)) (fofZ 2), 0%nat, 0%Z)) /\
  Forall is_print (warning 0) /\
  (fmul (fdiv 2 (fofZ 2)) (fofZ 2) = 2 ->
   (engine 2 "period" Demo.tol 0%Z true w0).2 = Ok (2, 0%nat, 0%Z)).
Proof.
  assert (Hst : heap w0 !! 0%nat = Some guess) by reflexivity.
  assert (Hy : guess !! 1%nat = Some 0) by reflexivity.
  split; [reflexivity|]. split; [exact Hst|]. split; [exact Hy|].
  exact (zero_iterations_return_input Demo.affine_flow Demo.newton3 mu0 0%nat
           "period" Demo.tol true 2 0%Z w0 guess 0 eq_refl Hst Hy).
Defined.

(** C5, as stated, fails on the smallest positive binary64 number: its half
    rounds to zero, so the period returned is 0 and not [period0]. *)
Lemma zero_iterations_period_differs :
  (engine 0x1p-1074 "z" Demo.tol 0%Z false w0).2 = Ok (0, 0%nat, 0%Z) /\
  0 <> 0x1p-1074.
Proof.
  split; [vm_compute; reflexivity|].
  apply (float_neq_by (PrimFloat.eqb 0)). vm_compute. discriminate.
Qed.

Lemma invalid_mode_not_rejected_witness :
  ~ valid_mode "both" /\
  heap w0 !! 0%nat = Some guess /\
  guess !! 1%nat = Some 0 /\
  ((3 = 0)%Z ->
   engine 2 "both" Demo.tol 3%Z true w0 =
     (after_warning w0 0, Ok (fmul (fdiv 2 (fofZ 2)) (fofZ 2), 0%nat, 0%Z))) /\
  ((1 <= 3)%Z ->
   exists e,
     engine 2 "both" Demo.tol 3%Z true w0 =
       (World (heap w0)
          (trace w0 ++ warning 0 ++ [CallPropagate mu0 guess (fdiv 2 (fofZ 2))]),
        Raise e)) /\
  ((1 <= 3)%Z ->
   forall po ferr col stm,
     propagate Demo.affine_flow mu0 guess (fdiv 2 (fofZ 2)) = Ok po ->
     array3 (statef po) 1 3 5 = Ok ferr ->
     last_column (stms po) = Ok col ->
     reshape col 6 6 = Ok stm ->
     (engine 2 "both" Demo.tol 3%Z true w0).2 = Raise (UnboundLocalError "xi")).
Proof.
  assert (Hinv : ~ valid_mode "both") by (intros [E|E]; discriminate).
  assert (Hst : heap w0 !! 0%nat = Some guess) by reflexivity.
  assert (Hy : guess !! 1%nat = Some 0) by reflexivity.
  split; [exact Hinv|]. split; [exact Hst|]. split; [exact Hy|].
  exact (invalid_mode_not_rejected Demo.affine_flow Demo.newton3 mu0 0%nat
           "both" Demo.tol true 2 3%Z w0 guess 0 Hinv Hst Hy).
Defined.

Example invalid_mode_runs :
  engine 2 "both" Demo.tol 3%Z true w0 =
    (World Demo.heap0 [CallPropagate mu0 guess 1], Raise (UnboundLocalError "xi")) /\
  engine 2 "both" Demo.tol 0%Z true w0 = (w0, Ok (2, 0%nat, 0%Z)).
Proof. split; vm_compute; reflexivity. Qed.

(** C9, as stated, fails for an invalid mode with [iter_max = 0] on the
    binary64 number 3 * 2^-1074: its half rounds up to 2 * 2^-1074, and the
    period returned is 4 * 2^-1074, not [period0]. *)
Lemma invalid_mode_period_differs :
  (engine 0x1.8p-1073 "both" Demo.tol 0%Z false w0).2
    = Ok (0x1p-1072, 0%nat, 0%Z) /\
  0x1p-1072 <> 0x1.8p-1073.
Proof.
  split; [vm_compute; reflexivity|].
  apply (float_neq_by (PrimFloat.eqb 0x1p-1072)). vm_compute. discriminate.
Qed.

(** An initial guess 2^-20 off the xz-plane, above the 1e-9 threshold. *)
Definition off_plane : list float := [3; 0x1p-20; 7; 0; 2; 0].
Definition w_off : @world float := World (<[0%nat := off_plane]> Demo.heap0) [].

Lemma warning_is_not_fatal_witness :
  heap w_off !! 0%nat = Some off_plane /\
  off_plane !! 1%nat = Some 0x1p-20 /\
  fgt (fabs 0x1p-20) f_1e_9 = true /\
  let core :=
    correct Demo.affine_flow Demo.newton3 mu0 0%nat 2 "z" Demo.tol 3%Z false
      (World (heap w_off) []) in
  engine 2 "z" Demo.tol 3%Z false w_off =
    (World (heap core.1)
       (trace w_off ++
          (if fgt (fabs 0x1p-20) f_1e_9 then [Printed WarnNotOnPlane] else []) ++
          trace core.1),
     core.2) /\
  ((1 <= 3)%Z ->
   exists rest,
     trace core.1 = CallPropagate mu0 off_plane (fdiv 2 (fofZ 2)) :: rest).
Proof.
  assert (Hst : heap w_off !! 0%nat = Some off_plane) by reflexivity.
  assert (Hy : off_plane !! 1%nat = Some 0x1p-20) by reflexivity.
  split; [exact Hst|]. split; [exact Hy|].
  split; [vm_compute; reflexivity|].
  exact (warning_is_not_fatal Demo.affine_flow Demo.newton3 mu0 0%nat "z"
           Demo.tol false 2 3%Z w_off off_plane 0x1p-20 Hst Hy).
Defined.

Example off_plane_run :
  (engine 2 "z" Demo.tol 3%Z false w_off).2 = Ok (12, 0%nat, 1%Z) /\
  head (trace (engine 2 "z" Demo.tol 3%Z false w_off).1)
    = Some (Printed WarnNotOnPlane).
Proof. split; vm_compute; reflexivity. Qed.

Lemma free_variables_frame_witness :
  heap w0 !! 0%nat = Some guess /\
  engine 2 "period" Demo.tol 10%Z true w0 = (out_period.1, out_period.2) /\
  (exists st',
      heap out_period.1 !! 0%nat = Some st' /\ length st' = length guess /\
      ("period" = "z" ->
       forall i, i <> 0%nat -> i <> 4%nat -> st' !! i = guess !! i)%string /\
      ("period" = "period" ->
       forall i, i <> 0%nat -> i <> 2%nat -> i <> 4%nat ->
                 st' !! i = guess !! i)%string) /\
  (exists evs,
      trace out_period.1 = trace w0 ++ evs /\
      forall pre xi ferr df post,
        evs = pre ++ CallSsdc xi ferr df :: post ->
        exists pre' st_k thalf_k,
          pre = pre' ++ [CallPropagate mu0 st_k thalf_k] /\
          free_variables_of "period" st_k thalf_k xi) /\
  (forall period s flag,
      out_period.2 = Ok (period, s, flag) ->
      exists evs st_end thalf_end c,
        newton_chain Demo.affine_flow Demo.newton3 mu0 "period" Demo.tol true
          (range 10) guess (fdiv 2 (fofZ 2)) evs st_end thalf_end c /\
        heap out_period.1 !! 0%nat = Some st_end /\
        period = fmul thalf_end (fofZ 2) /\
        ("period" = "period" ->
         thalf_end = fdiv 2 (fofZ 2) /\
         period = fmul (fdiv 2 (fofZ 2)) (fofZ 2))%string).
Proof.
  assert (Hst : heap w0 !! 0%nat = Some guess) by reflexivity.
  split; [exact Hst|]. split; [exact run_out_period|].
  exact (free_variables_frame Demo.affine_flow Demo.newton3 mu0 0%nat "period"
           Demo.tol true 2 10%Z w0 out_period.1 out_period.2 guess Hst
           run_out_period).
Defined.

(** C2, as stated, fails with fix = "period" on the smallest positive
    binary64 number: the half-period is never written, yet the period
    returned is 0 and not [period0]. *)
Lemma fixed_period_differs :
  (engine 0x1p-1074 "period" Demo.tol 1%Z false w0).2 = Ok (0, 0%nat, 0%Z) /\
  0 <> 0x1p-1074.
Proof.
  split; [vm_compute; reflexivity|].
  apply (float_neq_by (PrimFloat.eqb 0)). vm_compute. discriminate.
Qed.

Lemma state_is_corrected_in_place_witness :
  heap w0 !! 0%nat = Some guess /\
  engine 2 "period" Demo.tol 10%Z true w0 = (out_period.1, Ok (2, 0%nat, 1%Z)) /\
  0%nat = 0%nat /\
  (forall l, l <> 0%nat -> heap out_period.1 !! l = heap w0 !! l) /\
  ((10 <= 0)%Z -> heap out_period.1 = heap w0) /\
  ((1 <= 10)%Z ->
   exists evs pre xi ferr df msgs xii x0 x1 x2 st',
     trace out_period.1 = trace w0 ++ evs /\
     evs = pre ++ CallSsdc xi ferr df :: msgs /\ Forall is_print msgs /\
     Demo.newton3 xi ferr df = Ok xii /\
     xii !! 0%nat = Some x0 /\ xii !! 1%nat = Some x1 /\ xii !! 2%nat = Some x2 /\
     heap out_period.1 !! 0%nat = Some st' /\
     ("period" = "z" -> st' !! 0%nat = Some x0 /\ st' !! 4%nat = Some x1)%string /\
     ("period" = "period" ->
      st' !! 0%nat = Some x0 /\ st' !! 2%nat = Some x1 /\
      st' !! 4%nat = Some x2)%string).
Proof.
  assert (Hst : heap w0 !! 0%nat = Some guess) by reflexivity.
  assert (Hrun : engine 2 "period" Demo.tol 10%Z true w0
                 = (out_period.1, Ok (2, 0%nat, 1%Z)))
    by (vm_compute; reflexivity).
  split; [exact Hst|]. split; [exact Hrun|].
  exact (state_is_corrected_in_place Demo.affine_flow Demo.newton3 mu0 0%nat
           "period" Demo.tol true 2 10%Z w0 out_period.1 2 0%nat 1%Z guess Hst
           Hrun).
Defined.

(** C6, as stated, fails: after one pass the caller's array no longer holds
    the values it had at entry. *)
Lemma caller_array_is_overwritten :
  heap w0 !! 0%nat = Some [3; 0; 7; 0; 2; 0] /\
  (engine 2 "period" Demo.tol 1%Z false w0).2 = Ok (2, 0%nat, 0%Z) /\
  heap (engine 2 "period" Demo.tol 1%Z false w0).1 !! 0%nat
    = Some [1; 0; 2; 0; 3; 0] /\
  [1; 0; 2; 0; 3; 0] <> [3; 0; 7; 0; 2; 0].
Proof.
  split; [reflexivity|]. split; [vm_compute; reflexivity|].
  split; [vm_compute; reflexivity|].
  intros E.
  apply (f_equal (fun a => match a with
                           | x :: _ => PrimFloat.eqb x 1
                           | [] => false
                           end)) in E.
  vm_compute in E. discriminate.
Qed.

(** The affine flow is total on six-component states and its results are
    well formed. *)
Lemma affine_flow_well_formed (st : list float) (thalf : float) :
  length st = 6%nat ->
  exists po, propagate Demo.affine_flow mu0 st thalf = Ok po /\ well_formed po.
Proof.
  intros Hlen.
  destruct st as [|x [|y [|z [|vx [|vy [|vz [|] ] ] ] ] ] ]; try discriminate.
  eexists. split; [reflexivity|].
  unfold well_formed. simpl. repeat split.
  repeat (constructor; [discriminate|]). constructor.
Qed.

Lemma map_Some_inj {A} (a b : list (list A)) :
  map (map Some) a = map (map Some) b -> a = b.
Proof.
  assert (Hrow : forall r r' : list A, map Some r = map Some r' -> r = r').
  { induction r as [|x r IH]; intros [|x' r'] E; try discriminate; [done|].
    simpl in E. inversion E; subst. f_equal. by apply IH. }
  revert b. induction a as [|r a IH]; intros [|r' b] E; try discriminate; [done|].
  simpl in E. inversion E as [ [Er Ea] ]. f_equal; [by apply Hrow|by apply IH].
Qed.

(** With the period fixed, the systems prepared from the affine flow all
    have the same regular matrix, and Cramer's rule solves them. *)
Lemma newton3_solves_prepared (st : list float) (thalf : float) (po : propout)
    (xi ferr : list float) (df : list (list float)) :
  prepared Demo.affine_flow mu0 "period" st thalf po xi ferr df ->
  exists xii, Demo.newton3 xi ferr df = Ok xii /\ length xii = 3%nat.
Proof.
  intros [Hpo Hxi Hferr Hdf].
  unfold propagate, Demo.affine_flow in Hpo.
  destruct st as [|x [|y [|z [|vx [|vy [|vz [|] ] ] ] ] ] ]; try discriminate.
  inversion Hpo; subst po; clear Hpo.
  destruct Hxi as [ [Hz _]|[_ (s0 & s2 & s4 & _ & _ & _ & ->)] ]; [discriminate|].
  simpl in Hferr. inversion Hferr; subst ferr; clear Hferr.
  destruct Hdf as [ [Hz _]|[_ Hdf] ]; [discriminate|].
  assert (Edf : df = [ [1; 0; 0]; [0; 1; 1]; [0; 0; 1] ]).
  { apply map_Some_inj. rewrite Hdf. vm_compute. reflexivity. }
  subst df. unfold Demo.newton3.
  assert (Edet : Demo.det3 [ [1; 0; 0]; [0; 1; 1]; [0; 0; 1] ] = 1)
    by (vm_compute; reflexivity).
  rewrite Edet.
  assert (Enz : PrimFloat.eqb 1 0 = false) by (vm_compute; reflexivity).
  cbv zeta. rewrite Enz. by eexists.
Qed.

(** With these two stand-ins and the period fixed, every run from a
    six-component array returns, whatever the budget. *)
Example period_runs_return (period0 : float) (iter_max : Z) (message : bool) :
  exists w' period flag,
    engine period0 "period" Demo.tol iter_max message w0
    = (w', Ok (period, 0%nat, flag)).
Proof.
  apply (run_total Demo.affine_flow Demo.newton3 mu0 0%nat "period" Demo.tol
           message period0 iter_max (or_intror eq_refl)
           affine_flow_well_formed newton3_solves_prepared w0 guess);
    reflexivity.
Qed.

Example out_period_checks :
  residual_checks Demo.tol (trace out_period.1) = [false; true] /\
  residual_checks Demo.tol (trace (engine 2 "z" Demo.tol 1%Z false w0).1) = [false] /\
  (engine 2 "z" Demo.tol 1%Z false w0).2 = Ok (12, 0%nat, 0%Z).
Proof. repeat split; vm_compute; reflexivity. Qed.

End concrete_runs.

(** * Further properties *)

(** ** Keplerian elements on well-formed states *)

Section conicElements_more.
Context {F : Type} `{Float64Ops F}.
Import Keplerian.

Lemma array3_six (state : list F) (i j k : nat) :
  length state = 6%nat -> (i < 6)%nat -> (j < 6)%nat -> (k < 6)%nat ->
  exists x y z, array3 state i j k = Ok [x; y; z].
Proof.
  intros Hlen Hi Hj Hk.
  destruct (getitem_lt state i) as (x & Hx & _); [lia|].
  destruct (getitem_lt state j) as (y & Hy & _); [lia|].
  destruct (getitem_lt state k) as (z & Hz & _); [lia|].
  exists x, y, z. unfold array3, mbind, result_mbind. by rewrite Hx, Hy, Hz.
Qed.

Lemma get_eccentricity_six (state : list F) (mu : F) :
  length state = 6%nat ->
  if feqb mu (fofZ 0)
  then get_eccentricity state mu = Raise ZeroDivisionError
  else exists ecc, get_eccentricity state mu = Ok ecc /\ length ecc = 3%nat.
Proof.
  intros Hlen.
  destruct (array3_six state 0 1 2 Hlen) as (x & y & z & Hr); [lia|lia|lia|].
  destruct (array3_six state 3 4 5 Hlen) as (vx & vy & vz & Hv); [lia|lia|lia|].
  unfold get_eccentricity, mbind, result_mbind, scalar_div.
  rewrite Hr, Hv. simpl.
  destruct (feqb mu (fofZ 0)); simpl; [done|by eexists].
Qed.

(** X1. On a state with six components [get_eccentricity] fails exactly when
    [mu == 0], with [ZeroDivisionError]; for any other [mu] it returns a
    vector of three components, also when the position is the origin (the
    division of [r] by its norm is an array division and does not raise). *)
Theorem get_eccentricity_fails_only_on_zero_mu (state : list F) (mu : F) :
  length state = 6%nat ->
  (feqb mu (fofZ 0) = true ->
   get_eccentricity state mu = Raise ZeroDivisionError) /\
  (feqb mu (fofZ 0) = false ->
   exists ecc, get_eccentricity state mu = Ok ecc /\ length ecc = 3%nat).
Proof.
  intros Hlen. pose proof (get_eccentricity_six state mu Hlen) as Hecc.
  split; intros Hmu; by rewrite Hmu in Hecc.
Qed.

(** The divisor of the semi-major axis: [mu * (1 - e ** 2)]. *)
Definition axis_divisor (mu : F) (ecc : list F) : F :=
  fmul mu (fsub (fofZ 1) (fpow (norm ecc) 2)).

Lemma get_semiMajorAxis_six (state : list F) (mu : F) :
  length state = 6%nat ->
  (feqb mu (fofZ 0) = false /\
   exists ecc, get_eccentricity state mu = Ok ecc /\
               feqb (axis_divisor mu ecc) (fofZ 0) = false /\
               exists a, get_semiMajorAxis state mu = Ok a) \/
  ((feqb mu (fofZ 0) = true \/
    exists ecc, get_eccentricity state mu = Ok ecc /\
                feqb (axis_divisor mu ecc) (fofZ 0) = true) /\
   get_semiMajorAxis state mu = Raise ZeroDivisionError).
Proof.
  intros Hlen. pose proof (get_eccentricity_six state mu Hlen) as Hecc.
  destruct (array3_six state 0 1 2 Hlen) as (x & y & z & Hr); [lia|lia|lia|].
  destruct (array3_six state 3 4 5 Hlen) as (vx & vy & vz & Hv); [lia|lia|lia|].
  unfold get_semiMajorAxis, mbind, result_mbind, scalar_div.
  rewrite Hr, Hv. simpl.
  destruct (feqb mu (fofZ 0)) eqn:Hmu.
  - rewrite Hecc. simpl. right. split; [by left|done].
  - destruct Hecc as (ecc & Hecc & _). rewrite Hecc. simpl.
    fold (axis_divisor mu ecc).
    destruct (feqb (axis_divisor mu ecc) (fofZ 0)) eqn:Hd.
    + right. split; [|done]. right. by exists ecc.
    + left. split; [done|]. exists ecc. do 2 (split; [done|]). by eexists.
Qed.

(** X2. On a state with six components [get_semiMajorAxis] can only raise
    [ZeroDivisionError], and it returns a value exactly when neither [mu] nor
    the divisor [mu * (1 - e ** 2)] compares equal to zero: a parabolic orbit
    ([e ** 2 == 1]) is an error, not an infinite axis. *)
Theorem get_semiMajorAxis_fails_on_zero_divisor (state : list F) (mu : F) :
  length state = 6%nat ->
  match get_semiMajorAxis state mu with
  | Ok a =>
      feqb mu (fofZ 0) = false /\
      exists ecc, get_eccentricity state mu = Ok ecc /\
                  feqb (axis_divisor mu ecc) (fofZ 0) = false
  | Raise e =>
      e = ZeroDivisionError /\
      (feqb mu (fofZ 0) = true \/
       exists ecc, get_eccentricity state mu = Ok ecc /\
                   feqb (axis_divisor mu ecc) (fofZ 0) = true)
  end.
Proof.
  intros Hlen. pose proof (get_semiMajorAxis_six state mu Hlen) as Haxis.
  destruct (get_semiMajorAxis state mu) as [a|e].
  - destruct Haxis as [(Hmu & ecc & Hecc & Hd & _)|(_ & E)]; [|discriminate].
    split; [done|]. by exists ecc.
  - destruct Haxis as [(_ & _ & _ & _ & a & E)|(Hd & E)]; [discriminate|].
    by inversion E.
Qed.

(** X3. On a state with six components [get_period] returns a value exactly
    when [get_semiMajorAxis] does, and otherwise raises [ZeroDivisionError]:
    the division by [mu] of line 163 never raises by itself, and a negative
    axis never reaches the square root. *)
Theorem get_period_fails_only_with_the_axis (state : list F) (mu : F) :
  length state = 6%nat ->
  ((exists a, get_semiMajorAxis state mu = Ok a) ->
   exists p, get_period state mu = Ok p) /\
  ((exists e, get_semiMajorAxis state mu = Raise e) ->
   get_period state mu = Raise ZeroDivisionError) /\
  (forall a, get_semiMajorAxis state mu = Ok a -> flt a (fofZ 0) = true ->
             get_period state mu = Ok (fofZ (-1))).
Proof.
  intros Hlen.
  pose proof (get_semiMajorAxis_six state mu Hlen) as Haxis.
  unfold get_period, mbind, result_mbind, scalar_div.
  destruct Haxis as [(Hmu & _ & _ & _ & a & Ha)|(_ & Ha)]; rewrite Ha; simpl.
  - rewrite Hmu. split; [|split].
    + intros _. destruct (flt a (fofZ 0)); by eexists.
    + intros [e He]. discriminate.
    + intros a' Ea Hneg. inversion Ea; subst a'. by rewrite Hneg.
  - split; [|split].
    + intros [a Ea]. discriminate.
    + done.
    + intros a Ea. discriminate.
Qed.

End conicElements_more.

Lemma get_eccentricity_fails_only_on_zero_mu_witness :
  length [1; 0; 0; 0; 1; 0]%float = 6%nat /\
  (feqb 0%float (fofZ 0) = true ->
   Keplerian.get_eccentricity [1; 0; 0; 0; 1; 0]%float 0%float
     = Raise ZeroDivisionError) /\
  (feqb 0%float (fofZ 0) = false ->
   exists ecc,
     Keplerian.get_eccentricity [1; 0; 0; 0; 1; 0]%float 0%float = Ok ecc /\
     length ecc = 3%nat).
Proof.
  split; [reflexivity|].
  exact (get_eccentricity_fails_only_on_zero_mu [1; 0; 0; 0; 1; 0]%float 0%float
           eq_refl).
Defined.

(** A parabolic orbit around a unit mass: [e = 1] exactly, and the semi-major
    axis raises. *)
Example get_semiMajorAxis_parabolic :
  Keplerian.get_eccentricity [2; 0; 0; 0; 1; 0]%float 1%float = Ok [1; 0; 0]%float /\
  Keplerian.get_semiMajorAxis [2; 0; 0; 0; 1; 0]%float 1%float
    = Raise ZeroDivisionError /\
  Keplerian.get_period [2; 0; 0; 0; 1; 0]%float 1%float = Raise ZeroDivisionError.
Proof. repeat split; vm_compute; reflexivity. Qed.

Lemma get_semiMajorAxis_fails_on_zero_divisor_witness :
  length [2; 0; 0; 0; 1; 0]%float = 6%nat /\
  match Keplerian.get_semiMajorAxis [2; 0; 0; 0; 1; 0]%float 1%float with
  | Ok a =>
      feqb 1%float (fofZ 0) = false /\
      exists ecc,
        Keplerian.get_eccentricity [2; 0; 0; 0; 1; 0]%float 1%float = Ok ecc /\
        feqb (axis_divisor 1%float ecc) (fofZ 0) = false
  | Raise e =>
      e = ZeroDivisionError /\
      (feqb 1%float (fofZ 0) = true \/
       exists ecc,
         Keplerian.get_eccentricity [2; 0; 0; 0; 1; 0]%float 1%float = Ok ecc /\
         feqb (axis_divisor 1%float ecc) (fofZ 0) = true)
  end.
Proof.
  split; [reflexivity|].
  exact (get_semiMajorAxis_fails_on_zero_divisor [2; 0; 0; 0; 1; 0]%float 1%float
           eq_refl).
Defined.

Lemma get_period_fails_only_with_the_axis_witness :
  length [1; 0; 0; 0; 2; 0]%float = 6%nat /\
  ((exists a, Keplerian.get_semiMajorAxis [1; 0; 0; 0; 2; 0]%float 1%float = Ok a) ->
   exists p, Keplerian.get_period [1; 0; 0; 0; 2; 0]%float 1%float = Ok p) /\
  ((exists e, Keplerian.get_semiMajorAxis [1; 0; 0; 0; 2; 0]%float 1%float = Raise e) ->
   Keplerian.get_period [1; 0; 0; 0; 2; 0]%float 1%float = Raise ZeroDivisionError) /\
  (forall a,
     Keplerian.get_semiMajorAxis [1; 0; 0; 0; 2; 0]%float 1%float = Ok a ->
     flt a (fofZ 0) = true ->
     Keplerian.get_period [1; 0; 0; 0; 2; 0]%float 1%float = Ok (fofZ (-1))).
Proof.
  split; [reflexivity|].
  exact (get_period_fails_only_with_the_axis [1; 0; 0; 0; 2; 0]%float 1%float
           eq_refl).
Defined.

(** ** The correction engine: failures, budget, verbosity *)

Section engine_more.
Import R3BP.
Context {F : Type} `{Float64Ops F}.
Variable propagate_cr3bp :
  F -> list F -> F -> bool -> string -> F -> F -> result (@propout F).
Variable ssdc : list F -> list F -> list (list F) -> result (list F).
Variables (mu : F) (state : loc) (fix_ : string) (tolDC : F).

#[local] Existing Instance M_ret.
#[local] Existing Instance M_bind.

Abbreviation world := (@world F).
Abbreviation locals := (@locals F).
Abbreviation event := (@event F).
Abbreviation pass := (iteration_body propagate_cr3bp ssdc mu state fix_ tolDC).
Abbreviation engine_run period0 iter_max message :=
  (ssdc_periodic_xzplane propagate_cr3bp ssdc mu state period0 fix_ tolDC
     iter_max message).

(** *** Which exception, and where *)

Lemma getitem_Raise {A} (a : list A) (i : nat) (e : exn) :
  getitem a i = Raise e -> e = IndexError /\ (length a <= i)%nat.
Proof.
  unfold getitem. destruct (a !! i) eqn:E; [done|].
  intros Er. inversion Er. split; [done|]. by apply lookup_ge_None.
Qed.

Lemma array3_Raise (a : list F) (i j k : nat) (e : exn) :
  array3 a i j k = Raise e -> e = IndexError.
Proof.
  unfold array3, mbind, result_mbind.
  destruct (getitem a i) eqn:Ei; simpl; [|intros E; inversion E; subst;
                                           by apply getitem_Raise in Ei as [? _] ].
  destruct (getitem a j) eqn:Ej; simpl; [|intros E; inversion E; subst;
                                           by apply getitem_Raise in Ej as [? _] ].
  destruct (getitem a k) eqn:Ek; simpl; [done|].
  intros E; inversion E; subst. by apply getitem_Raise in Ek as [? _].
Qed.

Lemma last_column_Raise (a : list (list F)) (e : exn) :
  last_column a = Raise e -> e = IndexError.
Proof.
  induction a as [|row a IH]; simpl; [done|].
  destruct (last row); [|by intros E; inversion E].
  unfold mbind, result_mbind. destruct (last_column a); simpl; [done|].
  intros E; inversion E; subst. by apply IH.
Qed.

Lemma reshape_Raise (v : list F) (r c : nat) (e : exn) :
  reshape v r c = Raise e -> e = ValueError /\ length v <> (r * c)%nat.
Proof.
  unfold reshape. destruct (Nat.eqb_spec (length v) (r * c)); [done|].
  intros E. by inversion E.
Qed.

Lemma getitem2_Raise (m : list (list F)) (i j : nat) (e : exn) :
  getitem2 m i j = Raise e -> e = IndexError.
Proof.
  unfold getitem2, mbind, result_mbind.
  destruct (getitem m i) eqn:Ei; simpl.
  - intros E. by apply getitem_Raise in E as [? _].
  - intros E; inversion E; subst. by apply getitem_Raise in Ei as [? _].
Qed.

Lemma jacobian_Raise (stm : list (list F)) (po : propout) (lv : locals) (e : exn) :
  jacobian fix_ stm po lv = Raise e -> e = IndexError.
Proof.
  unfold jacobian, mbind, result_mbind.
  destruct (String.eqb fix_ "z"); [|destruct (String.eqb fix_ "period")];
    [| |done];
    repeat match goal with
           | |- result_bind ?c _ = Raise e -> _ =>
               let E := fresh "E" in
               destruct c eqn:E; simpl;
               [|intros Er; inversion Er; subst;
                 first [by apply getitem2_Raise in E
                       |by apply getitem_Raise in E as [? _] ] ]
           end; done.
Qed.

Lemma getitem_ref_at (l : loc) (i : nat) (w : world) (a : list F) :
  heap w !! l = Some a -> getitem_ref l i w = (w, getitem a i).
Proof.
  intros Ha. unfold getitem_ref, mbind, M_bind, load, lift. by rewrite Ha.
Qed.

Lemma free_variables_Raise (lv : locals) (w w' : world) (st : list F) (e : exn) :
  heap w !! state = Some st ->
  free_variables fix_ state lv w = (w', Raise e) ->
  w' = w /\ e = IndexError.
Proof.
  intros Hst. unfold free_variables, mbind, M_bind.
  destruct (String.eqb fix_ "z"); [|destruct (String.eqb fix_ "period")];
    rewrite ?(getitem_ref_at _ _ _ _ Hst);
    repeat match goal with
           | |- context [getitem st ?i] =>
               let E := fresh "E" in
               destruct (getitem st i) eqn:E;
               [rewrite ?(getitem_ref_at _ _ _ _ Hst)
               |intros Er; inversion Er; subst;
                by apply getitem_Raise in E as [? _] ]
           end; done.
Qed.

Lemma write_back_Raise (xii : list F) (lv : locals) (w w' : world)
    (st : list F) (e : exn) :
  heap w !! state = Some st ->
  (5 <= length st)%nat ->
  valid_mode fix_ ->
  write_back fix_ state xii lv w = (w', Raise e) ->
  w' = w /\ e = IndexError /\ (length xii < 3)%nat.
Proof.
  intros Hst Hlen Hvalid. unfold write_back, mbind, M_bind, lift.
  assert (Hshort : forall i e', (i < 3)%nat -> getitem xii i = Raise e' ->
                                e' = IndexError /\ (length xii < 3)%nat).
  { intros i e' Hi E. apply getitem_Raise in E as [-> ?]. split; [done|lia]. }
  destruct Hvalid as [Hz|Hp]; [rewrite Hz|rewrite Hp]; simpl.
  - destruct (getitem xii 0) eqn:E0;
      [|intros E; inversion E; subst; split; [done|]; by apply (Hshort 0%nat); [lia|] ].
    destruct (getitem xii 1) eqn:E1;
      [|intros E; inversion E; subst; split; [done|]; by apply (Hshort 1%nat); [lia|] ].
    destruct (getitem xii 2) eqn:E2;
      [|intros E; inversion E; subst; split; [done|]; by apply (Hshort 2%nat); [lia|] ].
    rewrite (setitem_ref_run _ _ _ _ st Hst).
    destruct (Nat.ltb_spec 0 (length st)); [|lia].
    rewrite (setitem_ref_run _ _ _ _ (<[0%nat := a]> st))
      by (simpl; apply lookup_insert_eq).
    rewrite length_insert.
    destruct (Nat.ltb_spec 4 (length st)); [|lia]. done.
  - destruct (getitem xii 0) eqn:E0;
      [|intros E; inversion E; subst; split; [done|]; by apply (Hshort 0%nat); [lia|] ].
    destruct (getitem xii 1) eqn:E1;
      [|intros E; inversion E; subst; split; [done|]; by apply (Hshort 1%nat); [lia|] ].
    destruct (getitem xii 2) eqn:E2;
      [|intros E; inversion E; subst; split; [done|]; by apply (Hshort 2%nat); [lia|] ].
    rewrite (setitem_ref_run _ _ _ _ st Hst).
    destruct (Nat.ltb_spec 0 (length st)); [|lia].
    rewrite (setitem_ref_run _ _ _ _ (<[0%nat := a]> st))
      by (simpl; apply lookup_insert_eq).
    rewrite length_insert.
    destruct (Nat.ltb_spec 2 (length st)); [|lia].
    rewrite (setitem_ref_run _ _ _ _ (<[2%nat := a0]> (<[0%nat := a]> st)))
      by (simpl; apply lookup_insert_eq).
    rewrite !length_insert.
    destruct (Nat.ltb_spec 4 (length st)); [|lia]. done.
Qed.

Lemma free_variables_of_length (st : list F) (thalf : F) (xi : list F) :
  free_variables_of fix_ st thalf xi -> (5 <= length st)%nat /\ length xi = 3%nat.
Proof.
  intros [(_ & s0 & s4 & _ & H4 & ->)|(_ & s0 & s2 & s4 & _ & _ & H4 & ->)];
    apply lookup_lt_Some in H4; (split; [lia|done]).
Qed.

(** The engine's own exceptions: a read out of range, a matrix that is not
    6x6, or [xi] never assigned. *)
Definition engine_exception (e : exn) : Prop :=
  e = IndexError \/ e = ValueError \/ e = UnboundLocalError "xi".

(** The ways a pass over the array [st] and the half-period [thalf] can
    raise, with the events of the pass. *)
Inductive failing_pass (st : list F) (thalf : F) : list event -> exn -> Prop :=
  | fp_propagator e :
      propagate propagate_cr3bp mu st thalf = Raise e ->
      failing_pass st thalf [CallPropagate mu st thalf] e
  | fp_engine po e :
      propagate propagate_cr3bp mu st thalf = Ok po ->
      engine_exception e ->
      failing_pass st thalf [CallPropagate mu st thalf] e
  | fp_solver po xi ferr df e :
      prepared propagate_cr3bp mu fix_ st thalf po xi ferr df ->
      ssdc xi ferr df = Raise e ->
      failing_pass st thalf [CallPropagate mu st thalf; CallSsdc xi ferr df] e
  | fp_short_output po xi ferr df xii :
      prepared propagate_cr3bp mu fix_ st thalf po xi ferr df ->
      ssdc xi ferr df = Ok xii ->
      (length xii < 3)%nat ->
      failing_pass st thalf [CallPropagate mu st thalf; CallSsdc xi ferr df]
        IndexError.

(** A pass that raises has written nothing. *)
Lemma pass_failure (message : bool) (iteration : Z) (lv : locals) (w w' : world)
    (st : list F) (e : exn) :
  valid_mode fix_ \/ v_xi lv = None ->
  heap w !! state = Some st ->
  pass message iteration lv w = (w', Raise e) ->
  exists evs,
    failing_pass st (v_thalf lv) evs e /\
    w' = World (heap w) (trace w ++ evs).
Proof.
  intros Hmode Hst E. unfold iteration_body in E.
  apply bind_inv in E as [(w1 & po & Hpo & E)|(e' & Hpo & Ee)];
    apply call_propagate_inv in Hpo
      as [(Hnone & _)|(st' & Hst' & -> & Epo)];
    try congruence;
    rewrite Hst in Hst'; inversion Hst'; subst st'; clear Hst'.
  2:{ inversion Ee; subst e'. eexists. split; [by apply fp_propagator|done]. }
  symmetry in Epo.
  set (w1 := World (heap w) (trace w ++ [CallPropagate mu st (v_thalf lv)])) in *.
  assert (Hst1 : heap w1 !! state = Some st) by done.
  assert (Hown : forall e0, engine_exception e0 ->
            exists evs, failing_pass st (v_thalf lv) evs e0 /\
                        w1 = World (heap w) (trace w ++ evs)).
  { intros e0 He0. eexists. split; [by eapply fp_engine|done]. }
  apply bind_inv in E as [(w2 & xi_o & Hxi & E)|(e' & Hxi & Ee)].
  2:{ inversion Ee; subst e'.
      apply (free_variables_Raise _ _ _ _ _ Hst1) in Hxi as [-> ->].
      apply Hown. by left. }
  pose proof Hxi as Hxi'.
  apply free_variables_inv in Hxi' as [-> Hxi'].
  apply bind_inv in E as [(w2 & ferr & Hferr & E)|(e' & Hferr & Ee)];
    apply lift_inv in Hferr as [-> Hferr].
  2:{ inversion Ee; subst e'. symmetry in Hferr.
      apply array3_Raise in Hferr as ->. apply Hown. by left. }
  apply bind_inv in E as [(w2 & stm & Hstm & E)|(e' & Hstm & Ee)];
    apply lift_inv in Hstm as [-> Hstm]; symmetry in Hstm.
  2:{ inversion Ee; subst e'. apply Hown.
      unfold mbind, result_mbind in Hstm.
      destruct (last_column (stms po)) as [col|e1] eqn:Hcol; simpl in Hstm.
      - apply reshape_Raise in Hstm as [-> _]. right; by left.
      - inversion Hstm; subst. apply last_column_Raise in Hcol as ->. by left. }
  apply result_bind_Ok in Hstm as (col & Hcol & Hstm).
  apply bind_inv in E as [(w2 & df_o & Hdf & E)|(e' & Hdf & Ee)];
    apply lift_inv in Hdf as [-> Hdf]; symmetry in Hdf.
  2:{ inversion Ee; subst e'. apply jacobian_Raise in Hdf as ->.
      apply Hown. by left. }
  assert (Hcases :
    (exists xi df, xi_o = Some xi /\ df_o = Some df /\
       prepared propagate_cr3bp mu fix_ st (v_thalf lv) po xi ferr df) \/
    xi_o = None).
  { destruct Hxi' as [(e0 & Ee0)|[(st' & xi & Hst' & Hfree & Exi)|(Hinv & Exi)] ].
    - discriminate.
    - simpl in Hst'. rewrite Hst in Hst'. inversion Hst'; subst st'.
      inversion Exi; subst xi_o. left.
      assert (Hvalid : valid_mode fix_)
        by (destruct Hfree as [ [? _]|[? _] ]; [by left|by right]).
      assert (exists df, df_o = Some df) as [df ->].
      { unfold jacobian in Hdf. destruct Hvalid as [Hz|Hp].
        - rewrite Hz in Hdf. simpl in Hdf. unfold mbind, result_mbind in Hdf.
          repeat (apply result_bind_Ok in Hdf as (? & _ & Hdf)).
          inversion Hdf. by eexists.
        - rewrite Hp in Hdf. simpl in Hdf. unfold mbind, result_mbind in Hdf.
          repeat (apply result_bind_Ok in Hdf as (? & _ & Hdf)).
          inversion Hdf. by eexists. }
      exists xi, df. do 2 (split; [done|]). split; try done.
      by apply (jacobian_sensitivity fix_ po col stm lv).
    - inversion Exi; subst xi_o. destruct Hmode as [?|Hnone]; [done|]. by right. }
  destruct Hcases as [(xi & df & -> & -> & Hprep)| -> ].
  2:{ apply bind_inv in E as [(w2 & xi & Hl & E)|(e' & Hl & Ee)];
        apply local_inv in Hl as [-> Hl]; [discriminate|].
      inversion Ee; subst e'. inversion Hl; subst. apply Hown. right; by right. }
  apply bind_inv in E as [(w2 & xi' & Hl & E)|(e' & Hl & Ee)];
    apply local_inv in Hl as [-> Hl]; [|discriminate].
  inversion Hl; subst xi'.
  apply bind_inv in E as [(w2 & df' & Hl' & E)|(e' & Hl' & Ee)];
    apply local_inv in Hl' as [-> Hl']; [|discriminate].
  inversion Hl'; subst df'.
  apply bind_inv in E as [(w2 & xii & Hs & E)|(e' & Hs & Ee)];
    apply call_ssdc_inv in Hs as [-> Hs].
  2:{ inversion Ee; subst e'. eexists. split; [by eapply fp_solver|].
      subst w1. simpl. by rewrite <- app_assoc. }
  set (w2 := World (heap w1) (trace w1 ++ [CallSsdc xi ferr df])) in *.
  destruct (free_variables_of_length _ _ _ (prep_xi _ _ _ _ _ _ _ _ _ Hprep))
    as [Hlen _].
  apply bind_inv in E as [(w3 & thalf' & Hwb & E)|(e' & Hwb & Ee)].
  2:{ inversion Ee; subst e'.
      apply (write_back_Raise xii lv w2 w' st) in Hwb as (-> & -> & Hshort);
        try done; [|by eapply prepared_valid].
      eexists. split; [by eapply fp_short_output|].
      subst w2 w1. simpl. by rewrite <- app_assoc. }
  destruct (flt (norm ferr) tolDC); destruct message;
    unfold mbind, M_bind, emit, mret, M_ret in E; simpl in E; inversion E.
Qed.

Section failures.
Variables (message : bool) (period0 : F) (iter_max : Z).

Abbreviation chain :=
  (newton_chain propagate_cr3bp ssdc mu fix_ tolDC message).

(** A loop that raises: the passes made before form a chain of Newton steps,
    and the pass that raises starts from the array they left. *)
Lemma loop_failure (its : list Z) (lv : locals) (w w' : world) (st : list F)
    (e : exn) :
  valid_mode fix_ \/ v_xi lv = None ->
  heap w !! state = Some st ->
  for_loop its (pass message) lv w = (w', Raise e) ->
  exists made evs st_k thalf_k fevs,
    chain made st (v_thalf lv) evs st_k thalf_k false /\
    (length made < length its)%nat /\
    failing_pass st_k thalf_k fevs e /\
    trace w' = trace w ++ evs ++ fevs /\
    heap w' = <[state := st_k]> (heap w).
Proof.
  revert lv w st. induction its as [|iteration its IH]; intros lv w st Hmode Hst E.
  - apply ret_inv in E as [_ ?]. discriminate.
  - simpl in E.
    apply bind_inv in E as [(w1 & [lv1 brk] & Hb & E)|(e' & Hb & Ee)].
    + apply (iteration_body_outcome _ _ _ _ _ _ _ _ _ _ _ _ Hmode) in Hb.
      apply iteration_outcome_Ok in Hb
        as (st0 & po & xi & ferr & df & xii & st' & th' & Hst0 & Hprep & Hs &
            Hwr & Hbrk & -> & ->).
      rewrite Hst in Hst0. inversion Hst0; subst st0.
      destruct brk.
      { apply ret_inv in E as [_ ?]. discriminate. }
      apply (IH _ _ st') in E
        as (made & evs & st_k & thalf_k & fevs & Hch & Hlen & Hfail & Htr & Hh).
      * exists (iteration :: made). eexists _, st_k, thalf_k, fevs.
        split; [by eapply nc_continue|].
        split; [simpl; lia|]. split; [done|]. simpl in *.
        split; [by rewrite Htr, <- !app_assoc|].
        by rewrite Hh, insert_insert_eq.
      * left. by eapply prepared_valid.
      * simpl. apply lookup_insert_eq.
    + inversion Ee; subst e'.
      apply (pass_failure _ _ _ _ _ st _ Hmode Hst) in Hb as (fevs & Hfail & ->).
      exists [], [], st, (v_thalf lv), fevs.
      split; [constructor|]. split; [simpl; lia|]. split; [done|].
      split; [done|]. simpl. by rewrite insert_id.
Qed.

(** A run that raises. *)
Lemma run_failure (w w' : world) (st : list F) (e : exn) :
  heap w !! state = Some st ->
  engine_run period0 iter_max message w = (w', Raise e) ->
  ((length st <= 1)%nat /\ e = IndexError /\ w' = w) \/
  (exists y made evs st_k thalf_k fevs,
      st !! 1%nat = Some y /\
      chain made st (fdiv period0 (fofZ 2)) evs st_k thalf_k false /\
      (length made < Z.to_nat iter_max)%nat /\
      failing_pass st_k thalf_k fevs e /\
      trace w' = trace w ++ warning y ++ evs ++ fevs /\
      heap w' = <[state := st_k]> (heap w)).
Proof.
  intros Hst E. destruct (st !! 1%nat) as [y|] eqn:Hy.
  - right. exists y.
    rewrite (run_unfold _ _ _ _ _ _ _ _ _ _ st y Hst Hy) in E.
    unfold correct in E.
    apply bind_inv in E as [(w1 & lv & Hl & E)|(e' & Hl & Ee)].
    + apply ret_inv in E as [_ ?]. discriminate.
    + inversion Ee; subst e'.
      apply (loop_failure _ _ _ _ st) in Hl
        as (made & evs & st_k & thalf_k & fevs & Hch & Hlen & Hfail & Htr & Hh);
        [|by right|done].
      rewrite length_range in Hlen. simpl in *.
      exists made, evs, st_k, thalf_k, fevs. repeat split; try done.
      by rewrite Htr, <- app_assoc.
  - left. apply lookup_ge_None in Hy.
    unfold ssdc_periodic_xzplane, mbind, M_bind in E.
    rewrite (getitem_ref_at _ _ _ _ Hst) in E.
    unfold getitem in E.
    destruct (st !! 1%nat) eqn:Hy'; [apply lookup_lt_Some in Hy'; lia|].
    inversion E. by subst.
Qed.

(** X4. A state array with fewer than two components is rejected by the
    first line of the function: [state0[1]] raises [IndexError] before
    anything is printed, propagated or written, whatever the other arguments
    are. *)
Theorem short_state_raises_at_once (w : world) (st : list F) :
  heap w !! state = Some st ->
  (length st <= 1)%nat ->
  engine_run period0 iter_max message w = (w, Raise IndexError).
Proof.
  intros Hst Hlen.
  unfold ssdc_periodic_xzplane, mbind, M_bind.
  rewrite (getitem_ref_at _ _ _ _ Hst). unfold getitem.
  destruct (st !! 1%nat) eqn:Hy; [apply lookup_lt_Some in Hy; lia|done].
Qed.

(** X5. Every exception a run can raise is either one of the engine's own
    ([IndexError] on a read out of range, [ValueError] when the matrix cannot
    be reshaped to 6x6, the unbound local [xi]), or the exception raised by
    the propagator call that is the last event of the run, or the exception
    raised by the solver call that is the last event of the run.  The engine
    catches nothing and raises nothing else. *)
Theorem exceptions_of_a_run (w w' : world) (st : list F) (e : exn) :
  heap w !! state = Some st ->
  engine_run period0 iter_max message w = (w', Raise e) ->
  engine_exception e \/
  (exists pre st_k thalf_k,
      trace w' = trace w ++ pre ++ [CallPropagate mu st_k thalf_k] /\
      propagate propagate_cr3bp mu st_k thalf_k = Raise e) \/
  (exists pre xi ferr df,
      trace w' = trace w ++ pre ++ [CallSsdc xi ferr df] /\
      ssdc xi ferr df = Raise e).
Proof.
  intros Hst E.
  apply (run_failure _ _ st) in E
    as [(_ & -> & _)|(y & made & evs & st_k & thalf_k & fevs & Hy & Hch & Hlen &
                      Hfail & Htr & Hh)]; [left; by left| |done].
  destruct Hfail as [e Hpo|po e Hpo He|po xi ferr df e Hprep Hs
                    |po xi ferr df xii Hprep Hs Hshort].
  - right; left. exists (warning y ++ evs), st_k, thalf_k.
    split; [by rewrite Htr, <- !app_assoc|done].
  - by left.
  - right; right.
    exists (warning y ++ evs ++ [CallPropagate mu st_k thalf_k]), xi, ferr, df.
    split; [by rewrite Htr, <- !app_assoc|done].
  - left. by left.
Qed.

(** X6. A pass that raises writes nothing, also when the solver had already
    returned: after a run that raised, the array holds exactly the values
    that were handed to the last propagator call, at most one solver call
    follows that propagation in the trace, and every other array of the heap
    is as it was at entry. *)
Theorem failing_pass_writes_nothing (w w' : world) (st : list F) (e : exn) :
  heap w !! state = Some st ->
  (2 <= length st)%nat ->
  engine_run period0 iter_max message w = (w', Raise e) ->
  exists pre st_k thalf_k post,
    trace w' = trace w ++ pre ++ CallPropagate mu st_k thalf_k :: post /\
    (post = [] \/ exists xi ferr df, post = [CallSsdc xi ferr df]) /\
    heap w' !! state = Some st_k /\
    (forall l, l <> state -> heap w' !! l = heap w !! l).
Proof.
  intros Hst Hlen E.
  apply (run_failure _ _ st) in E
    as [(Hshort & _)|(y & made & evs & st_k & thalf_k & fevs & Hy & Hch & _ &
                      Hfail & Htr & Hh)]; [lia| |done].
  exists (warning y ++ evs), st_k, thalf_k.
  assert (Hheap : heap w' !! state = Some st_k /\
                  forall l, l <> state -> heap w' !! l = heap w !! l).
  { rewrite Hh. split; [apply lookup_insert_eq|].
    intros l Hl. by apply lookup_insert_ne. }
  destruct Hfail as [e Hpo|po e Hpo He|po xi ferr df e Hprep Hs
                    |po xi ferr df xii Hprep Hs Hshort].
  - exists []. split; [by rewrite Htr, <- !app_assoc|]. split; [by left|done].
  - exists []. split; [by rewrite Htr, <- !app_assoc|]. split; [by left|done].
  - exists [CallSsdc xi ferr df].
    split; [by rewrite Htr, <- !app_assoc|]. split; [right; by eexists _, _, _|done].
  - exists [CallSsdc xi ferr df].
    split; [by rewrite Htr, <- !app_assoc|]. split; [right; by eexists _, _, _|done].
Qed.

(** The last event of a chain of Newton steps is never a propagator call,
    and when it is a solver call, that call returned. *)
Lemma chain_last_event (its : list Z) (st : list F) (thalf : F) (evs : list event)
    (st_end : list F) (thalf_end : F) (c : bool) :
  chain its st thalf evs st_end thalf_end c ->
  match last evs with
  | Some (CallPropagate _ _ _) => False
  | Some (CallSsdc xi ferr df) => exists xii, ssdc xi ferr df = Ok xii
  | _ => True
  end.
Proof.
  assert (Hpass : forall st thalf xi ferr df xii iteration,
            ssdc xi ferr df = Ok xii ->
            match last ([CallPropagate mu st thalf; CallSsdc xi ferr df] ++
                          report tolDC message iteration ferr) with
            | Some (CallPropagate _ _ _) => False
            | Some (CallSsdc xi ferr df) => exists xii, ssdc xi ferr df = Ok xii
            | _ => True
            end).
  { intros st0 th0 xi ferr df xii iteration Hs. unfold report.
    destruct message; simpl; [by destruct (flt (norm ferr) tolDC)|by exists xii]. }
  induction 1 as [st thalf
                 |iteration its st thalf po xi ferr df xii st' thalf'
                    Hprep Hs Hwr Hlt
                 |iteration its st thalf po xi ferr df xii st' thalf'
                    evs st_end thalf_end c Hprep Hs Hwr Hlt Hch IH].
  - done.
  - by eapply Hpass.
  - rewrite app_assoc, last_app.
    destruct (last evs) as [ev|]; [exact IH|]. by eapply Hpass.
Qed.

Lemma warning_last_event (y : F) :
  match last (warning y) with
  | Some (Printed _) | None => True
  | _ => False
  end.
Proof. unfold warning. by destruct (fgt (fabs y) f_1e_9). Qed.

(** The last event of a run, by outcome. *)
Lemma run_last_event (w w' : world) (st : list F) (r : result (F * loc * Z))
    (evs : list event) :
  heap w !! state = Some st ->
  engine_run period0 iter_max message w = (w', r) ->
  trace w' = trace w ++ evs ->
  match last evs with
  | Some (CallPropagate mu' st_k thalf_k) =>
      exists e, r = Raise e /\ mu' = mu /\
        (propagate propagate_cr3bp mu st_k thalf_k = Raise e \/
         exists po, propagate propagate_cr3bp mu st_k thalf_k = Ok po)
  | Some (CallSsdc xi ferr df) =>
      (exists e, r = Raise e /\
         (ssdc xi ferr df = Raise e \/ exists xii, ssdc xi ferr df = Ok xii)) \/
      (exists x xii, r = Ok x /\ ssdc xi ferr df = Ok xii)
  | _ => True
  end.
Proof.
  intros Hst E Htr. destruct r as [ [ [p s] flag]|e].
  - apply run_chain in E
      as (st0 & y & evs' & st_end & thalf_end & c & _ & _ & Hch & Htr' & _).
    rewrite Htr in Htr'. apply app_inv_head in Htr'. subst evs.
    rewrite last_app.
    pose proof (chain_last_event _ _ _ _ _ _ _ Hch) as Hlast.
    destruct (last evs') as [ [m|mu' st_k th_k|xi ferr df]|] eqn:El; try done.
    + destruct Hlast as [xii Hs]. right. by eexists _, _.
    + pose proof (warning_last_event y) as Hw.
      by destruct (last (warning y)) as [ [ | | ]|].
  - apply (run_failure _ _ st) in E
      as [(_ & _ & ->)|(y & made & evs' & st_k & thalf_k & fevs & Hy & Hch & _ &
                        Hfail & Htr' & _)]; [| |done].
    + rewrite <- (app_nil_r (trace w)) in Htr at 1.
      apply app_inv_head in Htr. by subst evs.
    + rewrite Htr in Htr'. apply app_inv_head in Htr'. subst evs.
      rewrite !app_assoc, last_app.
      destruct Hfail as [e Hpo|po e Hpo He|po xi ferr df e Hprep Hs
                        |po xi ferr df xii Hprep Hs Hshort]; simpl.
      * exists e. split; [done|]. split; [done|]. by left.
      * exists e. split; [done|]. split; [done|]. right. by exists po.
      * left. exists e. split; [done|]. by left.
      * left. exists IndexError. split; [done|]. right. by exists xii.
Qed.

(** X7. The engine does not catch what the propagator raises: when the last
    event of a run is a propagator call on which the propagator raises [e],
    the run raises that same [e]. *)
Theorem propagator_exception_passes_through (w w' : world) (st : list F)
    (r : result (F * loc * Z)) (pre : list event) (st_k : list F) (thalf_k : F)
    (e : exn) :
  heap w !! state = Some st ->
  engine_run period0 iter_max message w = (w', r) ->
  trace w' = trace w ++ pre ++ [CallPropagate mu st_k thalf_k] ->
  propagate propagate_cr3bp mu st_k thalf_k = Raise e ->
  r = Raise e.
Proof.
  intros Hst E Htr Hpo.
  pose proof (run_last_event _ _ _ _ _ Hst E Htr) as Hlast.
  rewrite last_snoc in Hlast.
  destruct Hlast as (e' & -> & _ & [Hr|[po Hok] ]); congruence.
Qed.

(** X8. Nor does it catch what the solver raises (a singular matrix, for
    one): when the last event of a run is a solver call on which the solver
    raises [e], the run raises that same [e]. *)
Theorem solver_exception_passes_through (w w' : world) (st : list F)
    (r : result (F * loc * Z)) (pre : list event) (xi ferr : list F)
    (df : list (list F)) (e : exn) :
  heap w !! state = Some st ->
  engine_run period0 iter_max message w = (w', r) ->
  trace w' = trace w ++ pre ++ [CallSsdc xi ferr df] ->
  ssdc xi ferr df = Raise e ->
  r = Raise e.
Proof.
  intros Hst E Htr Hs.
  pose proof (run_last_event _ _ _ _ _ Hst E Htr) as Hlast.
  rewrite last_snoc in Hlast.
  destruct Hlast as [(e' & -> & [Hr|[xii Hok] ])|(x & xii & _ & Hok)]; congruence.
Qed.

(** *** The iteration budget *)

Definition is_propagation (e : event) : bool :=
  match e with CallPropagate _ _ _ => true | _ => false end.

Definition is_solve (e : event) : bool :=
  match e with CallSsdc _ _ _ => true | _ => false end.

(** How many events pass a test. *)
Definition count (test : event -> bool) (evs : list event) : nat :=
  length (List.filter test evs).

Lemma count_app (test : event -> bool) (a b : list event) :
  count test (a ++ b) = (count test a + count test b)%nat.
Proof. unfold count. by rewrite List.filter_app, length_app. Qed.

Lemma count_prints (test : event -> bool) (evs : list event) :
  (forall m, test (Printed m) = false) ->
  Forall is_print evs -> count test evs = 0%nat.
Proof.
  intros Htest. induction 1 as [|ev evs Hev Hall IH]; [done|].
  destruct ev; try done. unfold count in *. simpl. by rewrite Htest.
Qed.

Lemma warning_prints (y : F) : Forall is_print (warning y).
Proof. unfold warning. destruct (fgt (fabs y) f_1e_9); by repeat constructor. Qed.

Lemma chain_counts (its : list Z) (st : list F) (thalf : F) (evs : list event)
    (st_end : list F) (thalf_end : F) (c : bool) :
  chain its st thalf evs st_end thalf_end c ->
  count is_propagation evs = count is_solve evs /\
  (count is_propagation evs <= length its)%nat.
Proof.
  induction 1 as [st thalf
                 |iteration its st thalf po xi ferr df xii st' thalf'
                    Hprep Hs Hwr Hlt
                 |iteration its st thalf po xi ferr df xii st' thalf'
                    evs st_end thalf_end c Hprep Hs Hwr Hlt Hch [IHeq IHle] ].
  - split; [done|]. unfold count. simpl. lia.
  - rewrite !(count_app _ [_; _]).
    rewrite !(count_prints _ (report _ _ _ _)) by (done || apply report_prints).
    split; [done|]. unfold count. simpl. lia.
  - rewrite !(count_app _ [_; _]), !count_app.
    rewrite !(count_prints _ (report _ _ _ _)) by (done || apply report_prints).
    unfold count in *. simpl in *. split; lia.
Qed.

(** X9. [iter_max] bounds the work: whatever the outcome, a run makes at
    most [iter_max] propagator calls (none when [iter_max <= 0]) and never
    more solver calls than propagator calls; a run that returns made as many
    of one as of the other. *)
Theorem calls_within_budget (w w' : world) (st : list F)
    (r : result (F * loc * Z)) (evs : list event) :
  heap w !! state = Some st ->
  engine_run period0 iter_max message w = (w', r) ->
  trace w' = trace w ++ evs ->
  (count is_propagation evs <= Z.to_nat iter_max)%nat /\
  (count is_solve evs <= count is_propagation evs)%nat /\
  (forall x, r = Ok x -> count is_solve evs = count is_propagation evs).
Proof.
  intros Hst E Htr. destruct r as [ [ [p s] flag]|e].
  - apply run_chain in E
      as (st0 & y & evs' & st_end & thalf_end & c & _ & _ & Hch & Htr' & _).
    rewrite Htr in Htr'. apply app_inv_head in Htr'. subst evs.
    destruct (chain_counts _ _ _ _ _ _ _ Hch) as [Heq Hle].
    rewrite length_range in Hle.
    rewrite !count_app, !(count_prints _ (warning y))
      by (done || apply warning_prints).
    simpl. split; [done|]. split; [lia|]. intros _ _. lia.
  - apply (run_failure _ _ st) in E
      as [(_ & _ & ->)|(y & made & evs' & st_k & thalf_k & fevs & Hy & Hch & Hlen &
                        Hfail & Htr' & _)]; [| |done].
    + rewrite <- (app_nil_r (trace w)) in Htr at 1.
      apply app_inv_head in Htr. subst evs. unfold count. simpl.
      split; [lia|]. split; [lia|done].
    + rewrite Htr in Htr'. apply app_inv_head in Htr'. subst evs.
      destruct (chain_counts _ _ _ _ _ _ _ Hch) as [Heq Hle].
      rewrite !count_app, !(count_prints _ (warning y))
        by (done || apply warning_prints).
      assert (Hf : count is_propagation fevs = 1%nat /\
                   (count is_solve fevs <= 1)%nat).
      { destruct Hfail; unfold count; simpl; lia. }
      destruct Hf as [Hf1 Hf2]. simpl.
      split; [lia|]. split; [lia|done].
Qed.

(** X10. With fix = "z" the period returned by a run of at least one pass
    is twice the third component of what the last solver call returned:
    [period0] only sets the duration of the first propagation. *)
Theorem free_period_comes_from_solver (w w' : world) (period : F) (s : loc)
    (flag : Z) :
  fix_ = "z" ->
  (1 <= iter_max)%Z ->
  engine_run period0 iter_max message w = (w', Ok (period, s, flag)) ->
  exists pre xi ferr df msgs xii x2,
    trace w' = trace w ++ pre ++ CallSsdc xi ferr df :: msgs /\
    Forall is_print msgs /\
    ssdc xi ferr df = Ok xii /\
    xii !! 2%nat = Some x2 /\
    period = fmul x2 (fofZ 2).
Proof.
  intros Hz Hn E.
  apply run_chain in E
    as (st0 & y & evs & st_end & thalf_end & c & _ & _ & Hch & Htr & _ & -> & _).
  destruct (range_cons _ Hn) as [rest Hrange]. rewrite Hrange in Hch.
  destruct (chain_last _ _ _ _ _ _ _ _ _ _ _ _ _ Hch)
    as (pre & st_k & thalf_k & po & xi & ferr & df & xii & msgs &
        -> & Hmsgs & _ & Hs & Hwr & _); [done|].
  destruct Hwr as (x0 & x1 & x2 & _ & _ & H2 & _ & [(_ & _ & ->)|(Hp & _)]);
    [|rewrite Hz in Hp; discriminate].
  exists (warning y ++ pre ++ [CallPropagate mu st_k thalf_k]),
    xi, ferr, df, msgs, xii, x2.
  split; [by rewrite Htr, <- !app_assoc|done].
Qed.

(** X11. A negative [iter_max] is not an error: [range] of a negative
    number is empty, so the run is the run with [iter_max = 0]. *)
Theorem negative_budget_is_zero_budget (w : world) :
  (iter_max <= 0)%Z ->
  engine_run period0 iter_max message w = engine_run period0 0 message w.
Proof.
  intros Hn. unfold ssdc_periodic_xzplane, correct, range.
  by replace (Z.to_nat iter_max) with (Z.to_nat 0) by lia.
Qed.

(** *** What the propagator is asked *)

Lemma slots_even (i : nat) : i ∈ slots fix_ -> i = 0%nat \/ i = 2%nat \/ i = 4%nat.
Proof.
  unfold slots.
  destruct (String.eqb fix_ "z"); [|destruct (String.eqb fix_ "period")];
    rewrite ?elem_of_cons, elem_of_nil; tauto.
Qed.

(** An array and half-period that differ from [st] and [thalf] only where
    the mode allows. *)
Definition same_orbit_family (st : list F) (thalf : F) (st' : list F) (thalf' : F)
  : Prop :=
  length st' = length st /\
  (forall i, i ∉ slots fix_ -> st' !! i = st !! i) /\
  (fix_ <> "z" -> thalf' = thalf).

Lemma same_orbit_family_refl (st : list F) (thalf : F) :
  same_orbit_family st thalf st thalf.
Proof. by repeat split. Qed.

Lemma written_back_family (st : list F) (thalf : F) (xii st' : list F) (thalf' : F) :
  written_back fix_ st thalf xii st' thalf' ->
  same_orbit_family st thalf st' thalf'.
Proof.
  intros Hwr.
  destruct (written_back_frame propagate_cr3bp ssdc fix_ message _ _ _ _ _ Hwr)
    as [Hlen Hsame].
  split; [done|]. split; [done|]. intros Hnz.
  destruct Hwr as (? & ? & ? & _ & _ & _ & _ & [(Hz & _)|(_ & _ & ->)]); done.
Qed.

Lemma same_orbit_family_trans (st1 : list F) (th1 : F) (st2 : list F) (th2 : F)
    (st3 : list F) (th3 : F) :
  same_orbit_family st1 th1 st2 th2 ->
  same_orbit_family st2 th2 st3 th3 ->
  same_orbit_family st1 th1 st3 th3.
Proof.
  intros (Hl1 & Hs1 & Ht1) (Hl2 & Hs2 & Ht2).
  split; [congruence|]. split.
  - intros i Hi. by rewrite Hs2, Hs1.
  - intros Hnz. by rewrite Ht2, Ht1.
Qed.

Lemma chain_requests (its : list Z) (st : list F) (thalf : F) (evs : list event)
    (st_end : list F) (thalf_end : F) (c : bool) :
  chain its st thalf evs st_end thalf_end c ->
  same_orbit_family st thalf st_end thalf_end /\
  forall mu' st_k thalf_k,
    CallPropagate mu' st_k thalf_k ∈ evs ->
    mu' = mu /\ same_orbit_family st thalf st_k thalf_k.
Proof.
  assert (Hrep : forall iteration ferr mu' st_k thalf_k,
            CallPropagate mu' st_k thalf_k ∉ report tolDC message iteration ferr).
  { intros iteration ferr mu' st_k thalf_k Hin.
    pose proof (report_prints tolDC message iteration ferr) as Hall.
    rewrite Forall_forall in Hall. by apply Hall in Hin. }
  induction 1 as [st thalf
                 |iteration its st thalf po xi ferr df xii st' thalf'
                    Hprep Hs Hwr Hlt
                 |iteration its st thalf po xi ferr df xii st' thalf'
                    evs st_end thalf_end c Hprep Hs Hwr Hlt Hch [IHend IHin] ].
  - split; [apply same_orbit_family_refl|]. intros ? ? ? Hin. by inversion Hin.
  - split; [exact (written_back_family _ _ _ _ _ Hwr)|].
    intros mu' st_k thalf_k Hin.
    rewrite elem_of_app, !elem_of_cons, elem_of_nil in Hin.
    destruct Hin as [ [Hin|[Hin|[] ] ]|Hin]; [|done|by apply Hrep in Hin].
    inversion Hin; subst. split; [done|apply same_orbit_family_refl].
  - pose proof (written_back_family _ _ _ _ _ Hwr) as Hstep.
    split; [by eapply same_orbit_family_trans|].
    intros mu' st_k thalf_k Hin.
    rewrite !elem_of_app, !elem_of_cons, elem_of_nil in Hin.
    destruct Hin as [ [Hin|[Hin|[] ] ]|[Hin|Hin] ];
      [|done|by apply Hrep in Hin|].
    + inversion Hin; subst. split; [done|apply same_orbit_family_refl].
    + destruct (IHin _ _ _ Hin) as [-> Hfam].
      split; [done|]. by eapply same_orbit_family_trans.
Qed.

(** X12. Whatever the outcome of a run, every propagator call it makes is
    for the same mass ratio, on an array of the length of the initial one
    that agrees with it outside the slots of the mode - in particular on the
    components 1, 3 and 5 (y, vx, vz), whatever the mode - and, unless fix =
    "z", over the duration [period0 / 2]. *)
Theorem propagations_stay_in_family (w w' : world) (st : list F)
    (r : result (F * loc * Z)) (evs : list event) (mu' : F) (st_k : list F)
    (thalf_k : F) :
  heap w !! state = Some st ->
  engine_run period0 iter_max message w = (w', r) ->
  trace w' = trace w ++ evs ->
  CallPropagate mu' st_k thalf_k ∈ evs ->
  mu' = mu /\
  length st_k = length st /\
  (forall i, i ∉ slots fix_ -> st_k !! i = st !! i) /\
  (st_k !! 1%nat = st !! 1%nat /\ st_k !! 3%nat = st !! 3%nat /\
   st_k !! 5%nat = st !! 5%nat) /\
  (fix_ <> "z" -> thalf_k = fdiv period0 (fofZ 2)).
Proof.
  intros Hst E Htr Hin.
  assert (Hfam : mu' = mu /\
                 same_orbit_family st (fdiv period0 (fofZ 2)) st_k thalf_k).
  { assert (Hwarn : forall y, CallPropagate mu' st_k thalf_k ∉ warning y).
    { intros y Hy. pose proof (warning_prints y) as Hall.
      rewrite Forall_forall in Hall. by apply Hall in Hy. }
    destruct r as [ [ [p s] flag]|e].
    - apply run_chain in E
        as (st0 & y & evs' & st_end & thalf_end & c & Hst0 & _ & Hch & Htr' & _).
      rewrite Hst in Hst0. inversion Hst0; subst st0.
      rewrite Htr in Htr'. apply app_inv_head in Htr'. subst evs.
      apply elem_of_app in Hin as [Hin|Hin]; [by apply Hwarn in Hin|].
      by apply (chain_requests _ _ _ _ _ _ _ Hch).
    - apply (run_failure _ _ st) in E
        as [(_ & _ & ->)|(y & made & evs' & st_f & thalf_f & fevs & Hy & Hch & _ &
                          Hfail & Htr' & _)]; [| |done].
      + rewrite <- (app_nil_r (trace w)) in Htr at 1.
        apply app_inv_head in Htr. subst evs. by inversion Hin.
      + rewrite Htr in Htr'. apply app_inv_head in Htr'. subst evs.
        destruct (chain_requests _ _ _ _ _ _ _ Hch) as [Hend Hreq].
        rewrite !elem_of_app in Hin.
        destruct Hin as [Hin|[Hin|Hin] ]; [by apply Hwarn in Hin|by apply Hreq|].
        assert (Hlast : CallPropagate mu' st_k thalf_k
                        = CallPropagate mu st_f thalf_f).
        { destruct Hfail; rewrite ?elem_of_cons, elem_of_nil in Hin;
            destruct Hin as [Hin|Hin]; try done; by destruct Hin. }
        inversion Hlast; subst. done. }
  destruct Hfam as [-> (Hlen & Hsame & Hth)].
  split; [done|]. split; [done|]. split; [done|]. split; [|done].
  repeat split; apply Hsame; intros Hi; apply slots_even in Hi; lia.
Qed.

End failures.

(** *** Verbosity *)

(** The calls of the collaborators among some events. *)
Definition is_call (e : event) : bool :=
  match e with Printed _ => false | _ => true end.

Definition calls (evs : list event) : list event := List.filter is_call evs.

Lemma calls_app (a b : list event) : calls (a ++ b) = calls a ++ calls b.
Proof. apply List.filter_app. Qed.

(** Two outcomes that differ at most in what was printed. *)
Definition same_but_prints {A} (a b : world * result A) : Prop :=
  a.2 = b.2 /\ heap a.1 = heap b.1 /\ calls (trace a.1) = calls (trace b.1).

Lemma pass_quiet (iteration : Z) (lv : locals) (h : gmap loc (list F)) :
  same_but_prints (pass true iteration lv (World h []))
                  (pass false iteration lv (World h [])).
Proof.
  unfold same_but_prints, iteration_body, mbind, M_bind, lift.
  destruct (call_propagate propagate_cr3bp mu state (v_thalf lv) (World h []))
    as [w1 [po|e] ]; [|done].
  destruct (free_variables fix_ state lv w1) as [w2 [xi|e] ]; [|done].
  destruct (array3 (statef po) 1 3 5) as [ferr|e]; [|done].
  destruct (result_mbind _ _ _ (last_column (stms po))) as [stm|e]; [|done].
  destruct (jacobian fix_ stm po lv) as [df|e]; [|done].
  destruct (local "xi" xi w2) as [w3 [xi_v|e] ]; [|done].
  destruct (local "df" df w3) as [w4 [df_v|e] ]; [|done].
  destruct (call_ssdc ssdc xi_v ferr df_v w4) as [w5 [xii|e] ]; [|done].
  destruct (write_back fix_ state xii lv w5) as [w6 [thalf'|e] ]; [|done].
  destruct (flt (norm ferr) tolDC); unfold emit, mret, M_ret; simpl;
    rewrite calls_app; simpl; by rewrite app_nil_r.
Qed.

Lemma same_but_prints_from {A} (ma mb : M A) (h : gmap loc (list F))
    (ta tb : list event) :
  trace_blind ma -> trace_blind mb ->
  calls ta = calls tb ->
  same_but_prints (ma (World h [])) (mb (World h [])) ->
  same_but_prints (ma (World h ta)) (mb (World h tb)).
Proof.
  intros Ha Hb Ht (Hr & Hh & Hc). unfold same_but_prints.
  rewrite (Ha h ta), (Hb h tb). simpl.
  split; [done|]. split; [done|]. by rewrite !calls_app, Ht, Hc.
Qed.

Lemma loop_quiet (its : list Z) (lv : locals) (h : gmap loc (list F)) :
  same_but_prints (for_loop its (pass true) lv (World h []))
                  (for_loop its (pass false) lv (World h [])).
Proof.
  revert lv h. induction its as [|iteration its IH]; intros lv h; [done|].
  simpl. unfold mbind, M_bind.
  destruct (pass_quiet iteration lv h) as (Hr & Hh & Hc).
  destruct (pass true iteration lv (World h [])) as [ [ha ta] ra].
  destruct (pass false iteration lv (World h [])) as [ [hb tb] rb].
  simpl in *. subst rb hb.
  destruct ra as [ [lv1 brk]|e]; [|done].
  destruct brk; [done|].
  apply same_but_prints_from; try done; apply blind_for_loop.
Qed.

(** X13. [message] only decides what is printed.  Run with and without it
    from the same world, the engine gives the same result (or raises the same
    exception), leaves the same heap and makes the same calls of the
    propagator and of the solver, in the same order and with the same
    arguments; it never decides whether a pass is made. *)
Theorem message_only_prints (period0 : F) (iter_max : Z) (w : world) :
  (engine_run period0 iter_max true w).2 = (engine_run period0 iter_max false w).2 /\
  heap (engine_run period0 iter_max true w).1
    = heap (engine_run period0 iter_max false w).1 /\
  calls (trace (engine_run period0 iter_max true w).1)
    = calls (trace (engine_run period0 iter_max false w).1).
Proof.
  assert (Hcorrect : forall h,
    same_but_prints
      (correct propagate_cr3bp ssdc mu state period0 fix_ tolDC iter_max true
         (World h []))
      (correct propagate_cr3bp ssdc mu state period0 fix_ tolDC iter_max false
         (World h []))).
  { intros h. unfold correct, mbind, M_bind.
    destruct (loop_quiet (range iter_max)
                (Locals (fdiv period0 (fofZ 2)) None None 0) h) as (Hr & Hh & Hc).
    destruct (for_loop (range iter_max) (pass true) _ (World h []))
      as [ [ha ta] ra].
    destruct (for_loop (range iter_max) (pass false) _ (World h []))
      as [ [hb tb] rb].
    simpl in *. subst rb hb. by destruct ra. }
  change (same_but_prints (engine_run period0 iter_max true w)
                          (engine_run period0 iter_max false w)).
  unfold ssdc_periodic_xzplane, mbind, M_bind.
  destruct (getitem_ref state 1 w) as [w1 [y|e] ]; [|done].
  destruct (fgt (fabs y) f_1e_9); unfold emit, mret, M_ret; simpl;
    destruct w1 as [h t];
    (apply same_but_prints_from; [apply blind_correct|apply blind_correct|done|]);
    apply Hcorrect.
Qed.

(** *** A propagation result of the wrong shape *)

(** X14. The final state-transition matrix must have 36 entries.  When the
    first propagation returns a history whose last column has another
    length, the run raises [ValueError] at the reshape of line 47: after the
    free variables and the residual were read, before the solver is called,
    and with nothing written. *)
Theorem wrong_matrix_shape_raises (message : bool) (period0 : F) (iter_max : Z)
    (w : world) (st : list F) (y : F) (po : propout) (col : list F) :
  valid_mode fix_ ->
  (1 <= iter_max)%Z ->
  heap w !! state = Some st ->
  (5 <= length st)%nat ->
  st !! 1%nat = Some y ->
  propagate propagate_cr3bp mu st (fdiv period0 (fofZ 2)) = Ok po ->
  (6 <= length (statef po))%nat ->
  last_column (stms po) = Ok col ->
  length col <> 36%nat ->
  engine_run period0 iter_max message w =
    (World (heap w)
       (trace w ++ warning y ++ [CallPropagate mu st (fdiv period0 (fofZ 2))]),
     Raise ValueError).
Proof.
  intros Hvalid Hn Hst Hlen Hy Hpo Hsf Hcol Hshape.
  rewrite (run_unfold _ _ _ _ _ _ _ _ _ _ st y Hst Hy).
  destruct (range_cons _ Hn) as [rest Hrange].
  set (w1 := after_warning w y).
  set (lv0 := Locals (fdiv period0 (fofZ 2)) None None 0).
  assert (Hst1 : heap w1 !! state = Some st) by done.
  assert (Hpass : pass message 0 lv0 w1 =
            (World (heap w1)
               (trace w1 ++ [CallPropagate mu st (fdiv period0 (fofZ 2))]),
             Raise ValueError)).
  { unfold iteration_body.
    pose proof (call_propagate_run propagate_cr3bp mu state
                  (fdiv period0 (fofZ 2)) w1 st Hst1) as Hcall.
    rewrite Hpo in Hcall. simpl v_thalf.
    rewrite (bind_run _ _ _ _ _ Hcall).
    set (w2 := World (heap w1)
                 (trace w1 ++ [CallPropagate mu st (fdiv period0 (fofZ 2))])).
    destruct (free_variables_run state fix_ lv0 w2 st Hvalid Hst1 Hlen)
      as (xi & Hxi & _).
    rewrite (bind_run _ _ _ _ _ Hxi).
    destruct (array3_total (statef po) 1 3 5) as (ferr & Hferr & _);
      [lia|lia|lia|].
    rewrite Hferr. rewrite (bind_run _ _ w2 w2 ferr) by done.
    assert (Hre : reshape col 6 6 = Raise ValueError).
    { unfold reshape. by destruct (Nat.eqb_spec (length col) (6 * 6)). }
    unfold mbind at 1, M_bind at 1, lift at 1.
    unfold mbind at 1, result_mbind at 1. rewrite Hcol. simpl result_bind.
    by rewrite Hre. }
  unfold correct. rewrite Hrange. simpl for_loop.
  fold lv0. unfold mbind, M_bind. rewrite Hpass.
  subst w1. unfold after_warning. simpl. by rewrite <- app_assoc.
Qed.

(** ** Every pass, from the propagation to the solver call *)

Section iterations.
Variables (message : bool) (period0 : F) (iter_max : Z).

Lemma bind_raise {A B} (m : M A) (k : A -> M B) (w w1 : world) (e : exn) :
  m w = (w1, Raise e) -> (x ← m; k x) w = (w1, Raise e).
Proof. intros E. unfold mbind, M_bind. by rewrite E. Qed.

(** Lines 39-58 raise nothing of their own when the mode is known, the array
    has its five leading components and the propagation result has the shape
    the engine reads: the pass gets as far as the solver call, with arguments
    prepared from this propagation. *)
Lemma pass_reaches_solver (iteration : Z) (lv : locals) (w : world) (st : list F)
    (po : propout) :
  valid_mode fix_ ->
  heap w !! state = Some st ->
  (5 <= length st)%nat ->
  propagate propagate_cr3bp mu st (v_thalf lv) = Ok po ->
  well_formed po ->
  exists xi ferr df w' r post,
    prepared propagate_cr3bp mu fix_ st (v_thalf lv) po xi ferr df /\
    pass message iteration lv w = (w', r) /\
    trace w' =
      trace w ++ [CallPropagate mu st (v_thalf lv); CallSsdc xi ferr df] ++ post.
Proof.
  intros Hvalid Hst Hlen Hpo (Hsf & Hdf & Hms & Hrows).
  unfold iteration_body.
  pose proof (call_propagate_run propagate_cr3bp mu state (v_thalf lv) w st Hst)
    as Hcall.
  rewrite Hpo in Hcall. rewrite (bind_run _ _ _ _ _ Hcall). clear Hcall.
  set (w1 := World (heap w) (trace w ++ [CallPropagate mu st (v_thalf lv)])).
  assert (Hst1 : heap w1 !! state = Some st) by done.
  destruct (free_variables_run state fix_ lv w1 st Hvalid Hst1 Hlen)
    as (xi & Hxi & Hfree).
  rewrite (bind_run _ _ _ _ _ Hxi).
  destruct (array3_total (statef po) 1 3 5) as (ferr & Hferr & _);
    [lia|lia|lia|].
  rewrite Hferr. rewrite (bind_run _ _ w1 w1 ferr) by done.
  destruct (last_column_total _ Hrows) as (col & Hcol & Hclen).
  rewrite Hms in Hclen.
  assert (Hstm : reshape col 6 6 = Ok (chunks 6 6 col)).
  { unfold reshape. by rewrite Hclen. }
  rewrite (bind_run _ _ w1 w1 (chunks 6 6 col))
    by (unfold lift, mbind, result_mbind; by rewrite Hcol; simpl; rewrite Hstm).
  destruct (jacobian_total fix_ po col lv Hvalid Hdf Hclen) as [df Hjac].
  rewrite Hjac. rewrite (bind_run _ _ w1 w1 (Some df)) by done.
  simpl local. rewrite (bind_run _ _ w1 w1 xi) by done.
  rewrite (bind_run _ _ w1 w1 df) by done.
  assert (Hprep : prepared propagate_cr3bp mu fix_ st (v_thalf lv) po xi ferr df).
  { split; try done.
    by apply (jacobian_sensitivity fix_ po col (chunks 6 6 col) lv). }
  exists xi, ferr, df.
  pose proof (call_ssdc_run ssdc xi ferr df w1) as Hcall.
  set (w2 := World (heap w1) (trace w1 ++ [CallSsdc xi ferr df])) in *.
  assert (Htr2 : trace w2 =
            trace w ++ [CallPropagate mu st (v_thalf lv); CallSsdc xi ferr df])
    by (simpl; by rewrite <- app_assoc).
  destruct (ssdc xi ferr df) as [xii|e].
  - rewrite (bind_run _ _ _ _ _ Hcall).
    destruct (write_back fix_ state xii lv w2) as [w3 rw] eqn:Hwb.
    pose proof Hwb as Hwb'.
    apply (write_back_inv propagate_cr3bp ssdc state fix_ message _ _ _ _ _ st)
      in Hwb' as [(st' & th' & Hwr & Ew & Er)|(Htr3 & _ & e & Er)];
      [| |done|done]; subst rw.
    + rewrite (bind_run _ _ _ _ _ Hwb). subst w3.
      destruct (flt (norm ferr) tolDC); destruct message;
        unfold mbind, M_bind, emit, mret, M_ret; simpl;
        eexists _, _, _; (split; [done|]); (split; [reflexivity|]);
        simpl; rewrite <- ?app_assoc; simpl; reflexivity.
    + rewrite (bind_raise _ _ _ _ _ Hwb). exists w3, (Raise e), [].
      split; [done|]. split; [done|]. by rewrite Htr3, Htr2.
  - rewrite (bind_raise _ _ _ _ _ Hcall). exists w2, (Raise e), [].
    split; [done|]. split; [done|]. by rewrite Htr2.
Qed.

(** In a sequence of events, every propagator call that returned a result
    of the right shape is followed at once by the solver call prepared from
    it. *)
Definition answered (evs : list event) : Prop :=
  forall pre mu' st_k thalf_k post po,
    evs = pre ++ CallPropagate mu' st_k thalf_k :: post ->
    propagate propagate_cr3bp mu' st_k thalf_k = Ok po ->
    well_formed po ->
    exists xi ferr df post',
      post = CallSsdc xi ferr df :: post' /\
      prepared propagate_cr3bp mu fix_ st_k thalf_k po xi ferr df.

Lemma answered_prints (evs : list event) : Forall is_print evs -> answered evs.
Proof.
  intros Hall pre mu' st_k thalf_k post po ->.
  apply Forall_app in Hall as [_ Hall]. by inversion Hall.
Qed.

Lemma answered_app (a b : list event) :
  answered a -> answered b -> answered (a ++ b).
Proof.
  intros Ha Hb pre mu' st_k thalf_k post po E Hpo Hwf.
  apply app_eq_inv in E as [(k & Ea & Eb)|(k & Ea & Eb)].
  - destruct k as [|e k]; simpl in Eb.
    + by apply (Hb [] mu' st_k thalf_k post po).
    + inversion Eb; subst.
      destruct (Ha pre mu' st_k thalf_k k po eq_refl Hpo Hwf)
        as (xi & ferr & df & post' & -> & Hprep).
      by exists xi, ferr, df, (post' ++ b).
  - by apply (Hb k mu' st_k thalf_k post po).
Qed.

Lemma answered_call (st : list F) (thalf : F) (po : propout) (xi ferr : list F)
    (df : list (list F)) :
  prepared propagate_cr3bp mu fix_ st thalf po xi ferr df ->
  answered [CallPropagate mu st thalf; CallSsdc xi ferr df].
Proof.
  intros Hprep pre mu' st_k thalf_k post po' E Hpo _.
  destruct pre as [|e [|e' [|e'' pre] ] ]; inversion E; subst.
  rewrite (prep_propagate _ _ _ _ _ _ _ _ _ Hprep) in Hpo.
  inversion Hpo; subst po'. by exists xi, ferr, df, [].
Qed.

Lemma pass_answered (iteration : Z) (lv : locals) (w w' : world)
    (r : result (locals * bool)) (st : list F) :
  valid_mode fix_ ->
  heap w !! state = Some st ->
  (5 <= length st)%nat ->
  pass message iteration lv w = (w', r) ->
  exists evs, trace w' = trace w ++ evs /\ answered evs.
Proof.
  intros Hvalid Hst Hlen E.
  pose proof (iteration_body_outcome _ _ _ _ _ _ _ _ _ _ _ _ (or_introl Hvalid) E)
    as Ho.
  destruct Ho as [e Hn|st0 e Hst0|st0 po xi ferr df w1 e Hst0 Hprep Htr Hto
                 |st0 po xi ferr df xii st' th' Hst0 Hprep Hs Hwr].
  - congruence.
  - rewrite Hst in Hst0. inversion Hst0; subst st0.
    eexists. split; [done|].
    intros pre mu' st_k thalf_k post po E' Hpo Hwf.
    destruct pre as [|e1 pre]; [|by destruct pre].
    simpl in E'. inversion E' as [ [Hmu Hstk Hth Hpost] ].
    rewrite <- Hmu, <- Hstk, <- Hth in Hpo.
    destruct (pass_reaches_solver iteration lv w st po Hvalid Hst Hlen Hpo Hwf)
      as (xi & ferr & df & w'' & r'' & post' & _ & E'' & Htr'').
    rewrite E in E''. inversion E''; subst w''. simpl in Htr''.
    apply app_inv_head in Htr''. discriminate.
  - eexists. split; [done|]. by eapply answered_call.
  - eexists. split; [done|].
    apply (answered_app [_; _]); [by eapply answered_call|].
    apply answered_prints, report_prints.
Qed.

Lemma loop_answered (its : list Z) (lv : locals) (w w' : world)
    (r : result locals) (st : list F) :
  valid_mode fix_ ->
  heap w !! state = Some st ->
  (5 <= length st)%nat ->
  for_loop its (pass message) lv w = (w', r) ->
  exists evs, trace w' = trace w ++ evs /\ answered evs.
Proof.
  intros Hvalid. revert lv w st.
  induction its as [|iteration its IH]; intros lv w st Hst Hlen E.
  - apply ret_inv in E as [-> _]. exists []. rewrite app_nil_r.
    split; [done|]. by apply answered_prints.
  - simpl in E.
    apply bind_inv in E as [(w1 & [lv1 brk] & Hb & E)|(e & Hb & ->)];
      [|by eapply pass_answered].
    destruct (pass_answered _ _ _ _ _ st Hvalid Hst Hlen Hb)
      as (evs1 & Htr1 & Ha1).
    destruct brk.
    + apply ret_inv in E as [-> _]. by exists evs1.
    + pose proof (iteration_body_outcome _ _ _ _ _ _ _ _ _ _ _ _
                    (or_introl Hvalid) Hb) as Ho.
      apply iteration_outcome_Ok in Ho
        as (st0 & po & xi & ferr & df & xii & st' & th' & Hst0 & Hprep & Hs &
            Hwr & _ & Ew & _).
      rewrite Hst in Hst0. inversion Hst0; subst st0.
      destruct (written_back_frame propagate_cr3bp ssdc fix_ message _ _ _ _ _ Hwr)
        as [Hl _].
      destruct (IH lv1 w1 st') as (evs2 & Htr2 & Ha2);
        [rewrite Ew; simpl; apply lookup_insert_eq|lia|done|].
      exists (evs1 ++ evs2).
      split; [by rewrite Htr2, Htr1, app_assoc|by apply answered_app].
Qed.

(** The events of a run: the first pass is made when the budget allows
    one, every propagation that returned is answered by the solver call
    prepared from it, and every solver call answers the propagation just
    before it. *)
Lemma run_passes (w w' : world) (r : result (F * loc * Z)) (st : list F)
    (evs : list event) :
  valid_mode fix_ ->
  heap w !! state = Some st ->
  (5 <= length st)%nat ->
  engine_run period0 iter_max message w = (w', r) ->
  trace w' = trace w ++ evs ->
  ((1 <= iter_max)%Z ->
   exists msgs post,
     Forall is_print msgs /\
     evs = msgs ++ CallPropagate mu st (fdiv period0 (fofZ 2)) :: post) /\
  answered evs /\
  paired propagate_cr3bp mu fix_ evs.
Proof.
  intros Hvalid Hst Hlen E Htr.
  destruct (lookup_lt_is_Some_2 st 1) as [y Hy]; [lia|].
  destruct (run_paired _ _ _ _ _ _ _ _ _ _ _ _ E) as (evs0 & Htr0 & Hp0).
  rewrite Htr in Htr0. apply app_inv_head in Htr0. subst evs0.
  rewrite (run_unfold _ _ _ _ _ _ _ _ _ _ st y Hst Hy) in E.
  assert (Hl : exists rl,
            for_loop (range iter_max) (pass message)
              (Locals (fdiv period0 (fofZ 2)) None None 0) (after_warning w y)
            = (w', rl)).
  { unfold correct in E.
    apply bind_inv in E as [(w1 & lv & Hl & E)|(e' & Hl & Ee)].
    - apply ret_inv in E as [-> _]. by eexists.
    - by eexists. }
  destruct Hl as [rl Hl].
  assert (Hst1 : heap (after_warning w y) !! state = Some st) by done.
  destruct (loop_answered _ _ _ _ _ st Hvalid Hst1 Hlen Hl) as (evs1 & Htr1 & Ha1).
  assert (Hevs : evs = warning y ++ evs1).
  { simpl in Htr1. rewrite Htr, <- app_assoc in Htr1.
    by apply app_inv_head in Htr1. }
  split; [|split; [|done] ].
  - intros Hn. destruct (range_cons _ Hn) as [rest Hrange].
    rewrite Hrange in Hl.
    apply for_loop_outcome in Hl; [|by left].
    apply (loop_first_event _ _ _ _ _ _ _ _ _ _ _ _ _ st) in Hl as [post Hfirst];
      [|done].
    rewrite Htr1 in Hfirst. apply app_inv_head in Hfirst.
    exists (warning y), post. split; [apply warning_prints|].
    by rewrite Hevs, Hfirst.
  - rewrite Hevs. apply answered_app; [|done].
    apply answered_prints, warning_prints.
Qed.

(** *** The loop goes on *)

Lemma split_app_at (a b pre post : list event) (e : event) :
  a ++ b = pre ++ e :: post ->
  (exists k, a = pre ++ e :: k /\ post = k ++ b) \/
  (exists k, pre = a ++ k /\ b = k ++ e :: post).
Proof.
  intros E. apply app_eq_inv in E as [(k & Ea & Eb)|(k & Ea & Eb)].
  - destruct k as [|e' k]; simpl in Eb.
    + rewrite app_nil_r in Ea. right. exists []. by rewrite app_nil_r, Ea.
    + inversion Eb; subst. left. by exists k.
  - right. by exists k.
Qed.

Lemma prints_no_solve (evs pre post : list event) (xi ferr : list F)
    (df : list (list F)) :
  Forall is_print evs -> evs = pre ++ CallSsdc xi ferr df :: post -> False.
Proof.
  intros Hall ->. apply Forall_app in Hall as [_ Hall]. by inversion Hall.
Qed.

Abbreviation passes :=
  (newton_chain propagate_cr3bp ssdc mu fix_ tolDC message).

Lemma chain_first (iteration : Z) (its : list Z) (st : list F) (thalf : F)
    (evs : list event) (st_end : list F) (thalf_end : F) (c : bool) :
  passes (iteration :: its) st thalf evs st_end thalf_end c ->
  exists post, evs = CallPropagate mu st thalf :: post.
Proof. inversion 1; subst; by eexists. Qed.

(** In a chain of completed passes followed by [tail], a solver call whose
    residual was not below the tolerance is followed, after the progress
    line, by the propagator call of the next pass, as long as passes remain:
    [tail] is either empty, and then at most [length its] passes are asked
    for, or it starts with a propagator call. *)
Lemma chain_goes_on (its : list Z) (st : list F) (thalf : F) (evs : list event)
    (st_end : list F) (thalf_end : F) (c : bool) :
  passes its st thalf evs st_end thalf_end c ->
  forall (tail : list event) (n : nat),
    (tail = [] /\ (n <= length its)%nat) \/
    (exists st' thalf' post', tail = CallPropagate mu st' thalf' :: post') ->
    forall pre xi ferr df post,
      evs = pre ++ CallSsdc xi ferr df :: post ->
      flt (norm ferr) tolDC = false ->
      (count is_propagation pre < n)%nat ->
      exists msgs st' thalf' post',
        Forall is_print msgs /\
        post ++ tail = msgs ++ CallPropagate mu st' thalf' :: post'.
Proof.
  induction 1 as [st thalf
                 |iteration its st thalf po xi0 ferr0 df0 xii0 st1 thalf1
                    Hprep Hs Hwr Hlt
                 |iteration its st thalf po xi0 ferr0 df0 xii0 st1 thalf1
                    evs st_end thalf_end c Hprep Hs Hwr Hlt Hch IH];
    intros tail n Htail pre xi ferr df post E Hfalse Hcount.
  - by destruct pre.
  - exfalso. destruct pre as [|e1 [|e2 pre] ]; simpl in E.
    + discriminate.
    + congruence.
    + injection E as _ _ E.
      by apply (prints_no_solve _ _ _ _ _ _ (report_prints _ _ iteration ferr0)) in E.
  - destruct pre as [|e1 [|e2 pre] ]; simpl in E.
    + discriminate.
    + injection E as He1 _ _ _ Epost. subst e1 post.
      exists (report tolDC message iteration ferr0). rewrite <- app_assoc.
      destruct its as [|iteration' its].
      * inversion Hch; subst. simpl.
        destruct Htail as [ [_ Hn]|(st' & thalf' & post' & ->)].
        { unfold count in Hcount. simpl in *. lia. }
        exists st', thalf', post'. split; [apply report_prints|done].
      * destruct (chain_first _ _ _ _ _ _ _ _ Hch) as [post' ->].
        exists st1, thalf1, (post' ++ tail).
        split; [apply report_prints|done].
    + injection E as He1 He2 E. subst e1 e2.
      apply split_app_at in E as [(k & Ek & _)|(k & -> & Ek)].
      { exfalso. by apply (prints_no_solve _ _ _ _ _ _
                             (report_prints _ _ iteration ferr0)) in Ek. }
      apply (IH tail (pred n)) with (pre := k) (xi := xi) (ferr := ferr) (df := df);
        try done.
      * destruct Htail as [ [-> Hn]|Hstart]; [left|by right].
        split; [done|]. simpl in Hn. lia.
      * assert (Hrep : count is_propagation
                         (report tolDC message iteration ferr0) = 0%nat)
          by (apply count_prints; [done|apply report_prints]).
        unfold count in *. simpl in Hcount.
        rewrite List.filter_app, length_app in Hcount. lia.
Qed.

(** After a solver call that returned its three components on a residual
    not below the tolerance, the next pass is started whenever fewer than
    [iter_max] propagations were made so far. *)
Lemma run_goes_on (w w' : world) (r : result (F * loc * Z)) (st : list F)
    (evs : list event) :
  heap w !! state = Some st ->
  engine_run period0 iter_max message w = (w', r) ->
  trace w' = trace w ++ evs ->
  forall pre xi ferr df post xii,
    evs = pre ++ CallSsdc xi ferr df :: post ->
    ssdc xi ferr df = Ok xii ->
    (3 <= length xii)%nat ->
    flt (norm ferr) tolDC = false ->
    (count is_propagation pre < Z.to_nat iter_max)%nat ->
    exists msgs st' thalf' post',
      Forall is_print msgs /\
      post = msgs ++ CallPropagate mu st' thalf' :: post'.
Proof.
  intros Hst E Htr pre xi ferr df post xii Hev Hok Hlen3 Hfalse Hcount.
  destruct r as [ [ [p s] flag]|e].
  - apply run_chain in E
      as (st0 & y & evs' & st_end & thalf_end & c & _ & _ & Hch & Htr' & _).
    rewrite Htr in Htr'. apply app_inv_head in Htr'. rewrite Htr' in Hev.
    apply split_app_at in Hev as [(k & Ek & _)|(k & -> & Ek)].
    { exfalso. by apply (prints_no_solve _ _ _ _ _ _ (warning_prints y)) in Ek. }
    rewrite count_app, (count_prints _ (warning y)) in Hcount
      by (done || apply warning_prints).
    destruct (chain_goes_on _ _ _ _ _ _ _ Hch [] (Z.to_nat iter_max))
      with (pre := k) (xi := xi) (ferr := ferr) (df := df) (post := post)
      as (msgs & st' & thalf' & post' & Hmsgs & Hpost); try done.
    { left. split; [done|]. by rewrite length_range. }
    rewrite app_nil_r in Hpost. by exists msgs, st', thalf', post'.
  - apply (run_failure _ _ _ _ _ st) in E
      as [(_ & _ & ->)|(y & made & evs' & st_k & thalf_k & fevs & Hy & Hch & _ &
                        Hfail & Htr' & _)]; [| |done].
    { rewrite <- (app_nil_r (trace w)) in Htr at 1.
      apply app_inv_head in Htr. subst evs. by destruct pre. }
    rewrite Htr in Htr'. apply app_inv_head in Htr'. rewrite Htr' in Hev.
    apply split_app_at in Hev as [(k & Ek & _)|(k & -> & Ek)].
    { exfalso. by apply (prints_no_solve _ _ _ _ _ _ (warning_prints y)) in Ek. }
    rewrite count_app, (count_prints _ (warning y)) in Hcount
      by (done || apply warning_prints).
    apply split_app_at in Ek as [(k' & Ek' & ->)|(k' & -> & Ek')].
    + destruct (chain_goes_on _ _ _ _ _ _ _ Hch fevs (Z.to_nat iter_max))
        with (pre := k) (xi := xi) (ferr := ferr) (df := df) (post := k')
        as (msgs & st' & thalf' & post' & Hmsgs & Hpost); try done.
      { right. destruct Hfail; by eexists _, _, _. }
      by exists msgs, st', thalf', post'.
    + exfalso.
      destruct Hfail as [e' Hpo|po e' Hpo He|po xi' ferr' df' e' Hprep Hs
                        |po xi' ferr' df' xii' Hprep Hs Hshort];
        destruct k' as [|e1 [|e2 k'] ]; simpl in Ek'; try discriminate;
        try (by destruct k');
        injection Ek' as _ -> -> ->.
      * congruence.
      * rewrite Hok in Hs. inversion Hs; subst xii'. lia.
Qed.

(** *** The sensitivity matrix of every pass *)

(** The matrix of lines 49-56, entry by entry, for a propagation result
    [po]: rows from the equations 1, 3, 5; with fix = "z" the columns 0 and 4
    of the state-transition matrix and the final-state derivative, with
    fix = "period" the columns 0, 2, 4 of the state-transition matrix. *)
Definition layout (po : propout) (df : list (list F)) : Prop :=
  (fix_ = "z" ->
   map (map Some) df =
     [ [stm_entry po 1 0; stm_entry po 1 4; dstatef po !! 1%nat];
       [stm_entry po 3 0; stm_entry po 3 4; dstatef po !! 3%nat];
       [stm_entry po 5 0; stm_entry po 5 4; dstatef po !! 5%nat] ]) /\
  (fix_ = "period" ->
   map (map Some) df =
     [ [stm_entry po 1 0; stm_entry po 1 2; stm_entry po 1 4];
       [stm_entry po 3 0; stm_entry po 3 2; stm_entry po 3 4];
       [stm_entry po 5 0; stm_entry po 5 2; stm_entry po 5 4] ]).

Lemma sensitivity_layout (po : propout) (df : list (list F)) :
  sensitivity_of fix_ po df -> layout po df.
Proof.
  intros [ [Hz Hdf]|[Hp Hdf] ]; split; try done.
  - rewrite Hz. discriminate.
  - rewrite Hp. discriminate.
Qed.

(** C3. Every pass of the loop starts with the propagator call of line 39.
    In a run on a mode the engine knows, from an array with its five
    leading components:
    - the first pass is made as soon as [iter_max >= 1], and after a solver
      call that returned its three components on a residual not below the
      tolerance the next pass is made, as long as fewer than [iter_max]
      were;
    - whenever a propagator call of the run returned a result [po] of the
      shape the engine reads, the next event is the solver call of that pass
      and its matrix has the layout of lines 49-56, built from [po]: rows
      from the equations 1, 3, 5, and as columns the columns 0 and 4 of the
      final state-transition matrix followed by the final-state derivative
      (fix = "z"), or the columns 0, 2, 4 of the state-transition matrix
      (fix = "period");
    - conversely every solver call of the run comes right after the
      propagator call of its pass and its matrix has that layout for the
      result of that call: no matrix is carried over or built otherwise. *)
Theorem jacobian_layout (w w' : world) (r : result (F * loc * Z)) (st : list F)
    (evs : list event) :
  valid_mode fix_ ->
  heap w !! state = Some st ->
  (5 <= length st)%nat ->
  engine_run period0 iter_max message w = (w', r) ->
  trace w' = trace w ++ evs ->
  ((1 <= iter_max)%Z ->
   exists msgs post,
     Forall is_print msgs /\
     evs = msgs ++ CallPropagate mu st (fdiv period0 (fofZ 2)) :: post) /\
  (forall pre xi ferr df post xii,
     evs = pre ++ CallSsdc xi ferr df :: post ->
     ssdc xi ferr df = Ok xii ->
     (3 <= length xii)%nat ->
     flt (norm ferr) tolDC = false ->
     (count is_propagation pre < Z.to_nat iter_max)%nat ->
     exists msgs st' thalf' post',
       Forall is_print msgs /\
       post = msgs ++ CallPropagate mu st' thalf' :: post') /\
  (forall pre mu' st_k thalf_k post po,
     evs = pre ++ CallPropagate mu' st_k thalf_k :: post ->
     propagate propagate_cr3bp mu' st_k thalf_k = Ok po ->
     well_formed po ->
     exists xi ferr df post',
       post = CallSsdc xi ferr df :: post' /\ layout po df) /\
  (forall pre xi ferr df post,
     evs = pre ++ CallSsdc xi ferr df :: post ->
     exists pre' st_k thalf_k po,
       pre = pre' ++ [CallPropagate mu st_k thalf_k] /\
       propagate propagate_cr3bp mu st_k thalf_k = Ok po /\
       layout po df).
Proof.
  intros Hvalid Hst Hlen E Htr.
  destruct (run_passes w w' r st evs Hvalid Hst Hlen E Htr) as (Hfirst & Ha & Hp).
  split; [done|]. split; [exact (run_goes_on w w' r st evs Hst E Htr)|]. split.
  - intros pre mu' st_k thalf_k post po Hev Hpo Hwf.
    destruct (Ha pre mu' st_k thalf_k post po Hev Hpo Hwf)
      as (xi & ferr & df & post' & -> & [_ _ _ Hdf]).
    exists xi, ferr, df, post'. split; [done|]. by apply sensitivity_layout.
  - intros pre xi ferr df post Hev.
    destruct (Hp pre xi ferr df post Hev)
      as (pre' & st_k & thalf_k & po & -> & [Hpo _ _ Hdf]).
    exists pre', st_k, thalf_k, po. do 2 (split; [done|]).
    by apply sensitivity_layout.
Qed.

(** *** The residual of every pass *)

(** The residual of line 45 for a propagation result [po]. *)
Definition residual_of (po : propout) (ferr : list F) : Prop :=
  exists y vx vz,
    statef po !! 1%nat = Some y /\
    statef po !! 3%nat = Some vx /\
    statef po !! 5%nat = Some vz /\
    ferr = [y; vx; vz].

Lemma array3_residual (po : propout) (ferr : list F) :
  array3 (statef po) 1 3 5 = Ok ferr -> residual_of po ferr.
Proof.
  intros Hferr. unfold array3, mbind, result_mbind in Hferr.
  apply result_bind_Ok in Hferr as (y & Hy & Hferr).
  apply result_bind_Ok in Hferr as (vx & Hvx & Hferr).
  apply result_bind_Ok in Hferr as (vz & Hvz & Hferr).
  apply getitem_Ok in Hy, Hvx, Hvz. inversion Hferr.
  by exists y, vx, vz.
Qed.

(** C7. Every pass of the loop starts with the propagator call of line 39.
    In a run on a mode the engine knows, from an array with its five
    leading components:
    - the first pass is made as soon as [iter_max >= 1], and after a solver
      call that returned its three components on a residual not below the
      tolerance the next pass is made, as long as fewer than [iter_max]
      were;
    - whenever a propagator call of the run returned a result [po] of the
      shape the engine reads, the next event is the solver call of that pass
      and the residual it is given is the triple of the components 1, 3, 5
      (y, vx, vz) of the final state in [po];
    - conversely the residual of every solver call of the run is that
      triple for the result of the propagator call right before it: a
      residual is never carried over from an earlier pass. *)
Theorem residual_is_fresh (w w' : world) (r : result (F * loc * Z)) (st : list F)
    (evs : list event) :
  valid_mode fix_ ->
  heap w !! state = Some st ->
  (5 <= length st)%nat ->
  engine_run period0 iter_max message w = (w', r) ->
  trace w' = trace w ++ evs ->
  ((1 <= iter_max)%Z ->
   exists msgs post,
     Forall is_print msgs /\
     evs = msgs ++ CallPropagate mu st (fdiv period0 (fofZ 2)) :: post) /\
  (forall pre xi ferr df post xii,
     evs = pre ++ CallSsdc xi ferr df :: post ->
     ssdc xi ferr df = Ok xii ->
     (3 <= length xii)%nat ->
     flt (norm ferr) tolDC = false ->
     (count is_propagation pre < Z.to_nat iter_max)%nat ->
     exists msgs st' thalf' post',
       Forall is_print msgs /\
       post = msgs ++ CallPropagate mu st' thalf' :: post') /\
  (forall pre mu' st_k thalf_k post po,
     evs = pre ++ CallPropagate mu' st_k thalf_k :: post ->
     propagate propagate_cr3bp mu' st_k thalf_k = Ok po ->
     well_formed po ->
     exists xi ferr df post',
       post = CallSsdc xi ferr df :: post' /\ residual_of po ferr) /\
  (forall pre xi ferr df post,
     evs = pre ++ CallSsdc xi ferr df :: post ->
     exists pre' st_k thalf_k po,
       pre = pre' ++ [CallPropagate mu st_k thalf_k] /\
       propagate propagate_cr3bp mu st_k thalf_k = Ok po /\
       residual_of po ferr).
Proof.
  intros Hvalid Hst Hlen E Htr.
  destruct (run_passes w w' r st evs Hvalid Hst Hlen E Htr) as (Hfirst & Ha & Hp).
  split; [done|]. split; [exact (run_goes_on w w' r st evs Hst E Htr)|]. split.
  - intros pre mu' st_k thalf_k post po Hev Hpo Hwf.
    destruct (Ha pre mu' st_k thalf_k post po Hev Hpo Hwf)
      as (xi & ferr & df & post' & -> & [_ _ Hferr _]).
    exists xi, ferr, df, post'. split; [done|]. by apply array3_residual.
  - intros pre xi ferr df post Hev.
    destruct (Hp pre xi ferr df post Hev)
      as (pre' & st_k & thalf_k & po & -> & [Hpo _ Hferr _]).
    exists pre', st_k, thalf_k, po. do 2 (split; [done|]).
    by apply array3_residual.
Qed.

(** *** The flag, and returning when the budget is used up *)

(** A call that returned what the engine can read: a propagation result of
    the right shape, a solver output with its three components. *)
Definition call_returns (e : event) : Prop :=
  match e with
  | CallPropagate mu' st_k thalf_k =>
      exists po, propagate propagate_cr3bp mu' st_k thalf_k = Ok po /\
                 well_formed po
  | CallSsdc xi ferr df =>
      exists xii, ssdc xi ferr df = Ok xii /\ (3 <= length xii)%nat
  | Printed _ => True
  end.

Lemma call_returns_at (evs pre post : list event) (e : event) :
  Forall call_returns evs -> evs = pre ++ e :: post -> call_returns e.
Proof.
  intros Hall ->. apply Forall_app in Hall as [_ Hall]. by inversion Hall.
Qed.

(** The engine raises nothing of its own: a run in which every call made
    returned does return. *)
Lemma run_returns (w w' : world) (r : result (F * loc * Z)) (st : list F)
    (evs : list event) :
  valid_mode fix_ ->
  heap w !! state = Some st ->
  (5 <= length st)%nat ->
  engine_run period0 iter_max message w = (w', r) ->
  trace w' = trace w ++ evs ->
  Forall call_returns evs ->
  exists period flag, r = Ok (period, state, flag).
Proof.
  intros Hvalid Hst Hlen E Htr Hall.
  destruct r as [ [ [p s] flag]|e].
  - apply run_chain in E as (_ & _ & _ & _ & _ & _ & _ & _ & _ & _ & _ & _ & -> & _).
    by exists p, flag.
  - exfalso.
    destruct (run_passes w w' _ st evs Hvalid Hst Hlen E Htr) as (_ & Ha & _).
    apply (run_failure _ _ _ _ _ st) in E
      as [(Hshort & _)|(y & made & evs' & st_k & thalf_k & fevs & Hy & Hch & _ &
                        Hfail & Htr' & _)]; [lia| |done].
    rewrite Htr in Htr'. apply app_inv_head in Htr'.
    rewrite app_assoc in Htr'.
    destruct Hfail as [e Hpo|po e Hpo He|po xi ferr df e Hprep Hs
                      |po xi ferr df xii Hprep Hs Hshort].
    + destruct (call_returns_at _ _ _ _ Hall Htr') as (po & Hpo' & _).
      congruence.
    + destruct (call_returns_at _ _ _ _ Hall Htr') as (po' & Hpo' & Hwf).
      destruct (Ha _ _ _ _ _ _ Htr' Hpo' Hwf) as (? & ? & ? & ? & Hnil & _).
      discriminate.
    + assert (Hlast : evs = ((warning y ++ evs') ++
                               [CallPropagate mu st_k thalf_k]) ++
                            [CallSsdc xi ferr df])
        by (by rewrite Htr', <- !app_assoc).
      destruct (call_returns_at _ _ _ _ Hall Hlast) as (xii & Hs' & _).
      congruence.
    + assert (Hlast : evs = ((warning y ++ evs') ++
                               [CallPropagate mu st_k thalf_k]) ++
                            [CallSsdc xi ferr df])
        by (by rewrite Htr', <- !app_assoc).
      destruct (call_returns_at _ _ _ _ Hall Hlast) as (xii' & Hs' & Hlen').
      rewrite Hs in Hs'. inversion Hs'; subst xii'. lia.
Qed.

(** C4.  A run that returns reports flag 1 or 0.  It reports 1 exactly
    when some pass found its residual norm below the tolerance: that pass
    is then the first such one and the last pass of the run.  Otherwise
    all [iter_max] passes were made, each with a residual not below the
    tolerance, and the flag is 0.  In both cases the array and the
    half-period left by the last pass are what is returned.  And the engine
    raises no error of its own, whatever the residuals are: on a mode it
    knows and an array with its five leading components, a run in which
    every propagator call made returned a result of the shape the engine
    reads and every solver call made returned three components does return;
    when none of its residuals was below the tolerance it has made all
    [iter_max] passes and returns with flag 0.  Nothing is assumed of the
    propagator and the solver on inputs the run does not hand to them. *)
Theorem flag_marks_first_residual_below_tolerance (w : world) (st : list F) :
  heap w !! state = Some st ->
  (forall w' period s flag,
      engine_run period0 iter_max message w = (w', Ok (period, s, flag)) ->
      exists evs st_end thalf_end,
        trace w' = trace w ++ evs /\
        heap w' !! state = Some st_end /\
        period = fmul thalf_end (fofZ 2) /\
        ((flag = 1%Z /\
          exists k, (k < Z.to_nat iter_max)%nat /\
                    residual_checks tolDC evs = replicate k false ++ [true]) \/
         (flag = 0%Z /\
          residual_checks tolDC evs = replicate (Z.to_nat iter_max) false)) /\
        ((iter_max <= 0)%Z ->
         st_end = st /\ thalf_end = fdiv period0 (fofZ 2)) /\
        ((1 <= iter_max)%Z ->
         ends_with_update propagate_cr3bp ssdc mu fix_ tolDC
           evs st_end thalf_end (bool_decide (flag = 1%Z)))) /\
  (valid_mode fix_ ->
   (5 <= length st)%nat ->
   forall w' r evs,
     engine_run period0 iter_max message w = (w', r) ->
     trace w' = trace w ++ evs ->
     Forall call_returns evs ->
     exists period flag,
       r = Ok (period, state, flag) /\
       (Forall (fun below : bool => below = false) (residual_checks tolDC evs) ->
        flag = 0%Z /\
        length (residual_checks tolDC evs) = Z.to_nat iter_max)).
Proof.
  intros Hst.
  assert (Hflag : forall w' period s flag,
    engine_run period0 iter_max message w = (w', Ok (period, s, flag)) ->
    exists evs st_end thalf_end,
      trace w' = trace w ++ evs /\
      heap w' !! state = Some st_end /\
      period = fmul thalf_end (fofZ 2) /\
      ((flag = 1%Z /\
        exists k, (k < Z.to_nat iter_max)%nat /\
                  residual_checks tolDC evs = replicate k false ++ [true]) \/
       (flag = 0%Z /\
        residual_checks tolDC evs = replicate (Z.to_nat iter_max) false)) /\
      ((iter_max <= 0)%Z ->
       st_end = st /\ thalf_end = fdiv period0 (fofZ 2)) /\
      ((1 <= iter_max)%Z ->
       ends_with_update propagate_cr3bp ssdc mu fix_ tolDC
         evs st_end thalf_end (bool_decide (flag = 1%Z)))).
  { intros w' period s flag E.
    apply run_chain in E
      as (st0 & y & evs & st_end & thalf_end & c & Hst0 & Hy & Hch & Htr & Hh &
          -> & _ & Hc).
    rewrite Hst in Hst0. inversion Hst0; subst st0.
    exists (warning y ++ evs), st_end, thalf_end.
    split; [done|].
    split; [rewrite Hh; apply lookup_insert_eq|]. split; [done|].
    assert (Hw : residual_checks tolDC (warning y ++ evs)
                 = residual_checks tolDC evs).
    { rewrite residual_checks_app, residual_checks_prints; [done|].
      apply warning_prints. }
    rewrite Hw.
    destruct (chain_checks _ _ _ _ _ _ _ _ _ _ _ _ _ Hch) as (k & Hk & Hlenk).
    rewrite length_range in Hlenk.
    split; [|split].
    - destruct c; subst flag.
      + left. split; [done|]. by exists k.
      + right. split; [done|]. rewrite Hk, app_nil_r. by subst k.
    - intros Hn. unfold range in Hch.
      replace (Z.to_nat iter_max) with 0%nat in Hch by lia.
      by inversion Hch.
    - intros Hn. destruct (range_cons _ Hn) as [rest Hrange].
      rewrite Hrange in Hch.
      destruct (chain_last _ _ _ _ _ _ _ _ _ _ _ _ _ Hch)
        as (pre & st_k & thalf_k & po & xi & ferr & df & xii & msgs &
            -> & Hmsgs & Hprep & Hs & Hwr & Hlt); [done|].
      exists (warning y ++ pre), st_k, thalf_k, po, xi, ferr, df, xii, msgs.
      split; [by rewrite <- !app_assoc|]. do 4 (split; [done|]).
      rewrite Hlt. by destruct c; subst flag. }
  split; [exact Hflag|].
  intros Hvalid Hlen w' r evs E Htr Hall.
  destruct (run_returns w w' r st evs Hvalid Hst Hlen E Htr Hall)
    as (period & flag & ->).
  exists period, flag. split; [done|]. intros Hnone.
  destruct (Hflag w' period state flag E)
    as (evs' & st_end & thalf_end & Htr' & _ & _ &
        [(_ & k & _ & Hk)|(-> & Hk)] & _).
  - rewrite Htr in Htr'. apply app_inv_head in Htr'. subst evs'.
    rewrite Hk in Hnone. apply Forall_app in Hnone as [_ Hnone].
    by inversion Hnone.
  - rewrite Htr in Htr'. apply app_inv_head in Htr'. subst evs'.
    split; [done|]. by rewrite Hk, length_replicate.
Qed.

End iterations.

End engine_more.

(** ** More concrete runs

    Inputs on which the stand-in collaborators fail: a state of seven
    components, which the affine flow refuses; a flow whose state-transition
    matrix is zero, which makes the Jacobian singular; a flow that returns the
    matrix as six rows instead of the flattened 36. *)

Section more_concrete_runs.
Import R3BP.
Local Open Scope float_scope.

Local Abbreviation engine :=
  (ssdc_periodic_xzplane Demo.affine_flow Demo.newton3 mu0 0%nat).

Definition seven : list float := [3; 0; 7; 0; 2; 0; 0].
Definition w_seven : @world float := World (<[0%nat := seven]> Demo.heap0) [].
Definition refused : exn := ExternalError "state must have six components".
Definition singular : exn := ExternalError "Singular matrix".

Definition frozen_flow (mu : float) (state : list float) (thalf : float)
    (stm_option : bool) (ivp_method : string) (ivp_rtol ivp_atol : float)
  : result (@propout float) :=
  Ok (Propout state (replicate 36 [0]) [0; 0; 0; 0; 0; 0]).

Definition square_flow (mu : float) (state : list float) (thalf : float)
    (stm_option : bool) (ivp_method : string) (ivp_rtol ivp_atol : float)
  : result (@propout float) :=
  Ok (Propout state Demo.identity6 [0; 0; 0; 0; 0; 0]).

Local Abbreviation frozen_engine :=
  (ssdc_periodic_xzplane frozen_flow Demo.newton3 mu0 0%nat).
Local Abbreviation square_engine :=
  (ssdc_periodic_xzplane square_flow Demo.newton3 mu0 0%nat).

Definition out_seven := engine 2 "period" Demo.tol 10%Z true w_seven.
Definition out_frozen := frozen_engine 2 "period" Demo.tol 10%Z true w0.
Definition out_z := engine 2 "z" Demo.tol 10%Z false w0.
Definition zero3 : list (list float) := [ [0; 0; 0]; [0; 0; 0]; [0; 0; 0] ].

Example failing_runs :
  out_seven = (World (heap w_seven) [CallPropagate mu0 seven 1], Raise refused) /\
  out_frozen =
    (World (heap w0) [CallPropagate mu0 guess 1; CallSsdc [3; 7; 2] [0; 0; 0] zero3],
     Raise singular).
Proof. split; vm_compute; reflexivity. Qed.

Lemma short_state_raises_at_once_witness :
  heap (World (<[0%nat := [3] ]> Demo.heap0) []) !! 0%nat = Some [3] /\
  (length [3] <= 1)%nat /\
  engine 2 "period" Demo.tol 10%Z true (World (<[0%nat := [3] ]> Demo.heap0) []) =
    (World (<[0%nat := [3] ]> Demo.heap0) [], Raise IndexError).
Proof.
  assert (Hst : heap (World (<[0%nat := [3] ]> Demo.heap0) []) !! 0%nat = Some [3])
    by reflexivity.
  assert (Hlen : (length [3] <= 1)%nat) by (simpl; lia).
  split; [exact Hst|]. split; [exact Hlen|].
  exact (short_state_raises_at_once Demo.affine_flow Demo.newton3 mu0 0%nat
           "period" Demo.tol true 2 10%Z _ [3] Hst Hlen).
Defined.

Lemma exceptions_of_a_run_witness :
  heap w_seven !! 0%nat = Some seven /\
  engine 2 "period" Demo.tol 10%Z true w_seven = (out_seven.1, Raise refused) /\
  (engine_exception refused \/
   (exists pre st_k thalf_k,
       trace out_seven.1 = trace w_seven ++ pre ++ [CallPropagate mu0 st_k thalf_k] /\
       propagate Demo.affine_flow mu0 st_k thalf_k = Raise refused) \/
   (exists pre xi ferr df,
       trace out_seven.1 = trace w_seven ++ pre ++ [CallSsdc xi ferr df] /\
       Demo.newton3 xi ferr df = Raise refused)).
Proof.
  assert (Hst : heap w_seven !! 0%nat = Some seven) by reflexivity.
  assert (Hrun : engine 2 "period" Demo.tol 10%Z true w_seven
                 = (out_seven.1, Raise refused)) by (vm_compute; reflexivity).
  split; [exact Hst|]. split; [exact Hrun|].
  exact (exceptions_of_a_run Demo.affine_flow Demo.newton3 mu0 0%nat "period"
           Demo.tol true 2 10%Z w_seven out_seven.1 seven refused Hst Hrun).
Defined.

Lemma failing_pass_writes_nothing_witness :
  heap w0 !! 0%nat = Some guess /\
  (2 <= length guess)%nat /\
  frozen_engine 2 "period" Demo.tol 10%Z true w0 = (out_frozen.1, Raise singular) /\
  exists pre st_k thalf_k post,
    trace out_frozen.1 = trace w0 ++ pre ++ CallPropagate mu0 st_k thalf_k :: post /\
    (post = [] \/ exists xi ferr df, post = [CallSsdc xi ferr df]) /\
    heap out_frozen.1 !! 0%nat = Some st_k /\
    (forall l, l <> 0%nat -> heap out_frozen.1 !! l = heap w0 !! l).
Proof.
  assert (Hst : heap w0 !! 0%nat = Some guess) by reflexivity.
  assert (Hlen : (2 <= length guess)%nat) by (simpl; lia).
  assert (Hrun : frozen_engine 2 "period" Demo.tol 10%Z true w0
                 = (out_frozen.1, Raise singular)) by (vm_compute; reflexivity).
  split; [exact Hst|]. split; [exact Hlen|]. split; [exact Hrun|].
  exact (failing_pass_writes_nothing frozen_flow Demo.newton3 mu0 0%nat "period"
           Demo.tol true 2 10%Z w0 out_frozen.1 guess singular Hst Hlen Hrun).
Defined.

Lemma propagator_exception_passes_through_witness :
  heap w_seven !! 0%nat = Some seven /\
  engine 2 "period" Demo.tol 10%Z true w_seven = (out_seven.1, out_seven.2) /\
  trace out_seven.1 = trace w_seven ++ [] ++ [CallPropagate mu0 seven 1] /\
  propagate Demo.affine_flow mu0 seven 1 = Raise refused /\
  out_seven.2 = Raise refused.
Proof.
  assert (Hst : heap w_seven !! 0%nat = Some seven) by reflexivity.
  assert (Hrun : engine 2 "period" Demo.tol 10%Z true w_seven
                 = (out_seven.1, out_seven.2)) by (vm_compute; reflexivity).
  assert (Htr : trace out_seven.1
                = trace w_seven ++ [] ++ [CallPropagate mu0 seven 1])
    by (vm_compute; reflexivity).
  assert (Hpo : propagate Demo.affine_flow mu0 seven 1 = Raise refused)
    by reflexivity.
  split; [exact Hst|]. split; [exact Hrun|]. split; [exact Htr|].
  split; [exact Hpo|].
  exact (propagator_exception_passes_through Demo.affine_flow Demo.newton3 mu0
           0%nat "period" Demo.tol true 2 10%Z w_seven out_seven.1 seven
           out_seven.2 [] seven 1 refused Hst Hrun Htr Hpo).
Defined.

Lemma solver_exception_passes_through_witness :
  heap w0 !! 0%nat = Some guess /\
  frozen_engine 2 "period" Demo.tol 10%Z true w0 = (out_frozen.1, out_frozen.2) /\
  trace out_frozen.1 =
    trace w0 ++ [CallPropagate mu0 guess 1] ++ [CallSsdc [3; 7; 2] [0; 0; 0] zero3] /\
  Demo.newton3 [3; 7; 2] [0; 0; 0] zero3 = Raise singular /\
  out_frozen.2 = Raise singular.
Proof.
  assert (Hst : heap w0 !! 0%nat = Some guess) by reflexivity.
  assert (Hrun : frozen_engine 2 "period" Demo.tol 10%Z true w0
                 = (out_frozen.1, out_frozen.2)) by (vm_compute; reflexivity).
  assert (Htr : trace out_frozen.1 =
                trace w0 ++ [CallPropagate mu0 guess 1] ++
                  [CallSsdc [3; 7; 2] [0; 0; 0] zero3])
    by (vm_compute; reflexivity).
  assert (Hs : Demo.newton3 [3; 7; 2] [0; 0; 0] zero3 = Raise singular)
    by (vm_compute; reflexivity).
  split; [exact Hst|]. split; [exact Hrun|]. split; [exact Htr|].
  split; [exact Hs|].
  exact (solver_exception_passes_through frozen_flow Demo.newton3 mu0 0%nat
           "period" Demo.tol true 2 10%Z w0 out_frozen.1 guess out_frozen.2
           [CallPropagate mu0 guess 1] [3; 7; 2] [0; 0; 0] zero3 singular
           Hst Hrun Htr Hs).
Defined.

Lemma calls_within_budget_witness :
  heap w0 !! 0%nat = Some guess /\
  engine 2 "period" Demo.tol 10%Z true w0 = (out_period.1, out_period.2) /\
  trace out_period.1 = trace w0 ++ trace out_period.1 /\
  (count is_propagation (trace out_period.1) <= Z.to_nat 10)%nat /\
  (count is_solve (trace out_period.1)
   <= count is_propagation (trace out_period.1))%nat /\
  (forall x, out_period.2 = Ok x ->
     count is_solve (trace out_period.1)
     = count is_propagation (trace out_period.1)).
Proof.
  assert (Hst : heap w0 !! 0%nat = Some guess) by reflexivity.
  assert (Hrun : engine 2 "period" Demo.tol 10%Z true w0
                 = (out_period.1, out_period.2)) by (vm_compute; reflexivity).
  assert (Htr : trace out_period.1 = trace w0 ++ trace out_period.1)
    by reflexivity.
  split; [exact Hst|]. split; [exact Hrun|]. split; [exact Htr|].
  exact (calls_within_budget Demo.affine_flow Demo.newton3 mu0 0%nat "period"
           Demo.tol true 2 10%Z w0 out_period.1 guess out_period.2
           (trace out_period.1) Hst Hrun Htr).
Defined.

Lemma free_period_comes_from_solver_witness :
  "z"%string = "z"%string /\
  (1 <= 10)%Z /\
  engine 2 "z" Demo.tol 10%Z false w0 = (out_z.1, Ok (12, 0%nat, 1%Z)) /\
  exists pre xi ferr df msgs xii x2,
    trace out_z.1 = trace w0 ++ pre ++ CallSsdc xi ferr df :: msgs /\
    Forall is_print msgs /\
    Demo.newton3 xi ferr df = Ok xii /\
    xii !! 2%nat = Some x2 /\
    12 = PrimFloat.mul x2 (float_of_Z 2).
Proof.
  assert (Hz : "z"%string = "z"%string) by reflexivity.
  assert (Hn : (1 <= 10)%Z) by lia.
  assert (Hrun : engine 2 "z" Demo.tol 10%Z false w0
                 = (out_z.1, Ok (12, 0%nat, 1%Z))) by (vm_compute; reflexivity).
  split; [exact Hz|]. split; [exact Hn|]. split; [exact Hrun|].
  exact (free_period_comes_from_solver Demo.affine_flow Demo.newton3 mu0 0%nat
           "z" Demo.tol false 2 10%Z w0 out_z.1 12 0%nat 1%Z Hz Hn Hrun).
Defined.

Lemma negative_budget_is_zero_budget_witness :
  (-3 <= 0)%Z /\
  engine 2 "period" Demo.tol (-3)%Z true w0 = engine 2 "period" Demo.tol 0%Z true w0.
Proof.
  assert (Hn : (-3 <= 0)%Z) by lia.
  split; [exact Hn|].
  exact (negative_budget_is_zero_budget Demo.affine_flow Demo.newton3 mu0 0%nat
           "period" Demo.tol true 2 (-3)%Z w0 Hn).
Defined.

Lemma propagations_stay_in_family_witness :
  heap w0 !! 0%nat = Some guess /\
  engine 2 "z" Demo.tol 10%Z false w0 = (out_z.1, out_z.2) /\
  trace out_z.1 = trace w0 ++ trace out_z.1 /\
  CallPropagate mu0 [1; 0; 7; 0; -2; 0] 6 ∈ trace out_z.1 /\
  mu0 = mu0 /\
  length [1; 0; 7; 0; -2; 0] = length guess /\
  (forall i, i ∉ slots "z" -> [1; 0; 7; 0; -2; 0] !! i = guess !! i) /\
  ([1; 0; 7; 0; -2; 0] !! 1%nat = guess !! 1%nat /\
   [1; 0; 7; 0; -2; 0] !! 3%nat = guess !! 3%nat /\
   [1; 0; 7; 0; -2; 0] !! 5%nat = guess !! 5%nat) /\
  ("z"%string <> "z"%string -> 6 = PrimFloat.div 2 (float_of_Z 2)).
Proof.
  assert (Hst : heap w0 !! 0%nat = Some guess) by reflexivity.
  assert (Hrun : engine 2 "z" Demo.tol 10%Z false w0 = (out_z.1, out_z.2))
    by (vm_compute; reflexivity).
  assert (Htr : trace out_z.1 = trace w0 ++ trace out_z.1) by reflexivity.
  assert (Hin : CallPropagate mu0 [1; 0; 7; 0; -2; 0] 6 ∈ trace out_z.1).
  { replace (trace out_z.1) with
      ([CallPropagate mu0 guess 1;
        CallSsdc [3; 2; 1] [2; 4; -1] [ [1; 0; 0]; [0; 1; 0]; [0; 1; 1] ];
        CallPropagate mu0 [1; 0; 7; 0; -2; 0] 6;
        CallSsdc [1; -2; 6] [0; 0; 0] [ [1; 0; 0]; [0; 1; 0]; [0; 1; 1] ] ])
      by (vm_compute; reflexivity).
    rewrite !elem_of_cons. right. right. by left. }
  split; [exact Hst|]. split; [exact Hrun|]. split; [exact Htr|].
  split; [exact Hin|].
  exact (propagations_stay_in_family Demo.affine_flow Demo.newton3 mu0 0%nat
           "z" Demo.tol false 2 10%Z w0 out_z.1 guess out_z.2 (trace out_z.1)
           mu0 [1; 0; 7; 0; -2; 0] 6 Hst Hrun Htr Hin).
Defined.

Lemma wrong_matrix_shape_raises_witness :
  valid_mode "period" /\
  (1 <= 10)%Z /\
  heap w0 !! 0%nat = Some guess /\
  (5 <= length guess)%nat /\
  guess !! 1%nat = Some 0 /\
  propagate square_flow mu0 guess (PrimFloat.div 2 (float_of_Z 2))
    = Ok (Propout guess Demo.identity6 [0; 0; 0; 0; 0; 0]) /\
  (6 <= length guess)%nat /\
  last_column Demo.identity6 = Ok [0; 0; 0; 0; 0; 1] /\
  length [0; 0; 0; 0; 0; 1] <> 36%nat /\
  square_engine 2 "period" Demo.tol 10%Z true w0 =
    (World (heap w0)
       (trace w0 ++ warning 0 ++
          [CallPropagate mu0 guess (PrimFloat.div 2 (float_of_Z 2))]),
     Raise ValueError).
Proof.
  assert (Hvalid : valid_mode "period") by (vm_compute; tauto).
  assert (Hn : (1 <= 10)%Z) by lia.
  assert (Hst : heap w0 !! 0%nat = Some guess) by reflexivity.
  assert (Hlen : (5 <= length guess)%nat) by (simpl; lia).
  assert (Hy : guess !! 1%nat = Some 0) by reflexivity.
  assert (Hpo : propagate square_flow mu0 guess (PrimFloat.div 2 (float_of_Z 2))
                = Ok (Propout guess Demo.identity6 [0; 0; 0; 0; 0; 0]))
    by reflexivity.
  assert (Hsf : (6 <= length guess)%nat) by (simpl; lia).
  assert (Hcol : last_column Demo.identity6 = Ok [0; 0; 0; 0; 0; 1])
    by (vm_compute; reflexivity).
  assert (Hshape : length [0; 0; 0; 0; 0; 1] <> 36%nat) by (simpl; lia).
  split; [exact Hvalid|]. split; [exact Hn|]. split; [exact Hst|].
  split; [exact Hlen|]. split; [exact Hy|]. split; [exact Hpo|].
  split; [exact Hsf|]. split; [exact Hcol|]. split; [exact Hshape|].
  exact (wrong_matrix_shape_raises square_flow Demo.newton3 mu0 0%nat "period"
           Demo.tol true 2 10%Z w0 guess 0
           (Propout guess Demo.identity6 [0; 0; 0; 0; 0; 0])
           [0; 0; 0; 0; 0; 1] Hvalid Hn Hst Hlen Hy Hpo Hsf Hcol Hshape).
Defined.

(** *** The passes of two runs

    The run with the amplitude fixed makes two passes without progress
    lines; the run with the period fixed makes two passes and prints after
    each. *)

Definition z_events : list (@event float) :=
  [ CallPropagate mu0 [3; 0; 7; 0; 2; 0] 1;
    CallSsdc [3; 2; 1] [2; 4; -1] [ [1; 0; 0]; [0; 1; 0]; [0; 1; 1] ];
    CallPropagate mu0 [1; 0; 7; 0; -2; 0] 6;
    CallSsdc [1; -2; 6] [0; 0; 0] [ [1; 0; 0]; [0; 1; 0]; [0; 1; 1] ] ].

Definition period_events : list (@event float) :=
  [ CallPropagate mu0 [3; 0; 7; 0; 2; 0] 1;
    CallSsdc [3; 7; 2] [2; 4; -1] [ [1; 0; 0]; [0; 1; 1]; [0; 0; 1] ];
    Printed (CurrentError 1 (PrimFloat.sqrt 21));
    CallPropagate mu0 [1; 0; 2; 0; 3; 0] 1;
    CallSsdc [1; 2; 3] [0; 0; 0] [ [1; 0; 0]; [0; 1; 1]; [0; 0; 1] ];
    Printed (ClearedTolerance 2 0) ].

Lemma jacobian_layout_witness :
  valid_mode "z" /\
  heap w0 !! 0%nat = Some guess /\
  (5 <= length guess)%nat /\
  engine 2 "z" Demo.tol 10%Z false w0 = (out_z.1, out_z.2) /\
  trace out_z.1 = trace w0 ++ z_events /\
  ((1 <= 10)%Z ->
   exists msgs post,
     Forall is_print msgs /\
     z_events = msgs ++ CallPropagate mu0 guess (fdiv 2 (fofZ 2)) :: post) /\
  (forall pre xi ferr df post xii,
     z_events = pre ++ CallSsdc xi ferr df :: post ->
     Demo.newton3 xi ferr df = Ok xii ->
     (3 <= length xii)%nat ->
     flt (norm ferr) Demo.tol = false ->
     (count is_propagation pre < Z.to_nat 10)%nat ->
     exists msgs st' thalf' post',
       Forall is_print msgs /\
       post = msgs ++ CallPropagate mu0 st' thalf' :: post') /\
  (forall pre mu' st_k thalf_k post po,
     z_events = pre ++ CallPropagate mu' st_k thalf_k :: post ->
     propagate Demo.affine_flow mu' st_k thalf_k = Ok po ->
     well_formed po ->
     exists xi ferr df post',
       post = CallSsdc xi ferr df :: post' /\ layout "z" po df) /\
  (forall pre xi ferr df post,
     z_events = pre ++ CallSsdc xi ferr df :: post ->
     exists pre' st_k thalf_k po,
       pre = pre' ++ [CallPropagate mu0 st_k thalf_k] /\
       propagate Demo.affine_flow mu0 st_k thalf_k = Ok po /\
       layout "z" po df).
Proof.
  assert (Hvalid : valid_mode "z") by (by left).
  assert (Hst : heap w0 !! 0%nat = Some guess) by reflexivity.
  assert (Hlen : (5 <= length guess)%nat) by (simpl; lia).
  assert (Hrun : engine 2 "z" Demo.tol 10%Z false w0 = (out_z.1, out_z.2))
    by (vm_compute; reflexivity).
  assert (Htr : trace out_z.1 = trace w0 ++ z_events)
    by (vm_compute; reflexivity).
  split; [exact Hvalid|]. split; [exact Hst|]. split; [exact Hlen|].
  split; [exact Hrun|]. split; [exact Htr|].
  exact (jacobian_layout Demo.affine_flow Demo.newton3 mu0 0%nat "z" Demo.tol
           false 2 10%Z w0 out_z.1 out_z.2 guess z_events
           Hvalid Hst Hlen Hrun Htr).
Defined.

(** The matrices of the two solver calls of that run, checked against the
    propagation results by evaluation. *)
Example z_matrices :
  (exists po, propagate Demo.affine_flow mu0 [3; 0; 7; 0; 2; 0] 1 = Ok po /\
              well_formed po /\
              layout "z" po [ [1; 0; 0]; [0; 1; 0]; [0; 1; 1] ]) /\
  (exists po, propagate Demo.affine_flow mu0 [1; 0; 7; 0; -2; 0] 6 = Ok po /\
              well_formed po /\
              layout "z" po [ [1; 0; 0]; [0; 1; 0]; [0; 1; 1] ]).
Proof.
  split; (eexists; split; [reflexivity|]; split;
          [ unfold well_formed; simpl; repeat split;
            repeat (constructor; [discriminate|]); constructor
          | split; intros E; [vm_compute; reflexivity|discriminate] ]).
Qed.

Lemma residual_is_fresh_witness :
  valid_mode "period" /\
  heap w0 !! 0%nat = Some guess /\
  (5 <= length guess)%nat /\
  engine 2 "period" Demo.tol 10%Z true w0 = (out_period.1, out_period.2) /\
  trace out_period.1 = trace w0 ++ period_events /\
  ((1 <= 10)%Z ->
   exists msgs post,
     Forall is_print msgs /\
     period_events = msgs ++ CallPropagate mu0 guess (fdiv 2 (fofZ 2)) :: post) /\
  (forall pre xi ferr df post xii,
     period_events = pre ++ CallSsdc xi ferr df :: post ->
     Demo.newton3 xi ferr df = Ok xii ->
     (3 <= length xii)%nat ->
     flt (norm ferr) Demo.tol = false ->
     (count is_propagation pre < Z.to_nat 10)%nat ->
     exists msgs st' thalf' post',
       Forall is_print msgs /\
       post = msgs ++ CallPropagate mu0 st' thalf' :: post') /\
  (forall pre mu' st_k thalf_k post po,
     period_events = pre ++ CallPropagate mu' st_k thalf_k :: post ->
     propagate Demo.affine_flow mu' st_k thalf_k = Ok po ->
     well_formed po ->
     exists xi ferr df post',
       post = CallSsdc xi ferr df :: post' /\ residual_of po ferr) /\
  (forall pre xi ferr df post,
     period_events = pre ++ CallSsdc xi ferr df :: post ->
     exists pre' st_k thalf_k po,
       pre = pre' ++ [CallPropagate mu0 st_k thalf_k] /\
       propagate Demo.affine_flow mu0 st_k thalf_k = Ok po /\
       residual_of po ferr).
Proof.
  assert (Hvalid : valid_mode "period") by (by right).
  assert (Hst : heap w0 !! 0%nat = Some guess) by reflexivity.
  assert (Hlen : (5 <= length guess)%nat) by (simpl; lia).
  assert (Htr : trace out_period.1 = trace w0 ++ period_events)
    by (vm_compute; reflexivity).
  split; [exact Hvalid|]. split; [exact Hst|]. split; [exact Hlen|].
  split; [exact run_out_period|]. split; [exact Htr|].
  exact (residual_is_fresh Demo.affine_flow Demo.newton3 mu0 0%nat "period"
           Demo.tol true 2 10%Z w0 out_period.1 out_period.2 guess period_events
           Hvalid Hst Hlen run_out_period Htr).
Defined.

(** The residuals of the two solver calls of that run, checked against the
    propagation results by evaluation: the second one is not the first. *)
Example period_residuals :
  (exists po, propagate Demo.affine_flow mu0 [3; 0; 7; 0; 2; 0] 1 = Ok po /\
              residual_of po [2; 4; -1]) /\
  (exists po, propagate Demo.affine_flow mu0 [1; 0; 2; 0; 3; 0] 1 = Ok po /\
              residual_of po [0; 0; 0]).
Proof.
  split; (eexists; split; [reflexivity|]; eexists _, _, _;
          repeat split; vm_compute; reflexivity).
Qed.

(** *** A solver that fails on some systems

    This solver refuses a residual whose first component is zero, as the one
    of the second pass above.  With a budget of one pass the run never hands
    it such a residual: it uses up its budget and returns with flag 0.  With
    a budget of two the second solver call raises. *)

Definition picky_newton (xi ferr : list float) (df : list (list float))
  : result (list float) :=
  match ferr with
  | r0 :: _ =>
      if PrimFloat.eqb r0 0 then Raise (ExternalError "nothing to correct")
      else Demo.newton3 xi ferr df
  | [] => Raise ValueError
  end.

Local Abbreviation picky_engine :=
  (ssdc_periodic_xzplane Demo.affine_flow picky_newton mu0 0%nat).

Definition out_picky := picky_engine 2 "period" Demo.tol 1%Z true w0.

Definition picky_events : list (@event float) :=
  [ CallPropagate mu0 [3; 0; 7; 0; 2; 0] 1;
    CallSsdc [3; 7; 2] [2; 4; -1] [ [1; 0; 0]; [0; 1; 1]; [0; 0; 1] ];
    Printed (CurrentError 1 (PrimFloat.sqrt 21)) ].

Example picky_runs :
  out_picky.2 = Ok (2, 0%nat, 0%Z) /\
  heap out_picky.1 !! 0%nat = Some [1; 0; 2; 0; 3; 0] /\
  residual_checks Demo.tol picky_events = [false] /\
  picky_newton [1; 2; 3] [0; 0; 0] [ [1; 0; 0]; [0; 1; 1]; [0; 0; 1] ]
    = Raise (ExternalError "nothing to correct") /\
  (picky_engine 2 "period" Demo.tol 2%Z true w0).2
    = Raise (ExternalError "nothing to correct").
Proof. repeat split; vm_compute; reflexivity. Qed.

Lemma flag_marks_first_residual_below_tolerance_witness :
  heap w0 !! 0%nat = Some guess /\
  valid_mode "period" /\
  (5 <= length guess)%nat /\
  picky_engine 2 "period" Demo.tol 1%Z true w0 = (out_picky.1, out_picky.2) /\
  trace out_picky.1 = trace w0 ++ picky_events /\
  Forall (call_returns Demo.affine_flow picky_newton) picky_events /\
  (exists period flag,
     out_picky.2 = Ok (period, 0%nat, flag) /\
     (Forall (fun below : bool => below = false)
        (residual_checks Demo.tol picky_events) ->
      flag = 0%Z /\
      length (residual_checks Demo.tol picky_events) = Z.to_nat 1)) /\
  (forall w' period s flag,
     picky_engine 2 "period" Demo.tol 1%Z true w0 = (w', Ok (period, s, flag)) ->
     exists evs st_end thalf_end,
       trace w' = trace w0 ++ evs /\
       heap w' !! 0%nat = Some st_end /\
       period = fmul thalf_end (fofZ 2) /\
       ((flag = 1%Z /\
         exists k, (k < Z.to_nat 1)%nat /\
                   residual_checks Demo.tol evs = replicate k false ++ [true]) \/
        (flag = 0%Z /\
         residual_checks Demo.tol evs = replicate (Z.to_nat 1) false)) /\
       ((1 <= 0)%Z -> st_end = guess /\ thalf_end = fdiv 2 (fofZ 2)) /\
       ((1 <= 1)%Z ->
        ends_with_update Demo.affine_flow picky_newton mu0 "period" Demo.tol
          evs st_end thalf_end (bool_decide (flag = 1%Z)))).
Proof.
  assert (Hst : heap w0 !! 0%nat = Some guess) by reflexivity.
  assert (Hvalid : valid_mode "period") by (by right).
  assert (Hlen : (5 <= length guess)%nat) by (simpl; lia).
  assert (Hrun : picky_engine 2 "period" Demo.tol 1%Z true w0
                 = (out_picky.1, out_picky.2)) by (vm_compute; reflexivity).
  assert (Htr : trace out_picky.1 = trace w0 ++ picky_events)
    by (vm_compute; reflexivity).
  assert (Hall : Forall (call_returns Demo.affine_flow picky_newton) picky_events).
  { constructor; [exact (affine_flow_well_formed guess 1 eq_refl)|].
    constructor; [eexists; split; [vm_compute; reflexivity|simpl; lia]|].
    constructor; [exact I|constructor]. }
  destruct (flag_marks_first_residual_below_tolerance Demo.affine_flow
              picky_newton mu0 0%nat "period" Demo.tol true 2 1%Z w0 guess Hst)
    as [Hflag Hreturns].
  split; [exact Hst|]. split; [exact Hvalid|]. split; [exact Hlen|].
  split; [exact Hrun|]. split; [exact Htr|]. split; [exact Hall|].
  split; [|exact Hflag].
  exact (Hreturns Hvalid Hlen out_picky.1 out_picky.2 picky_events Hrun Htr Hall).
Defined.

End more_concrete_runs.
